(** * Narrative-graph validation and playthrough simulation

    A shallow embedding of the two algorithmic services of the API,
    [validation.service.ts] and [simulation.service.ts], and of the
    analysis helpers of the simulation controller that count the events of
    a stored simulation, and the proofs of the properties stated for them.

    Conventions of the embedding:
    - a JavaScript [number] is an exact rational ([Qc]) or [NaN]; the
      rounding error of IEEE doubles is not modelled;
    - a JavaScript [Map] is an association list in insertion order, with
      [Map.set] replacing in place or appending;
    - a plain object used as a dictionary ([Record<string, T>]) is a
      [gmap string T]; a [Set<string>] is a [gset string];
    - strings are byte strings; whitespace and case are the ASCII ones;
    - a message built from a template literal is a constructor of
      [Message] carrying the interpolated values. *)

From Stdlib Require Import ZArith QArith Qcanon Qround String Ascii List Lia Lqa.
From stdpp Require Import base decidable option list gmap sets strings numbers.

#[local] Set Warnings "-clear-no-such-hyp".


Local Open Scope string_scope.
Local Open Scope list_scope.

(** ** JavaScript values used by both services *)

Module Js.

(** [number]: a rational or NaN.  Reading a missing property in a numeric
    context yields [undefined], which coerces to NaN. *)
Inductive num : Type :=
| NaN
| Num (q : Qc).

#[global] Instance num_eq_dec : EqDecision num.
Proof. solve_decision. Defined.

Definition of_Z (z : Z) : num := Num (Q2Qc (inject_Z z)).

Definition lift2 (f : Qc -> Qc -> Qc) (a b : num) : num :=
  match a, b with
  | Num x, Num y => Num (f x y)
  | _, _ => NaN
  end.

Definition add : num -> num -> num := lift2 Qcplus.
Definition sub : num -> num -> num := lift2 Qcminus.
Definition mul : num -> num -> num := lift2 Qcmult.

(** Every divisor in the embedded code is a non-zero constant or guarded
    by a positivity test, so the infinities of [x / 0] are not modelled. *)
Definition div (a b : num) : num :=
  match a, b with
  | Num x, Num y => if decide (y = 0%Qc) then NaN else Num (x / y)%Qc
  | _, _ => NaN
  end.

(** Comparisons are false as soon as one side is NaN. *)
Definition lt (a b : num) : bool :=
  match a, b with
  | Num x, Num y => bool_decide (x < y)%Qc
  | _, _ => false
  end.
Definition gt (a b : num) : bool := lt b a.
Definition le (a b : num) : bool :=
  match a, b with
  | Num x, Num y => bool_decide (x <= y)%Qc
  | _, _ => false
  end.
Definition ge (a b : num) : bool := le b a.

(** [a !== b] on numbers. *)
Definition strict_ne (a b : num) : bool :=
  match a, b with
  | Num x, Num y => negb (bool_decide (x = y))
  | _, _ => true
  end.

Definition floor (a : num) : num :=
  match a with
  | Num x => of_Z (Qfloor x)
  | NaN => NaN
  end.

(** [Math.round]: nearest integer, ties towards plus infinity. *)
Definition round (a : num) : num :=
  match a with
  | Num x => of_Z (Qfloor (x + Q2Qc (1 # 2))%Qc)
  | NaN => NaN
  end.

Definition min (a b : num) : num :=
  match a, b with
  | Num x, Num y => if bool_decide (x <= y)%Qc then Num x else Num y
  | _, _ => NaN
  end.
Definition max (a b : num) : num :=
  match a, b with
  | Num x, Num y => if bool_decide (x <= y)%Qc then Num y else Num x
  | _, _ => NaN
  end.

Definition abs (a : num) : num :=
  match a with
  | Num x => if bool_decide (0 <= x)%Qc then Num x else Num (- x)%Qc
  | NaN => NaN
  end.

(** Truthiness of a number: neither [0] nor NaN. *)
Definition truthy_num (a : num) : bool :=
  match a with
  | Num x => negb (bool_decide (x = 0%Qc))
  | NaN => false
  end.

(** [a || 0] on an optional number. *)
Definition or_zero (a : option num) : num :=
  match a with
  | Some n => if truthy_num n then n else of_Z 0
  | None => of_Z 0
  end.

(** [o.k] read as a number. *)
Definition get_num (o : gmap string num) (k : string) : num :=
  match o !! k with
  | Some n => n
  | None => NaN
  end.

(** The values a JSON blob field of type [any] can hold. *)
Inductive value : Type :=
| VNull
| VBool (b : bool)
| VNum (n : num)
| VStr (s : string)
| VObj.

Definition truthy_str (s : string) : bool :=
  negb (bool_decide (s = EmptyString)).

Definition truthy (v : value) : bool :=
  match v with
  | VNull => false
  | VBool b => b
  | VNum n => truthy_num n
  | VStr s => truthy_str s
  | VObj => true
  end.

(** Truthiness of an optional property: [undefined] is falsy. *)
Definition truthy_opt_str (o : option string) : bool :=
  match o with
  | Some s => truthy_str s
  | None => false
  end.

Definition truthy_opt (o : option value) : bool :=
  match o with
  | Some v => truthy v
  | None => false
  end.

(** [String.prototype.trim] on the ASCII white space. *)
Definition is_space (c : ascii) : bool :=
  let n := nat_of_ascii c in
  ((9 <=? n)%nat && (n <=? 13)%nat) || (n =? 32)%nat.

Fixpoint trim_start (s : string) : string :=
  match s with
  | EmptyString => EmptyString
  | String c s' => if is_space c then trim_start s' else s
  end.

Fixpoint trim_end (s : string) : string :=
  match s with
  | EmptyString => EmptyString
  | String c s' =>
      match trim_end s' with
      | EmptyString => if is_space c then EmptyString else String c EmptyString
      | t => String c t
      end
  end.

Definition trim (s : string) : string := trim_end (trim_start s).

(** [!s || s.trim().length === 0] *)
Definition blank (o : option string) : bool :=
  match o with
  | None => true
  | Some s => negb (truthy_str s) || (String.length (trim s) =? 0)%nat
  end.

Definition lower_ascii (c : ascii) : ascii :=
  let n := nat_of_ascii c in
  if ((65 <=? n)%nat && (n <=? 90)%nat)%bool then ascii_of_nat (n + 32) else c.

Fixpoint toLowerCase (s : string) : string :=
  match s with
  | EmptyString => EmptyString
  | String c s' => String (lower_ascii c) (toLowerCase s')
  end.

(** [s.includes(t)] *)
Fixpoint includes (s t : string) : bool :=
  String.prefix t s ||
  match s with
  | EmptyString => false
  | String _ s' => includes s' t
  end.

(** A [Map<string, V>]: entries in insertion order, keys unique as long
    as it is built with [map_set]. *)
Section JsMap.
Context {V : Type}.

Fixpoint map_get (m : list (string * V)) (k : string) : option V :=
  match m with
  | [] => None
  | (k', v) :: m' => if decide (k' = k) then Some v else map_get m' k
  end.

Definition map_has (m : list (string * V)) (k : string) : bool :=
  match map_get m k with
  | Some _ => true
  | None => false
  end.

Fixpoint map_set (m : list (string * V)) (k : string) (v : V) : list (string * V) :=
  match m with
  | [] => [(k, v)]
  | (k', v') :: m' =>
      if decide (k' = k) then (k', v) :: m' else (k', v') :: map_set m' k v
  end.

(** In-place mutation of the object stored under [k], if any. *)
Fixpoint map_update (m : list (string * V)) (k : string) (f : V -> V) : list (string * V) :=
  match m with
  | [] => []
  | (k', v') :: m' =>
      if decide (k' = k) then (k', f v') :: m' else (k', v') :: map_update m' k f
  end.
End JsMap.

End Js.

(** ** The validation service ([validation.service.ts]) *)

Module Validation.
Import Js.

(** *** Records read from the repositories *)

(** A condition blob.  Its [type] and [operator] are only tested for
    truthiness and for membership in lists of strings, so a non-string
    value behaves like a string outside those lists. *)
Record Condition : Type := {
  cond_type : option string;
  cond_operator : option string;
  cond_value : option value;
}.

Record Prerequisite : Type := {
  prereq_id : string;
  prereq_conditions : option (list Condition);
}.

Record Outcome : Type := {
  nextQuestId : option string;
  outcome_conditions : option (list Condition);
  outcome_description : option string;
  probability : option num;
}.

Record Quest : Type := {
  quest_id : string;
  quest_title : option string;
  quest_description : option string;
  storyArcId : option string;
  prerequisites : option (list Prerequisite);
  outcomes : option (list Outcome);
}.

Record StoryArc : Type := {
  arc_id : string;
  arc_title : option string;
}.

Record Dialogue : Type := {
  dialogue_id : string;
  dialogue_title : option string;
  questId : option string;
}.

(** *** Findings *)

Inductive ErrorType : Type :=
| orphan
| unreachable
| broken_chain
| invalid_condition
| circular_dependency
| missing_prerequisites.

Inductive Severity : Type :=
| error
| warning.

Inductive NodeType : Type :=
| story_arc
| quest
| dialogue.

(** One constructor per message template of the source. *)
Inductive Message : Type :=
| MsgNoConnections (t : NodeType) (label : option string)
| MsgUnreachable (t : NodeType) (label : option string)
| MsgBrokenChain (label : option string)
| MsgCircular (t : NodeType) (label : option string)
| MsgMissingPrerequisite (label : option string)
| MsgInvalidPrerequisiteCondition (label : option string)
| MsgInvalidOutcomeCondition (label : option string)
| MsgTitleRequired
| MsgDescriptionRequired
| MsgNoOutcome
| MsgProbabilitySum (totalProbability : num)
| MsgPrerequisiteIdRequired
| MsgOutcomeDescriptionRequired (index1 : nat)
| MsgOutcomeProbabilityRange (index1 : nat).

Record ValidationError : Type := {
  err_type : ErrorType;
  nodeId : option string;
  message : Message;
  severity : Severity;
  suggestions : option (list string);
}.

Record Summary : Type := {
  totalNodes : nat;
  totalEdges : nat;
  orphanNodes : nat;
  unreachableNodes : nat;
  brokenChains : nat;
  circularDependencies : nat;
}.

Record ValidationResult : Type := {
  isValid : bool;
  errors : list ValidationError;
  warnings : list ValidationError;
  exportReady : bool;
  summary : Summary;
}.

#[global] Instance ErrorType_eq_dec : EqDecision ErrorType.
Proof. solve_decision. Defined.
#[global] Instance Severity_eq_dec : EqDecision Severity.
Proof. solve_decision. Defined.
#[global] Instance NodeType_eq_dec : EqDecision NodeType.
Proof. solve_decision. Defined.

(** *** The graph *)

Inductive NodeData : Type :=
| ArcData (a : StoryArc)
| QuestData (q : Quest)
| DialogueData (d : Dialogue).

Record Node : Type := {
  node_id : string;
  node_type : NodeType;
  label : option string;
  data : NodeData;
  incoming : list string;
  outgoing : list string;
}.

Inductive EdgeType : Type :=
| belongs_to
| prerequisite
| outcome.

#[global] Instance EdgeType_eq_dec : EqDecision EdgeType.
Proof. solve_decision. Defined.

Inductive EdgeData : Type :=
| PrereqEdge (p : Prerequisite)
| OutcomeEdge (o : Outcome).

Record Edge : Type := {
  edge_id : string;
  source : string;
  target : string;
  edge_type : EdgeType;
  edge_data : option EdgeData;
}.

Record Graph : Type := {
  nodes : list (string * Node);
  edges : list (string * Edge);
}.

Definition push_outgoing (targetId : string) (n : Node) : Node :=
  {| node_id := node_id n; node_type := node_type n; label := label n;
     data := data n; incoming := incoming n;
     outgoing := outgoing n ++ [targetId] |}.

Definition push_incoming (sourceId : string) (n : Node) : Node :=
  {| node_id := node_id n; node_type := node_type n; label := label n;
     data := data n; incoming := incoming n ++ [sourceId];
     outgoing := outgoing n |}.

Definition addEdgeToNodes (ns : list (string * Node)) (sourceId targetId : string)
  : list (string * Node) :=
  map_update (map_update ns sourceId (push_outgoing targetId))
             targetId (push_incoming sourceId).

(** [edges.set(edgeId, e); this.addEdgeToNodes(nodes, s, t)] *)
Definition connect (g : Graph) (e : Edge) (s t : string) : Graph :=
  {| nodes := addEdgeToNodes (nodes g) s t;
     edges := map_set (edges g) (edge_id e) e |}.

Definition opt_list {A : Type} (o : option (list A)) : list A :=
  match o with
  | Some l => l
  | None => []
  end.

Definition edge_name (s t : string) : string := s +:+ "_to_" +:+ t.

Definition quest_edges (g : Graph) (q : Quest) : Graph :=
  let g1 :=
    match storyArcId q with
    | Some arc =>
        if truthy_str arc then
          connect g {| edge_id := edge_name (quest_id q) arc;
                       source := quest_id q; target := arc;
                       edge_type := belongs_to; edge_data := None |}
                  (quest_id q) arc
        else g
    | None => g
    end in
  let g2 :=
    fold_left
      (fun g prereq =>
         connect g {| edge_id := edge_name (prereq_id prereq) (quest_id q);
                      source := prereq_id prereq; target := quest_id q;
                      edge_type := prerequisite;
                      edge_data := Some (PrereqEdge prereq) |}
                 (prereq_id prereq) (quest_id q))
      (opt_list (prerequisites q)) g1 in
  fold_left
    (fun g o =>
       match nextQuestId o with
       | Some next =>
           if truthy_str next then
             connect g {| edge_id := edge_name (quest_id q) next;
                          source := quest_id q; target := next;
                          edge_type := outcome;
                          edge_data := Some (OutcomeEdge o) |}
                     (quest_id q) next
           else g
       | None => g
       end)
    (opt_list (outcomes q)) g2.

Definition dialogue_edges (g : Graph) (d : Dialogue) : Graph :=
  match questId d with
  | Some qid =>
      if truthy_str qid then
        connect g {| edge_id := edge_name (dialogue_id d) qid;
                     source := dialogue_id d; target := qid;
                     edge_type := belongs_to; edge_data := None |}
                (dialogue_id d) qid
      else g
  | None => g
  end.

Definition arc_node (a : StoryArc) : Node :=
  {| node_id := arc_id a; node_type := story_arc; label := arc_title a;
     data := ArcData a; incoming := []; outgoing := [] |}.
Definition quest_node (q : Quest) : Node :=
  {| node_id := quest_id q; node_type := quest; label := quest_title q;
     data := QuestData q; incoming := []; outgoing := [] |}.
Definition dialogue_node (d : Dialogue) : Node :=
  {| node_id := dialogue_id d; node_type := dialogue; label := dialogue_title d;
     data := DialogueData d; incoming := []; outgoing := [] |}.

Definition buildGraph (storyArcs : list StoryArc) (quests : list Quest)
           (dialogues : list Dialogue) : Graph :=
  let n1 := fold_left (fun ns a => map_set ns (arc_id a) (arc_node a)) storyArcs [] in
  let n2 := fold_left (fun ns q => map_set ns (quest_id q) (quest_node q)) quests n1 in
  let n3 := fold_left (fun ns d => map_set ns (dialogue_id d) (dialogue_node d)) dialogues n2 in
  let g0 := {| nodes := n3; edges := [] |} in
  let g1 := fold_left quest_edges quests g0 in
  fold_left dialogue_edges dialogues g1.

(** *** Check passes *)

Definition detectOrphanNodes (g : Graph) : list ValidationError :=
  flat_map
    (fun '(nodeId, node) =>
       if ((length (incoming node) =? 0) && (length (outgoing node) =? 0))%nat
       then [ {| err_type := orphan; nodeId := Some nodeId;
                 message := MsgNoConnections (node_type node) (label node);
                 severity := warning;
                 suggestions := Some [ "Connect this node to other story elements";
                                       "Add prerequisites or outcomes";
                                       "Consider removing if not needed" ] |} ]
       else [])
    (nodes g).

(** The fields of a [Quest] read through [node.data as Quest]: another
    kind of record has neither. *)
Definition data_prerequisites (d : NodeData) : option (list Prerequisite) :=
  match d with
  | QuestData q => prerequisites q
  | _ => None
  end.
Definition data_outcomes (d : NodeData) : option (list Outcome) :=
  match d with
  | QuestData q => outcomes q
  | _ => None
  end.

Definition detectBrokenChains (g : Graph) : list ValidationError :=
  flat_map
    (fun '(nodeId, node) =>
       if bool_decide (node_type node = quest) && (length (incoming node) =? 0)%nat
       then
         match data_prerequisites (data node) with
         | Some ps =>
             if (0 <? length ps)%nat
             then [ {| err_type := broken_chain; nodeId := Some nodeId;
                       message := MsgBrokenChain (label node);
                       severity := error;
                       suggestions := Some [ "Connect prerequisite quests to this quest";
                                             "Remove prerequisites if not needed";
                                             "Create the missing prerequisite quests" ] |} ]
             else []
         | None => []
         end
       else [])
    (nodes g).

Definition node_outgoing (ns : list (string * Node)) (nodeId : string) : list string :=
  match map_get ns nodeId with
  | Some node => outgoing node
  | None => []
  end.

(** A loop over [xs] whose body threads a state and may stop the
    enclosing function with [true]; [None] is an exhausted recursion
    budget. *)
Fixpoint for_some {St : Type} (body : string -> St -> option (bool * St))
         (xs : list string) (st : St) : option (bool * St) :=
  match xs with
  | [] => Some (false, st)
  | x :: xs' =>
      match body x st with
      | Some (true, st') => Some (true, st')
      | Some (false, st') => for_some body xs' st'
      | None => None
      end
  end.

(** A [forEach] whose callback threads a state. *)
Fixpoint for_each {St : Type} (body : string -> St -> option St)
         (xs : list string) (st : St) : option St :=
  match xs with
  | [] => Some st
  | x :: xs' =>
      match body x st with
      | Some st' => for_each body xs' st'
      | None => None
      end
  end.

(** [dfs] of [detectUnreachableNodes]; the state is [visited]. *)
Fixpoint dfs (fuel : nat) (ns : list (string * Node)) (nodeId : string)
         (visited : gset string) : option (gset string) :=
  match fuel with
  | O => None
  | S fuel' =>
      if decide (nodeId ∈ visited) then Some visited
      else for_each (dfs fuel' ns) (node_outgoing ns nodeId) ({[nodeId]} ∪ visited)
  end.

(** Every identifier a traversal can meet. *)
Definition ids (ns : list (string * Node)) : gset string :=
  list_to_set (map fst ns) ∪ list_to_set (flat_map (fun e => outgoing (snd e)) ns).

Definition budget (ns : list (string * Node)) : nat := S (size (ids ns)).

Definition detectUnreachableNodes (g : Graph) : option (list ValidationError) :=
  let startNodes :=
    filter (fun node => node_type node = story_arc ∧ length (incoming node) = 0%nat)
           (map snd (nodes g)) in
  match for_each (dfs (budget (nodes g)) (nodes g)) (map node_id startNodes) ∅ with
  | Some visited =>
      Some (flat_map
              (fun '(nodeId, node) =>
                 if decide (nodeId ∈ visited) then []
                 else [ {| err_type := unreachable; nodeId := Some nodeId;
                           message := MsgUnreachable (node_type node) (label node);
                           severity := error;
                           suggestions := Some [ "Add a connection from a story arc";
                                                 "Create a prerequisite relationship";
                                                 "Ensure there is a path from the beginning" ] |} ])
              (nodes g))
  | None => None
  end.

(** [visited] and [recursionStack] of [detectCircularDependencies]. *)
Record CycleState : Type := {
  visited : gset string;
  recursionStack : gset string;
}.

(** [hasCycle]: on [true] the function returns at once, leaving the nodes
    of the current path in [recursionStack]. *)
Fixpoint hasCycle (fuel : nat) (ns : list (string * Node)) (nodeId : string)
         (st : CycleState) : option (bool * CycleState) :=
  match fuel with
  | O => None
  | S fuel' =>
      if decide (nodeId ∈ recursionStack st) then Some (true, st)
      else if decide (nodeId ∈ visited st) then Some (false, st)
      else
        match for_some (hasCycle fuel' ns) (node_outgoing ns nodeId)
                       {| visited := {[nodeId]} ∪ visited st;
                          recursionStack := {[nodeId]} ∪ recursionStack st |} with
        | Some (true, st') => Some (true, st')
        | Some (false, st') =>
            Some (false, {| visited := visited st';
                            recursionStack := recursionStack st' ∖ {[nodeId]} |})
        | None => None
        end
  end.

Definition circular_error (nodeId : string) (node : Node) : ValidationError :=
  {| err_type := circular_dependency; nodeId := Some nodeId;
     message := MsgCircular (node_type node) (label node);
     severity := error;
     suggestions := Some [ "Remove one of the circular connections";
                           "Restructure the quest flow";
                           "Use conditional outcomes instead of direct cycles" ] |}.

(** The loop over the entries of [graph.nodes]; [visited] and
    [recursionStack] are shared by all its iterations.  Reading
    [node.type] of a missing node would throw, hence the inner [None]. *)
Fixpoint circular_loop (fuel : nat) (ns entries : list (string * Node))
         (st : CycleState) : option (list ValidationError) :=
  match entries with
  | [] => Some []
  | (nodeId, _) :: rest =>
      if decide (nodeId ∈ visited st) then circular_loop fuel ns rest st
      else
        match hasCycle fuel ns nodeId st with
        | Some (true, st') =>
            match map_get ns nodeId with
            | Some node =>
                match circular_loop fuel ns rest st' with
                | Some errs => Some (circular_error nodeId node :: errs)
                | None => None
                end
            | None => None
            end
        | Some (false, st') => circular_loop fuel ns rest st'
        | None => None
        end
  end.

Definition detectCircularDependencies (g : Graph) : option (list ValidationError) :=
  circular_loop (budget (nodes g)) (nodes g) (nodes g)
                {| visited := ∅; recursionStack := ∅ |}.

Definition validatePrerequisites (g : Graph) : list ValidationError :=
  flat_map
    (fun '(nodeId, node) =>
       if bool_decide (node_type node = quest) then
         flat_map
           (fun prereq =>
              if map_has (nodes g) (prereq_id prereq) then []
              else [ {| err_type := missing_prerequisites; nodeId := Some nodeId;
                        message := MsgMissingPrerequisite (label node);
                        severity := error;
                        suggestions := Some [ "Create the missing prerequisite quest";
                                              "Remove the invalid prerequisite reference";
                                              "Update the prerequisite ID" ] |} ])
           (opt_list (data_prerequisites (data node)))
       else [])
    (nodes g).

Definition validTypes : list string := ["stat"; "inventory"; "flag"; "quest"].
Definition validOperators : list string :=
  ["eq"; "gt"; "lt"; "gte"; "lte"; "ne"; "has"; "not_has"].

Definition str_includes (l : list string) (s : string) : bool :=
  bool_decide (s ∈ l).

Definition isValidCondition (c : Condition) : bool :=
  match cond_type c, cond_operator c with
  | Some ty, Some op =>
      if negb (truthy_str ty) || negb (truthy_str op) || negb (truthy_opt (cond_value c))
      then false
      else if negb (str_includes validTypes ty) then false
      else if negb (str_includes validOperators op) then false
      else if bool_decide (ty = "stat") && str_includes ["has"; "not_has"] op then false
      else true
  | _, _ => false
  end.

Definition condition_suggestions : option (list string) :=
  Some [ "Check condition syntax and values";
         "Ensure all referenced items/stats exist";
         "Validate condition operators" ].

Definition condition_errors (nodeId : string) (msg : Message) (cs : option (list Condition))
  : list ValidationError :=
  flat_map
    (fun c =>
       if isValidCondition c then []
       else [ {| err_type := invalid_condition; nodeId := Some nodeId;
                 message := msg; severity := error;
                 suggestions := condition_suggestions |} ])
    (opt_list cs).

Definition validateConditions (g : Graph) : list ValidationError :=
  flat_map
    (fun '(nodeId, node) =>
       if bool_decide (node_type node = quest) then
         flat_map
           (fun prereq =>
              condition_errors nodeId (MsgInvalidPrerequisiteCondition (label node))
                               (prereq_conditions prereq))
           (opt_list (data_prerequisites (data node)))
         ++
         flat_map
           (fun o =>
              condition_errors nodeId (MsgInvalidOutcomeCondition (label node))
                               (outcome_conditions o))
           (opt_list (data_outcomes (data node)))
       else [])
    (nodes g).

(** *** Quest-local checks *)

Definition quest_finding (q : Quest) (t : ErrorType) (m : Message) (s : Severity)
  : ValidationError :=
  {| err_type := t; nodeId := Some (quest_id q); message := m; severity := s;
     suggestions := None |}.

Definition totalProbability (os : list Outcome) : num :=
  fold_left (fun sum o => add sum (or_zero (probability o))) os (of_Z 0).

Definition tolerance : num := Num (Q2Qc (1 # 100)).

Definition validateQuestStructure (q : Quest) : list ValidationError :=
  (if blank (quest_title q)
   then [quest_finding q broken_chain MsgTitleRequired error] else [])
  ++ (if blank (quest_description q)
      then [quest_finding q broken_chain MsgDescriptionRequired error] else [])
  ++ (match outcomes q with
      | Some (_ :: _) => []
      | _ => [quest_finding q broken_chain MsgNoOutcome error]
      end)
  ++ (match outcomes q with
      | Some ((_ :: _) as os) =>
          if gt (abs (sub (totalProbability os) (of_Z 100))) tolerance
          then [quest_finding q broken_chain
                              (MsgProbabilitySum (totalProbability os)) warning]
          else []
      | _ => []
      end).

Definition validateQuestPrerequisites (q : Quest) : list ValidationError :=
  flat_map
    (fun prereq =>
       if truthy_str (prereq_id prereq) then []
       else [quest_finding q missing_prerequisites MsgPrerequisiteIdRequired error])
    (opt_list (prerequisites q)).

Definition validateQuestOutcomes (q : Quest) : list ValidationError :=
  concat
    (imap
       (fun index o =>
          (if blank (outcome_description o)
           then [quest_finding q broken_chain
                               (MsgOutcomeDescriptionRequired (index + 1)) error]
           else [])
          ++ (match probability o with
              | Some p =>
                  if lt p (of_Z 0) || gt p (of_Z 100)
                  then [quest_finding q broken_chain
                                      (MsgOutcomeProbabilityRange (index + 1)) error]
                  else []
              | None => []
              end))
       (opt_list (outcomes q))).

(** *** Reports *)

Definition has_severity (s : Severity) (e : ValidationError) : Prop :=
  severity e = s.

Definition has_type (t : ErrorType) (e : ValidationError) : Prop :=
  err_type e = t.

#[global] Instance has_severity_dec s e : Decision (has_severity s e).
Proof. unfold has_severity. apply _. Defined.
#[global] Instance has_type_dec t e : Decision (has_type t e).
Proof. unfold has_type. apply _. Defined.

(** The [warnings] argument is never read by the source. *)
Definition generateSummary (g : Graph) (errors warnings : list ValidationError)
  : Summary :=
  {| totalNodes := length (nodes g);
     totalEdges := length (edges g);
     orphanNodes := length (filter (has_type orphan) errors);
     unreachableNodes := length (filter (has_type unreachable) errors);
     brokenChains := length (filter (has_type broken_chain) errors);
     circularDependencies := length (filter (has_type circular_dependency) errors) |}.

(** The body of [validateStoryGraph] once the graph is built. *)
Definition validateGraph (g : Graph) : option ValidationResult :=
  let orphanErrors := detectOrphanNodes g in
  match detectUnreachableNodes g with
  | Some unreachableErrors =>
      let brokenChainErrors := detectBrokenChains g in
      match detectCircularDependencies g with
      | Some circularErrors =>
          let prerequisiteErrors := validatePrerequisites g in
          let conditionErrors := validateConditions g in
          let errors :=
            filter (has_severity error) orphanErrors
            ++ filter (has_severity error) unreachableErrors
            ++ filter (has_severity error) brokenChainErrors
            ++ filter (has_severity error) circularErrors
            ++ filter (has_severity error) prerequisiteErrors
            ++ filter (has_severity error) conditionErrors in
          let warnings :=
            filter (has_severity warning) orphanErrors
            ++ filter (has_severity warning) unreachableErrors
            ++ filter (has_severity warning) brokenChainErrors
            ++ filter (has_severity warning) circularErrors
            ++ filter (has_severity warning) prerequisiteErrors
            ++ filter (has_severity warning) conditionErrors in
          Some {| isValid := (length errors =? 0)%nat;
                  errors := errors;
                  warnings := warnings;
                  exportReady := (length errors =? 0)%nat && (length warnings <? 5)%nat;
                  summary := generateSummary g errors warnings |}
      | None => None
      end
  | None => None
  end.

(** The repositories are outside the embedding: their answers are the
    arguments. *)
Definition validateStoryGraph (storyArcs : list StoryArc) (quests : list Quest)
           (dialogues : list Dialogue) : option ValidationResult :=
  validateGraph (buildGraph storyArcs quests dialogues).

(** [found] is the answer of [questRepository.findOne]; [None] as a result
    is the thrown [Quest not found]. *)
Definition validateQuest (found : option Quest) : option ValidationResult :=
  match found with
  | None => None
  | Some q =>
      let questErrors := validateQuestStructure q in
      let prerequisiteErrors := validateQuestPrerequisites q in
      let outcomeErrors := validateQuestOutcomes q in
      let errors :=
        filter (has_severity error) questErrors
        ++ filter (has_severity error) prerequisiteErrors
        ++ filter (has_severity error) outcomeErrors in
      let warnings :=
        filter (has_severity warning) questErrors
        ++ filter (has_severity warning) prerequisiteErrors
        ++ filter (has_severity warning) outcomeErrors in
      Some {| isValid := (length errors =? 0)%nat;
              errors := errors;
              warnings := warnings;
              exportReady := (length errors =? 0)%nat;
              summary := {| totalNodes := 1;
                            totalEdges := length (opt_list (prerequisites q))
                                          + length (opt_list (outcomes q));
                            orphanNodes := 0; unreachableNodes := 0;
                            brokenChains := 0; circularDependencies := 0 |} |}
  end.

End Validation.

(** ** The simulation service ([simulation.service.ts]) *)

Module Simulation.
Import Js.

(** *** The runtime: [Math.random()], [Date.now()] and the conversion of a
    string to a number are supplied from outside; each call of the first
    two consumes one reading. *)
Record World : Type := {
  random : nat -> Qc;
  clock : nat -> Z;
  string_to_number : string -> num;
  tick : nat;
}.

Definition advance (w : World) : World :=
  {| random := random w; clock := clock w;
     string_to_number := string_to_number w; tick := S (tick w) |}.

Definition Math_random (w : World) : Qc * World := (random w (tick w), advance w).
Definition Date_now (w : World) : Z * World := (clock w (tick w), advance w).

(** *** Player state *)

Inductive QuestStatus : Type :=
| not_started
| in_progress
| completed
| failed.

#[global] Instance QuestStatus_eq_dec : EqDecision QuestStatus.
Proof. solve_decision. Defined.

Record QuestProgress : Type := {
  status : QuestStatus;
  progress : num;
  objectives : gmap string bool;
}.

(** The nested objects are dictionaries: an object received in a request
    may lack any of the fields its interface names. *)
Record PlayerState : Type := {
  stats : gmap string num;
  reputation : gmap string num;
  alignment : gmap string num;
  inventory : list string;
  flags : gmap string bool;
  quest_progress : gmap string QuestProgress;
  current_location : string;
  current_quest : option string;
  current_dialogue : option string;
}.

(** [Partial<PlayerState>]: every top-level field may be absent. *)
Record PartialPlayerState : Type := {
  partial_stats : option (gmap string num);
  partial_reputation : option (gmap string num);
  partial_alignment : option (gmap string num);
  partial_inventory : option (list string);
  partial_flags : option (gmap string bool);
  partial_quest_progress : option (gmap string QuestProgress);
  partial_current_location : option string;
  partial_current_quest : option string;
  partial_current_dialogue : option string;
}.

(** *** Records read from the repositories *)

Record Prerequisite : Type := {
  prereq_type : string;
  prereq_target : string;
  prereq_value : option value;
}.

Record Quest : Type := {
  quest_id : string;
  title : string;
  description : string;
  quest_type : string;
  prerequisites : option (list Prerequisite);
  difficulty : num;
  estimated_duration : option num;
}.

Record Character : Type := {
  name : string;
  faction : option string;
  personality_traits : option (list string);
}.

Record Dialogue : Type := {
  dialogue_id : string;
}.

(** *** Events and results *)

Record Rewards : Type := {
  reward_experience : option num;
  reward_gold : option num;
  reward_items : option (list string);
  reward_flags : option (gmap string bool);
}.

Record AlignmentChanges : Type := {
  good : num;
  neutral : num;
  evil : num;
}.

Inductive EventType : Type :=
| quest_start
| quest_complete
| reputation_change
| alignment_change.

Inductive EventSeverity : Type :=
| info
| success
| error.

Inductive EventDescription : Type :=
| StartedQuest (title : string)
| CompletedQuest (title : string)
| FailedQuest (title : string)
| ReputationChanged
| AlignmentChanged.

Inductive EventData : Type :=
| QuestData (quest_id quest_title : string) (rewards : option Rewards)
| ReputationData (changes : gmap string num)
| AlignmentData (changes : AlignmentChanges).

(** An event before [addEvent] stamps it. *)
Record EventBody : Type := {
  body_type : EventType;
  body_description : EventDescription;
  body_data : EventData;
  body_severity : EventSeverity;
}.

(** [event_id] holds the two readings interpolated into the identifier. *)
Record SimulationEvent : Type := {
  event_id : Z * Qc;
  timestamp : nat;
  event_type : EventType;
  event_description : EventDescription;
  event_data : EventData;
  event_severity : EventSeverity;
}.

Record SimulationRequest : Type := {
  project_id : string;
  story_arc_id : string;
  initial_state : option PartialPlayerState;
  player_name : option string;
  request_difficulty : option string;
  play_style : option string;
  max_duration : option num;
  random_seed : option num;
}.

Record Metadata : Type := {
  meta_player_name : option string;
  meta_difficulty : option string;
  meta_play_style : option string;
  meta_notes_duration : num;
}.

Record SimulationResult : Type := {
  result_id : string;
  result_project_id : string;
  result_story_arc_id : string;
  result_initial_state : PlayerState;
  final_state : PlayerState;
  events : list SimulationEvent;
  duration : num;
  completed_quests : list string;
  failed_quests : list string;
  total_experience_gained : num;
  reputation_changes : gmap string num;
  alignment_changes : AlignmentChanges;
  created_at : Z;
  metadata : Metadata;
}.

(** *** [initializePlayerState] *)

Definition defaultState : PlayerState :=
  {| stats := {[ "health" := of_Z 100; "mana" := of_Z 100; "experience" := of_Z 0;
                 "level" := of_Z 1; "gold" := of_Z 50 ]};
     reputation := {[ "neutral" := of_Z 0; "townsfolk" := of_Z 0;
                      "merchants" := of_Z 0; "guards" := of_Z 0 ]};
     alignment := {[ "good" := of_Z 0; "neutral" := of_Z 50; "evil" := of_Z 0 ]};
     inventory := [];
     flags := ∅;
     quest_progress := ∅;
     current_location := "town_square";
     current_quest := None;
     current_dialogue := None |}.

(** [{ ...a, ...b }] slot by slot: a slot present in [b] wins. *)
Definition spread {A : Type} (a : A) (b : option A) : A :=
  match b with
  | Some x => x
  | None => a
  end.

Definition spread_opt {A : Type} (a b : option A) : option A :=
  match b with
  | Some x => Some x
  | None => a
  end.

Definition initializePlayerState (partialState : option PartialPlayerState) : PlayerState :=
  match partialState with
  | None => defaultState
  | Some p =>
      {| stats := spread (stats defaultState) (partial_stats p);
         reputation := spread (reputation defaultState) (partial_reputation p);
         alignment := spread (alignment defaultState) (partial_alignment p);
         inventory := spread (inventory defaultState) (partial_inventory p);
         flags := spread (flags defaultState) (partial_flags p);
         quest_progress := spread (quest_progress defaultState) (partial_quest_progress p);
         current_location := spread (current_location defaultState) (partial_current_location p);
         current_quest := spread_opt (current_quest defaultState) (partial_current_quest p);
         current_dialogue :=
           spread_opt (current_dialogue defaultState) (partial_current_dialogue p) |}
  end.

(** *** Field updates of a state object *)

Definition with_stats (s : PlayerState) (v : gmap string num) : PlayerState :=
  {| stats := v; reputation := reputation s; alignment := alignment s;
     inventory := inventory s; flags := flags s; quest_progress := quest_progress s;
     current_location := current_location s; current_quest := current_quest s;
     current_dialogue := current_dialogue s |}.

Definition with_reputation (s : PlayerState) (v : gmap string num) : PlayerState :=
  {| stats := stats s; reputation := v; alignment := alignment s;
     inventory := inventory s; flags := flags s; quest_progress := quest_progress s;
     current_location := current_location s; current_quest := current_quest s;
     current_dialogue := current_dialogue s |}.

Definition with_alignment (s : PlayerState) (v : gmap string num) : PlayerState :=
  {| stats := stats s; reputation := reputation s; alignment := v;
     inventory := inventory s; flags := flags s; quest_progress := quest_progress s;
     current_location := current_location s; current_quest := current_quest s;
     current_dialogue := current_dialogue s |}.

Definition with_inventory (s : PlayerState) (v : list string) : PlayerState :=
  {| stats := stats s; reputation := reputation s; alignment := alignment s;
     inventory := v; flags := flags s; quest_progress := quest_progress s;
     current_location := current_location s; current_quest := current_quest s;
     current_dialogue := current_dialogue s |}.

Definition with_flags (s : PlayerState) (v : gmap string bool) : PlayerState :=
  {| stats := stats s; reputation := reputation s; alignment := alignment s;
     inventory := inventory s; flags := v; quest_progress := quest_progress s;
     current_location := current_location s; current_quest := current_quest s;
     current_dialogue := current_dialogue s |}.

Definition with_quest_progress (s : PlayerState) (v : gmap string QuestProgress)
  : PlayerState :=
  {| stats := stats s; reputation := reputation s; alignment := alignment s;
     inventory := inventory s; flags := flags s; quest_progress := v;
     current_location := current_location s; current_quest := current_quest s;
     current_dialogue := current_dialogue s |}.

Definition with_current_quest (s : PlayerState) (v : option string) : PlayerState :=
  {| stats := stats s; reputation := reputation s; alignment := alignment s;
     inventory := inventory s; flags := flags s; quest_progress := quest_progress s;
     current_location := current_location s; current_quest := v;
     current_dialogue := current_dialogue s |}.

(** *** Quest availability and selection *)

(** The operand of a relational comparison, converted to a number. *)
Definition to_number (w : World) (v : option value) : num :=
  match v with
  | None => NaN
  | Some VNull => of_Z 0
  | Some (VBool b) => of_Z (if b then 1 else 0)
  | Some (VNum n) => n
  | Some (VStr s) => string_to_number w s
  | Some VObj => NaN
  end.

(** [state.flags[target] === value] *)
Definition flag_strict_eq (f : option bool) (v : option value) : bool :=
  match f, v with
  | None, None => true
  | Some b, Some (VBool b') => bool_decide (b = b')
  | _, _ => false
  end.

Definition prerequisite_holds (w : World) (state : PlayerState) (prereq : Prerequisite)
  : bool :=
  if decide (prereq_type prereq = "quest") then
    match quest_progress state !! prereq_target prereq with
    | Some p => bool_decide (status p = completed)
    | None => false
    end
  else if decide (prereq_type prereq = "stat") then
    ge (get_num (stats state) (prereq_target prereq)) (to_number w (prereq_value prereq))
  else if decide (prereq_type prereq = "flag") then
    flag_strict_eq (flags state !! prereq_target prereq) (prereq_value prereq)
  else if decide (prereq_type prereq = "reputation") then
    ge (get_num (reputation state) (prereq_target prereq))
       (to_number w (prereq_value prereq))
  else true.

(** [Array.prototype.filter] with a callback that may throw: [None] is
    the exception. *)
Fixpoint filter_throwing {A : Type} (f : A -> option bool) (l : list A)
  : option (list A) :=
  match l with
  | [] => Some []
  | x :: l' =>
      match f x with
      | Some b =>
          match filter_throwing f l' with
          | Some r => Some (if b then x :: r else r)
          | None => None
          end
      | None => None
      end
  end.

(** Reading [progress.status] of a quest without a progress entry throws a
    [TypeError]. *)
Definition findAvailableQuests (w : World) (quests : list Quest) (state : PlayerState)
  : option (list Quest) :=
  filter_throwing
    (fun quest =>
       match quest_progress state !! quest_id quest with
       | Some p =>
           if bool_decide (status p = not_started) then
             match prerequisites quest with
             | Some ((_ :: _) as ps) => Some (forallb (prerequisite_holds w state) ps)
             | _ => Some true
             end
           else Some false
       | None => None
       end)
    quests.

Definition prefer (ty : string) (availableQuests : list Quest) (first : Quest) : Quest :=
  match List.find (fun q => bool_decide (quest_type q = ty)) availableQuests with
  | Some q => q
  | None => first
  end.

Definition selectNextQuest (w : World) (availableQuests : list Quest)
           (state : PlayerState) (playStyle : option string) : option Quest * World :=
  match availableQuests with
  | [] => (None, w)
  | first :: _ =>
      if decide (playStyle = Some "aggressive") then
        (Some (prefer "combat" availableQuests first), w)
      else if decide (playStyle = Some "diplomatic") then
        (Some (prefer "dialogue" availableQuests first), w)
      else if decide (playStyle = Some "exploration") then
        (Some (prefer "exploration" availableQuests first), w)
      else
        let '(r, w') := Math_random w in
        (nth_error availableQuests
                   (Z.to_nat (Qfloor (r * Qc_of_Z (Z.of_nat (length availableQuests)))%Qc)),
         w')
  end.

(** *** Resolving a quest *)

Record QuestResult : Type := {
  result_completed : bool;
  result_duration : num;
  result_rewards : Rewards;
  result_choices : list string;
}.

Definition generateQuestRewards (quest : Quest) (completed : bool) : Rewards :=
  if negb completed then
    {| reward_experience := None; reward_gold := None;
       reward_items := None; reward_flags := None |}
  else
    let experience := mul (difficulty quest) (of_Z 10) in
    let gold := mul (difficulty quest) (of_Z 5) in
    if decide (quest_type quest = "combat") then
      {| reward_experience := Some (mul experience (Num (Q2Qc (3 # 2))));
         reward_gold := Some gold;
         reward_items := Some ["weapon_upgrade"]; reward_flags := Some ∅ |}
    else if decide (quest_type quest = "dialogue") then
      {| reward_experience := Some experience;
         reward_gold := Some (mul gold (Num (Q2Qc (6 # 5))));
         reward_items := Some [];
         reward_flags := Some {[ "diplomatic_skill" := true ]} |}
    else if decide (quest_type quest = "exploration") then
      {| reward_experience := Some (mul experience (Num (Q2Qc (13 # 10))));
         reward_gold := Some gold;
         reward_items := Some ["map_fragment"]; reward_flags := Some ∅ |}
    else
      {| reward_experience := Some experience; reward_gold := Some gold;
         reward_items := Some []; reward_flags := Some ∅ |}.

Definition generatePlayerChoices (quest : Quest) (state : PlayerState) : list string :=
  if decide (quest_type quest = "combat") then
    (if gt (get_num (stats state) "health") (of_Z 50) then ["fight"] else [])
    ++ (if gt (get_num (stats state) "level") (of_Z 2) then ["defend"] else [])
    ++ ["flee"]
  else if decide (quest_type quest = "dialogue") then
    ["agree"; "disagree"]
    ++ (if gt (get_num (stats state) "level") (of_Z 3) then ["negotiate"] else [])
  else if decide (quest_type quest = "exploration") then
    ["explore"; "search"]
    ++ (if gt (get_num (stats state) "level") (of_Z 1) then ["investigate"] else [])
  else ["proceed"].

(** [a || d] on an optional number. *)
Definition or_default (a : option num) (d : num) : num :=
  match a with
  | Some n => if truthy_num n then n else d
  | None => d
  end.

Definition simulateQuest (w : World) (quest : Quest) (state : PlayerState)
  : QuestResult * World :=
  let baseSuccessRate := Q2Qc (7 # 10) in
  let rate1 :=
    if bool_decide (quest_type quest = "combat")
       && gt (get_num (stats state) "health") (of_Z 80)
    then (baseSuccessRate + Q2Qc (1 # 10))%Qc else baseSuccessRate in
  let successRate :=
    if bool_decide (quest_type quest = "dialogue")
       && gt (get_num (stats state) "level") (of_Z 3)
    then (rate1 + Q2Qc (1 # 10))%Qc else rate1 in
  let '(r, w') := Math_random w in
  let completed := bool_decide (r < successRate)%Qc in
  ({| result_completed := completed;
      result_duration := or_default (estimated_duration quest) (of_Z 300);
      result_rewards := generateQuestRewards quest completed;
      result_choices := generatePlayerChoices quest state |}, w').

Definition add_to (o : gmap string num) (k : string) (n : num) : gmap string num :=
  <[k := add (get_num o k) n]> o.

Definition updateStateFromQuest (state : PlayerState) (quest : Quest)
           (result : QuestResult) : PlayerState :=
  let s1 :=
    if result_completed result then
      let s := with_quest_progress state
                 (<[quest_id quest := {| status := completed; progress := of_Z 100;
                                         objectives := ∅ |}]> (quest_progress state)) in
      let rewards := result_rewards result in
      let s :=
        match reward_experience rewards with
        | Some x => if truthy_num x then with_stats s (add_to (stats s) "experience" x)
                    else s
        | None => s
        end in
      let s :=
        match reward_gold rewards with
        | Some x => if truthy_num x then with_stats s (add_to (stats s) "gold" x) else s
        | None => s
        end in
      let s :=
        match reward_items rewards with
        | Some items => with_inventory s (inventory s ++ items)
        | None => s
        end in
      match reward_flags rewards with
      | Some fl => with_flags s (fl ∪ flags s)
      | None => s
      end
    else
      with_quest_progress state
        (<[quest_id quest := {| status := failed; progress := of_Z 0;
                                objectives := ∅ |}]> (quest_progress state)) in
  let newLevel :=
    add (floor (div (get_num (stats s1) "experience") (of_Z 100))) (of_Z 1) in
  if gt newLevel (get_num (stats s1) "level") then
    let st1 := <["level" := newLevel]> (stats s1) in
    let st2 := <["health" := min (of_Z 100) (add (get_num st1 "health") (of_Z 10))]> st1 in
    let st3 := <["mana" := min (of_Z 100) (add (get_num st2 "mana") (of_Z 10))]> st2 in
    with_stats s1 st3
  else s1.

(** *** Reputation and alignment *)

Definition involved (quest : Quest) (char : Character) : bool :=
  includes (toLowerCase (title quest)) (toLowerCase (name char))
  || includes (toLowerCase (description quest)) (toLowerCase (name char)).

Definition or_string (o : option string) (d : string) : string :=
  match o with
  | Some s => if truthy_str s then s else d
  | None => d
  end.

Definition calculateReputationChanges (quest : Quest) (result : QuestResult)
           (characters : list Character) : gmap string num :=
  if negb (result_completed result) then ∅
  else
    fold_left
      (fun changes character =>
         let faction := or_string (faction character) "neutral" in
         let baseChange := of_Z 5 in
         let personalityTraits := Validation.opt_list (personality_traits character) in
         let multiplier :=
           if bool_decide ("friendly" ∈ personalityTraits) then Num (Q2Qc (6 # 5))
           else if bool_decide ("hostile" ∈ personalityTraits) then Num (Q2Qc (4 # 5))
           else of_Z 1 in
         <[faction := round (mul baseChange multiplier)]> changes)
      (List.filter (involved quest) characters) ∅.

Definition has_choice (result : QuestResult) (c : string) : bool :=
  bool_decide (c ∈ result_choices result).

Definition calculateAlignmentChanges (quest : Quest) (result : QuestResult)
  : AlignmentChanges :=
  let zero := of_Z 0 in
  if negb (result_completed result) then
    {| good := zero; neutral := zero; evil := zero |}
  else if decide (quest_type quest = "combat") then
    if has_choice result "defend" || has_choice result "protect" then
      {| good := of_Z 5; neutral := zero; evil := zero |}
    else if has_choice result "attack" || has_choice result "kill" then
      {| good := zero; neutral := zero; evil := of_Z 3 |}
    else {| good := zero; neutral := zero; evil := zero |}
  else if decide (quest_type quest = "dialogue") then
    if has_choice result "help" || has_choice result "agree" then
      {| good := of_Z 3; neutral := of_Z 2; evil := zero |}
    else {| good := zero; neutral := of_Z 2; evil := zero |}
  else if decide (quest_type quest = "exploration") then
    {| good := zero; neutral := of_Z 1; evil := zero |}
  else {| good := zero; neutral := of_Z 1; evil := zero |}.

Definition clamp_faction (rep : gmap string num) (faction : string) (change : num)
  : gmap string num :=
  let rep1 := <[faction := add (or_zero (rep !! faction)) change]> rep in
  <[faction := max (of_Z (-100)) (min (of_Z 100) (get_num rep1 faction))]> rep1.

(** The entries of [changes] have distinct keys and each touches its own
    faction only, so the order of the traversal is immaterial. *)
Definition applyReputationChanges (state : PlayerState) (changes : gmap string num)
  : PlayerState :=
  with_reputation state
    (map_fold (fun faction change rep => clamp_faction rep faction change)
              (reputation state) changes).

Definition alignment_total (a : gmap string num) : num :=
  add (add (get_num a "good") (get_num a "neutral")) (get_num a "evil").

Definition applyAlignmentChanges (state : PlayerState) (changes : AlignmentChanges)
  : PlayerState :=
  let a1 := add_to (alignment state) "good" (good changes) in
  let a2 := add_to a1 "neutral" (neutral changes) in
  let a3 := add_to a2 "evil" (evil changes) in
  let total := alignment_total a3 in
  if gt total (of_Z 0) then
    let a4 := <["good" := round (mul (div (get_num a3 "good") total) (of_Z 100))]> a3 in
    let a5 := <["neutral" := round (mul (div (get_num a4 "neutral") total) (of_Z 100))]> a4 in
    let a6 := <["evil" := sub (sub (of_Z 100) (get_num a5 "good")) (get_num a5 "neutral")]> a5 in
    with_alignment state a6
  else with_alignment state a3.

(** *** The simulation loop *)

Definition addEvent (w : World) (events : list SimulationEvent) (event : EventBody)
  : list SimulationEvent * World :=
  let '(now, w1) := Date_now w in
  let '(r, w2) := Math_random w1 in
  (events ++ [ {| event_id := (now, r);
                  timestamp := length events * 30;
                  event_type := body_type event;
                  event_description := body_description event;
                  event_data := body_data event;
                  event_severity := body_severity event |} ],
   w2).

(** The local variables of [runSimulation] that the loop changes. *)
Record LoopState : Type := {
  currentState : PlayerState;
  currentTime : num;
  loop_events : list SimulationEvent;
  completedQuests : list string;
  failedQuests : list string;
}.

Definition set_in_progress (qp : gmap string QuestProgress) (k : string)
  : gmap string QuestProgress :=
  alter (fun p => {| status := in_progress; progress := progress p;
                     objectives := objectives p |}) k qp.

(** How a pass through the body of the [while] loop ends. *)
Inductive Pass : Type :=
| Break
| Next (ls : LoopState) (w : World).

(** One pass through the body of the [while] loop, after its guard;
    [None] is a thrown exception. *)
Definition loop_body (quests : list Quest) (characters : list Character)
           (request : SimulationRequest) (ls : LoopState) (w : World)
  : option Pass :=
  match findAvailableQuests w quests (currentState ls) with
  | None => None
  | Some availableQuests =>
  if (length availableQuests =? 0)%nat then Some Break
  else
    match selectNextQuest w availableQuests (currentState ls) (play_style request) with
    | (None, _) => Some Break
    | (Some selectedQuest, w1) =>
        let '(events1, w2) :=
          addEvent w1 (loop_events ls)
            {| body_type := quest_start;
               body_description := StartedQuest (title selectedQuest);
               body_data := QuestData (quest_id selectedQuest) (title selectedQuest) None;
               body_severity := info |} in
        let state1 :=
          with_current_quest
            (with_quest_progress (currentState ls)
               (set_in_progress (quest_progress (currentState ls)) (quest_id selectedQuest)))
            (Some (quest_id selectedQuest)) in
        let '(questResult, w3) := simulateQuest w2 selectedQuest state1 in
        let state2 := updateStateFromQuest state1 selectedQuest questResult in
        let '(events2, w4) :=
          if result_completed questResult then
            addEvent w3 events1
              {| body_type := quest_complete;
                 body_description := CompletedQuest (title selectedQuest);
                 body_data := QuestData (quest_id selectedQuest) (title selectedQuest)
                                        (Some (result_rewards questResult));
                 body_severity := success |}
          else
            addEvent w3 events1
              {| body_type := quest_complete;
                 body_description := FailedQuest (title selectedQuest);
                 body_data := QuestData (quest_id selectedQuest) (title selectedQuest) None;
                 body_severity := error |} in
        let reputationChanges :=
          calculateReputationChanges selectedQuest questResult characters in
        let alignmentChanges := calculateAlignmentChanges selectedQuest questResult in
        let state3 := applyReputationChanges state2 reputationChanges in
        let state4 := applyAlignmentChanges state3 alignmentChanges in
        let '(events3, w5) :=
          if (0 <? size reputationChanges)%nat then
            addEvent w4 events2
              {| body_type := reputation_change; body_description := ReputationChanged;
                 body_data := ReputationData reputationChanges; body_severity := info |}
          else (events2, w4) in
        let '(events4, w6) :=
          if strict_ne (good alignmentChanges) (of_Z 0)
             || strict_ne (neutral alignmentChanges) (of_Z 0)
             || strict_ne (evil alignmentChanges) (of_Z 0)
          then
            addEvent w5 events3
              {| body_type := alignment_change; body_description := AlignmentChanged;
                 body_data := AlignmentData alignmentChanges; body_severity := info |}
          else (events3, w5) in
        Some (Next {| currentState := state4;
                      currentTime := add (currentTime ls) (result_duration questResult);
                      loop_events := events4;
                      completedQuests :=
                        if result_completed questResult
                        then completedQuests ls ++ [quest_id selectedQuest]
                        else completedQuests ls;
                      failedQuests :=
                        if result_completed questResult then failedQuests ls
                        else failedQuests ls ++ [quest_id selectedQuest] |}
                   w6)
    end
  end.

(** [(request.max_duration || 60) * 60] *)
Definition time_budget (request : SimulationRequest) : num :=
  mul (or_default (max_duration request) (of_Z 60)) (of_Z 60).

(** The [while] loop; [fuel] bounds the number of passes.  [None] is an
    exhausted [fuel] or a thrown exception. *)
Fixpoint simulation_loop (fuel : nat) (quests : list Quest) (characters : list Character)
         (request : SimulationRequest) (ls : LoopState) (w : World)
  : option (LoopState * World) :=
  match fuel with
  | O => None
  | S fuel' =>
      if lt (currentTime ls) (time_budget request) then
        match loop_body quests characters request ls w with
        | Some (Next ls' w') => simulation_loop fuel' quests characters request ls' w'
        | Some Break => Some (ls, w)
        | None => None
        end
      else Some (ls, w)
  end.

(** [{ ...state }] copies the top-level slots only: the copy and the
    original share every nested object.  [initialState] and every later
    [currentState] of a run therefore hold the same [stats], [reputation],
    [alignment], [inventory], [flags] and [quest_progress] objects, and
    differ in their own scalar slots at most.  [shared_view own heap] is the
    object [own] as it reads once the shared objects have reached their
    contents in [heap]. *)
Definition shared_view (own heap : PlayerState) : PlayerState :=
  {| stats := stats heap; reputation := reputation heap; alignment := alignment heap;
     inventory := inventory heap; flags := flags heap;
     quest_progress := quest_progress heap;
     current_location := current_location own; current_quest := current_quest own;
     current_dialogue := current_dialogue own |}.

Definition init_quest_progress (quests : list Quest) (qp : gmap string QuestProgress)
  : gmap string QuestProgress :=
  fold_left
    (fun qp quest =>
       <[quest_id quest := {| status := not_started; progress := of_Z 0;
                              objectives := ∅ |}]> qp)
    quests qp.

Definition final_reputation_changes (current initial : PlayerState) : gmap string num :=
  map_imap
    (fun faction v =>
       let change := sub v (get_num (reputation initial) faction) in
       if strict_ne change (of_Z 0) then Some change else None)
    (reputation current).

(** The local variables of [runSimulation] when it reaches its loop. *)
Definition loop_entry (initialState : PlayerState) (quests : list Quest) : LoopState :=
  {| currentState :=
       with_quest_progress initialState
         (init_quest_progress quests (quest_progress initialState));
     currentTime := of_Z 0;
     loop_events := []; completedQuests := []; failedQuests := [] |}.

Definition runSimulation (w : World) (initialState : PlayerState) (quests : list Quest)
           (dialogues : list Dialogue) (characters : list Character)
           (request : SimulationRequest) : option (SimulationResult * World) :=
  let '(startTime, w0) := Date_now w in
  match simulation_loop (S (length quests)) quests characters request
                        (loop_entry initialState quests) w0 with
  | None => None
  | Some (ls, w1) =>
      let '(endTime, w2) := Date_now w1 in
      let duration := div (of_Z (endTime - startTime)) (of_Z 1000) in
      let current := currentState ls in
      let initial := shared_view initialState current in
      let '(createdAt, w3) := Date_now w2 in
      Some ({| result_id := EmptyString;
               result_project_id := project_id request;
               result_story_arc_id := story_arc_id request;
               result_initial_state := initial;
               final_state := current;
               events := loop_events ls;
               duration := duration;
               completed_quests := completedQuests ls;
               failed_quests := failedQuests ls;
               total_experience_gained :=
                 sub (get_num (stats current) "experience")
                     (get_num (stats initial) "experience");
               reputation_changes := final_reputation_changes current initial;
               alignment_changes :=
                 {| good := sub (get_num (alignment current) "good")
                                (get_num (alignment initial) "good");
                    neutral := sub (get_num (alignment current) "neutral")
                                   (get_num (alignment initial) "neutral");
                    evil := sub (get_num (alignment current) "evil")
                                (get_num (alignment initial) "evil") |};
               created_at := createdAt;
               metadata := {| meta_player_name := player_name request;
                              meta_difficulty := request_difficulty request;
                              meta_play_style := play_style request;
                              meta_notes_duration := duration |} |},
            w3)
  end.

(** [createSimulation] without its persistence: the repositories' answers
    are arguments, and the stored row's identifier [saved_id] replaces the
    empty one. *)
Definition createSimulation (w : World) (request : SimulationRequest)
           (quests : list Quest) (dialogues : list Dialogue)
           (characters : list Character) (saved_id : string)
  : option (SimulationResult * World) :=
  let '(_, w0) := Date_now w in
  let initialState := initializePlayerState (initial_state request) in
  match runSimulation w0 initialState quests dialogues characters request with
  | Some (r, w1) =>
      Some ({| result_id := saved_id;
               result_project_id := result_project_id r;
               result_story_arc_id := result_story_arc_id r;
               result_initial_state := result_initial_state r;
               final_state := final_state r;
               events := events r;
               duration := duration r;
               completed_quests := completed_quests r;
               failed_quests := failed_quests r;
               total_experience_gained := total_experience_gained r;
               reputation_changes := reputation_changes r;
               alignment_changes := alignment_changes r;
               created_at := created_at r;
               metadata := metadata r |}, w1)
  | None => None
  end.

End Simulation.

(** ** Notions used by the statements *)

Module Spec.
Import Js Validation.

(** The directed adjacency of a graph: [v] is listed in the [outgoing]
    array of the node stored under [u]. *)
Definition edge (ns : list (string * Node)) (u v : string) : Prop :=
  v ∈ node_outgoing ns u.

(** A cycle: a non-empty path from a node back to itself. *)
Definition has_cycle (ns : list (string * Node)) : Prop :=
  ∃ x, tc (edge ns) x x.

(** The finished nodes of the cycle search: visited and off the stack. *)
Definition black (st : CycleState) : gset string :=
  visited st ∖ recursionStack st.

Definition closed (ns : list (string * Node)) (B : gset string) : Prop :=
  ∀ u v, u ∈ B → edge ns u v → v ∈ B.

Definition acyclic_on (ns : list (string * Node)) (B : gset string) : Prop :=
  ∀ u, u ∈ B → ¬ tc (edge ns) u u.

Definition finished_ok (ns : list (string * Node)) (st : CycleState) : Prop :=
  closed ns (black st) ∧ acyclic_on ns (black st).

(** A finding of a given category on a given node. *)
Definition reports (t : ErrorType) (n : string) (l : list ValidationError) : Prop :=
  Exists (fun e => err_type e = t ∧ nodeId e = Some n) l.

#[global] Instance reports_dec t n l : Decision (reports t n l).
Proof. unfold reports. apply _. Defined.

(** The finding about the sum of the outcome probabilities. *)
Definition is_probability_finding (e : ValidationError) : Prop :=
  match message e with
  | MsgProbabilitySum _ => True
  | _ => False
  end.

#[global] Instance is_probability_finding_dec e : Decision (is_probability_finding e).
Proof. unfold is_probability_finding. destruct (message e); apply _. Defined.


(** All the findings of a pass have one category and one severity, and
    none is about the sum of the probabilities. *)
Definition typed (t : ErrorType) (s : Severity) (l : list ValidationError) : Prop :=
  Forall (fun e => err_type e = t ∧ severity e = s ∧ ¬ is_probability_finding e) l.

(** The report of whole-graph validation, given the findings of its two
    traversals. *)
Definition graph_report (g : Graph) (unreachableErrors circularErrors : list ValidationError)
  : ValidationResult :=
  let errors :=
    unreachableErrors ++ detectBrokenChains g ++ circularErrors
    ++ validatePrerequisites g ++ validateConditions g in
  let warnings := detectOrphanNodes g in
  {| isValid := (length errors =? 0)%nat;
     errors := errors;
     warnings := warnings;
     exportReady := (length errors =? 0)%nat && (length warnings <? 5)%nat;
     summary := generateSummary g errors warnings |}.

(** The number of findings of a category. *)
Definition count_type (t : ErrorType) (l : list ValidationError) : nat :=
  length (filter (has_type t) l).

(** The prerequisites a node declares. *)
Definition declared (node : Node) : list Prerequisite :=
  opt_list (data_prerequisites (data node)).

(** An edge of kind [prerequisite] into [k] among the edges of the graph. *)
Definition prerequisite_edge_into (g : Graph) (k : string) : Prop :=
  Exists (fun e => edge_type e.2 = prerequisite ∧ target e.2 = k) (edges g).

#[global] Instance prerequisite_edge_into_dec g k : Decision (prerequisite_edge_into g k).
Proof. unfold prerequisite_edge_into. apply _. Defined.

(** A quest node stored under [k] that declares a prerequisite. *)
Definition quest_with_prerequisites (g : Graph) (k : string) : Prop :=
  Exists (fun e => e.1 = k ∧ node_type e.2 = quest ∧ (0 < length (declared e.2))%nat)
         (nodes g).

#[global] Instance quest_with_prerequisites_dec g k : Decision (quest_with_prerequisites g k).
Proof. unfold quest_with_prerequisites. apply _. Defined.

(** The [incoming] array of the node stored under [k]. *)
Definition node_incoming (ns : list (string * Node)) (k : string) : list string :=
  match map_get ns k with
  | Some node => incoming node
  | None => []
  end.

(** What the wiring of edges does to the nodes: the keys and the records
    stay, the [incoming] arrays only grow. *)
Definition grows (ns ns' : list (string * Node)) : Prop :=
  map fst ns' = map fst ns ∧
  (∀ k, data <$> map_get ns' k = data <$> map_get ns k) ∧
  (∀ k, (length (node_incoming ns k) ≤ length (node_incoming ns' k))%nat).

(** The nodes that carry a quest carry one of [qs], under its identifier. *)
Definition quests_from (qs : list Quest) (ns : list (string * Node)) : Prop :=
  NoDup (map fst ns) ∧
  ∀ k node q, map_get ns k = Some node → data node = QuestData q →
              q ∈ qs ∧ quest_id q = k.

(** The conditions of a node: those of its prerequisites, then those of
    its outcomes. *)
Definition conditions_of (node : Node) : list Condition :=
  flat_map (fun p => opt_list (prereq_conditions p))
           (opt_list (data_prerequisites (data node)))
  ++ flat_map (fun o => opt_list (outcome_conditions o))
              (opt_list (data_outcomes (data node))).






(** Within 0.01 of 100. *)
Definition within_tolerance (s : Qc) : Prop :=
  (Q2Qc (9999 # 100) <= s)%Qc ∧ (s <= Q2Qc (10001 # 100))%Qc.

#[global] Instance within_tolerance_dec s : Decision (within_tolerance s).
Proof. unfold within_tolerance. apply _. Defined.

End Spec.

Module SimulationSpec.
Import Js Simulation.

(** A reputation value within [-100, 100]. *)
Definition in_range (n : num) : Prop :=
  match n with
  | Num q => (Q2Qc (inject_Z (-100)) <= q)%Qc ∧ (q <= Q2Qc (inject_Z 100))%Qc
  | NaN => False
  end.

#[global] Instance in_range_dec n : Decision (in_range n).
Proof. destruct n; simpl; apply _. Defined.

Definition all_in_range (rep : gmap string num) : Prop :=
  map_Forall (fun _ v => in_range v) rep.

#[global] Instance all_in_range_dec rep : Decision (all_in_range rep).
Proof. unfold all_in_range. apply _. Defined.


(** The sum of the three components once the changes are added, before
    any renormalization. *)
Definition changed_total (a : gmap string num) (changes : AlignmentChanges) : num :=
  add (add (add (get_num a "good") (good changes))
           (add (get_num a "neutral") (neutral changes)))
      (add (get_num a "evil") (evil changes)).

(** Every quest of the run has a progress entry. *)
Definition all_tracked (quests : list Quest) (qp : gmap string QuestProgress) : Prop :=
  ∀ q, In q quests → is_Some (qp !! quest_id q).

(** The quest stored under [k] has not been started. *)
Definition is_pending (qp : gmap string QuestProgress) (k : string) : Prop :=
  match qp !! k with
  | Some p => status p = not_started
  | None => False
  end.

#[global] Instance is_pending_dec qp k : Decision (is_pending qp k).
Proof. unfold is_pending. destruct (qp !! k); apply _. Defined.

(** The identifiers of the quests of the run that have not been started:
    each pass of the loop takes one out. *)
Definition pending (quests : list Quest) (qp : gmap string QuestProgress) : gset string :=
  filter (is_pending qp) (list_to_set (map quest_id quests) : gset string).

End SimulationSpec.

(** ** Sample records *)

Module Samples.
Import Js Validation.

Definition lone_arc : StoryArc := {| arc_id := "A"; arc_title := Some "Prologue" |}.






(** A quest whose only prerequisite carries one condition. *)
Definition guarded_quest (c : Condition) : Quest :=
  {| quest_id := "Q1"; quest_title := Some "Gate"; quest_description := Some "Enter";
     storyArcId := None;
     prerequisites := Some [ {| prereq_id := "Q1"; prereq_conditions := Some [c] |} ];
     outcomes := None |}.

(** The same quest in a graph. *)
Definition guarded_graph (c : Condition) : Graph :=
  {| nodes := [ ("Q1", {| node_id := "Q1"; node_type := quest; label := Some "Gate";
                          data := QuestData (guarded_quest c);
                          incoming := ["Q1"]; outgoing := ["Q1"] |}) ];
     edges := [] |}.



End Samples.

Module SimulationSamples.
Import Js Simulation.


Definition patrol : Quest :=
  {| quest_id := "patrol"; title := "Patrol the walls"; description := "Walk the rampart";
     quest_type := "exploration"; prerequisites := None; difficulty := of_Z 1;
     estimated_duration := None |}.




Definition no_overrides : PartialPlayerState :=
  {| partial_stats := None; partial_reputation := None; partial_alignment := None;
     partial_inventory := None; partial_flags := None; partial_quest_progress := None;
     partial_current_location := None; partial_current_quest := None;
     partial_current_dialogue := None |}.

Definition request_with (overrides : option PartialPlayerState) (minutes : option num)
  : SimulationRequest :=
  {| project_id := "project"; story_arc_id := "arc"; initial_state := overrides;
     player_name := None; request_difficulty := None; play_style := Some "exploration";
     max_duration := minutes; random_seed := None |}.

(** A request whose time budget is zero minutes. *)
Definition zero_duration_request : SimulationRequest :=
  request_with None (Some (of_Z 0)).



(** Overrides that supply the health only. *)
Definition wounded : PartialPlayerState :=
  {| partial_stats := Some {[ "health" := of_Z 80 ]};
     partial_reputation := None; partial_alignment := None;
     partial_inventory := None; partial_flags := None; partial_quest_progress := None;
     partial_current_location := None; partial_current_quest := None;
     partial_current_dialogue := None |}.

End SimulationSamples.

(** ** Notions used by the further properties of the validation service *)

Module GraphSpec.
Import Js Validation Spec.

(** A start point of the reachability search: the [id] of a story arc
    whose [incoming] array is empty. *)
Definition start (ns : list (string * Node)) (s : string) : Prop :=
  ∃ k node, (k, node) ∈ ns ∧ node_type node = story_arc ∧ incoming node = [] ∧
            node_id node = s.

(** Reachable from a start point along the [outgoing] arrays. *)
Definition reachable (ns : list (string * Node)) (x : string) : Prop :=
  ∃ s, start ns s ∧ rtc (edge ns) s x.

(** A node without connections. *)
Definition isolated (node : Node) : Prop :=
  incoming node = [] ∧ outgoing node = [].

#[global] Instance isolated_dec node : Decision (isolated node).
Proof. unfold isolated. apply _. Defined.

(** The identifiers of the records a graph is built from. *)
Definition identifiers (storyArcs : list StoryArc) (quests : list Quest)
           (dialogues : list Dialogue) : list string :=
  map arc_id storyArcs ++ map quest_id quests ++ map dialogue_id dialogues.

(** The nodes as [buildGraph] holds them before it wires the edges. *)
Definition initial_nodes (storyArcs : list StoryArc) (quests : list Quest)
           (dialogues : list Dialogue) : list (string * Node) :=
  fold_left (fun ns d => map_set ns (dialogue_id d) (dialogue_node d)) dialogues
    (fold_left (fun ns q => map_set ns (quest_id q) (quest_node q)) quests
       (fold_left (fun ns a => map_set ns (arc_id a) (arc_node a)) storyArcs [])).

(** What the wiring of edges keeps of the nodes: the keys and, under each
    key, the [id], the kind and the record of the node. *)
Definition kind (n : Node) : string * NodeType * NodeData :=
  (node_id n, node_type n, data n).

Definition same_kinds (ns ns' : list (string * Node)) : Prop :=
  map fst ns' = map fst ns ∧ ∀ k, kind <$> map_get ns' k = kind <$> map_get ns k.

(** No story arc has an outgoing connection. *)
Definition arcs_are_sinks (ns : list (string * Node)) : Prop :=
  ∀ k node, map_get ns k = Some node → node_type node = story_arc → outgoing node = [].

(** The two adjacency arrays agree: [b] is listed in the [outgoing] array
    of [a] as many times as [a] is listed in the [incoming] array of [b]. *)
Definition adjacency_agrees (ns : list (string * Node)) : Prop :=
  ∀ a b na nb, map_get ns a = Some na → map_get ns b = Some nb →
               count_occ string_dec (outgoing na) b = count_occ string_dec (incoming nb) a.


End GraphSpec.

(** ** Notions used by the further properties of the simulation service *)

Module RunSpec.
Import Js Simulation SimulationSpec.

#[global] Instance EventType_eq_dec : EqDecision EventType.
Proof. solve_decision. Defined.
#[global] Instance EventSeverity_eq_dec : EqDecision EventSeverity.
Proof. solve_decision. Defined.














(** A natural number as a rational. *)
Definition of_nat (n : nat) : Qc := Q2Qc (inject_Z (Z.of_nat n)).


End RunSpec.

(** ** Further sample records *)

Module GraphSamples.
Import Js Validation.

(** A quest of the story arc [A], without prerequisites. *)
Definition opening : Quest :=
  {| quest_id := "Q0"; quest_title := Some "Opening"; quest_description := Some "Begin";
     storyArcId := Some "A"; prerequisites := None;
     outcomes := Some [ {| nextQuestId := None; outcome_conditions := None;
                           outcome_description := Some "Done";
                           probability := Some (of_Z 100) |} ] |}.

End GraphSamples.

Module RunSamples.
Import Js Simulation SimulationSamples.



End RunSamples.

(** ** The analysis helpers of the simulation controller
    ([SimulationController], the part [unnamed/part_011] of the sources) *)

Module SimulationController.
Import Js.

(** The [type] and the [severity] of a stored event, as the interface
    [SimulationEvent] enumerates them. *)
Inductive EventKind : Type :=
| kind_quest_start
| kind_quest_complete
| kind_dialogue
| kind_stat_change
| kind_reputation_change
| kind_alignment_change
| kind_item_gain
| kind_item_loss
| kind_flag_set
| kind_location_change.

Inductive Level : Type :=
| level_info
| level_warning
| level_error
| level_success.

#[global] Instance EventKind_eq_dec : EqDecision EventKind.
Proof. solve_decision. Defined.
#[global] Instance Level_eq_dec : EqDecision Level.
Proof. solve_decision. Defined.

(** The string that stands for a kind of event. *)
Definition kind_name (k : EventKind) : string :=
  match k with
  | kind_quest_start => "quest_start"
  | kind_quest_complete => "quest_complete"
  | kind_dialogue => "dialogue"
  | kind_stat_change => "stat_change"
  | kind_reputation_change => "reputation_change"
  | kind_alignment_change => "alignment_change"
  | kind_item_gain => "item_gain"
  | kind_item_loss => "item_loss"
  | kind_flag_set => "flag_set"
  | kind_location_change => "location_change"
  end.

(** An event read back from the stored JSON: the fields that the helpers
    look at. *)
Record StoredEvent : Type := {
  stored_type : EventKind;
  stored_timestamp : num;
  stored_severity : Level;
}.

Definition countEventTypes (events : list StoredEvent) : gmap string num :=
  fold_left
    (fun counts event =>
       <[kind_name (stored_type event)
         := add (or_zero (counts !! kind_name (stored_type event))) (of_Z 1)]> counts)
    events ∅.

(** The four counters of [analyzeTimeDistribution], in the order of the
    source: ['0-5min'], ['5-15min'], ['15-30min'], ['30min+']. *)
Record TimeRanges : Type := {
  upto_5min : nat;
  upto_15min : nat;
  upto_30min : nat;
  over_30min : nat;
}.

Definition analyzeTimeDistribution (events : list StoredEvent) : TimeRanges :=
  fold_left
    (fun timeRanges event =>
       let minutes := div (stored_timestamp event) (of_Z 60) in
       if le minutes (of_Z 5) then
         {| upto_5min := S (upto_5min timeRanges); upto_15min := upto_15min timeRanges;
            upto_30min := upto_30min timeRanges; over_30min := over_30min timeRanges |}
       else if le minutes (of_Z 15) then
         {| upto_5min := upto_5min timeRanges; upto_15min := S (upto_15min timeRanges);
            upto_30min := upto_30min timeRanges; over_30min := over_30min timeRanges |}
       else if le minutes (of_Z 30) then
         {| upto_5min := upto_5min timeRanges; upto_15min := upto_15min timeRanges;
            upto_30min := S (upto_30min timeRanges); over_30min := over_30min timeRanges |}
       else
         {| upto_5min := upto_5min timeRanges; upto_15min := upto_15min timeRanges;
            upto_30min := upto_30min timeRanges; over_30min := S (over_30min timeRanges) |})
    events
    {| upto_5min := 0; upto_15min := 0; upto_30min := 0; over_30min := 0 |}.

End SimulationController.

Module ControllerSpec.
Import Js SimulationController.

(** The number of events of a kind. *)
Definition occurrences (k : EventKind) (events : list StoredEvent) : nat :=
  length (filter (fun e => stored_type e = k) events).

(** A time stamp that is a number of seconds above [lo], if any, and up
    to [hi], if any; a time stamp that is not a number is within no upper
    bound. *)
Definition within (lo hi : option Z) (t : num) : bool :=
  match t with
  | Num x =>
      match lo with
      | Some l => bool_decide (Q2Qc (inject_Z l) < x)%Qc
      | None => true
      end
      && match hi with
         | Some h => bool_decide (x <= Q2Qc (inject_Z h))%Qc
         | None => true
         end
  | NaN => bool_decide (hi = None)
  end.

Definition stamped_within (lo hi : option Z) (events : list StoredEvent) : nat :=
  length (List.filter (fun e => within lo hi (stored_timestamp e)) events).

End ControllerSpec.

(** * Properties of the validation service *)

(** Findings listed one by one. *)
Ltac typed_tac :=
  repeat first
    [ apply Forall_nil
    | apply Forall_cons; [split; [reflexivity | split; [reflexivity | simpl; tauto]] | ] ].

(** A decidable closed statement, settled by evaluation. *)
Ltac by_computation :=
  apply (bool_decide_unpack _); vm_compute; exact I.

(** Linear arithmetic on [Qc], through the rationals it is made of. *)
Ltac qc_to_q :=
  unfold Qcle, Qclt, Qcminus, Qcplus, Qcopp, Qcmult, Qc_of_Z in *;
  cbn [this Q2Qc] in *;
  repeat (setoid_rewrite Qred_correct
          || match goal with H : _ |- _ => setoid_rewrite Qred_correct in H end);
  unfold inject_Z in *.

Ltac qc_lra := qc_to_q; lra.

Section Traversals.
Import Js Validation Spec.

Context {St : Type}.

(** A loop whose body always answers, and keeps [I], answers and keeps [I]. *)
Lemma for_some_total (body : string -> St -> option (bool * St)) (I : St -> Prop)
      (xs : list string) :
  (∀ x st, x ∈ xs → I st → ∃ b st', body x st = Some (b, st') ∧ I st') →
  ∀ st, I st → ∃ b st', for_some body xs st = Some (b, st') ∧ I st'.
Proof.
  induction xs as [|x xs IH]; intros Hbody st Hst; simpl.
  - eauto.
  - destruct (Hbody x st) as (b & st' & Hb & Hst'); [left | done |].
    rewrite Hb. destruct b; [eauto |].
    apply IH; [|done]. intros y st0 Hy. apply Hbody. by right.
Qed.

Lemma for_each_total (body : string -> St -> option St) (I : St -> Prop)
      (xs : list string) :
  (∀ x st, x ∈ xs → I st → ∃ st', body x st = Some st' ∧ I st') →
  ∀ st, I st → ∃ st', for_each body xs st = Some st' ∧ I st'.
Proof.
  induction xs as [|x xs IH]; intros Hbody st Hst; simpl.
  - eauto.
  - destruct (Hbody x st) as (st' & Hb & Hst'); [left | done |].
    rewrite Hb. apply IH; [|done]. intros y st0 Hy. apply Hbody. by right.
Qed.

Lemma for_each_invariant (body : string -> St -> option St) (I : St -> Prop)
      (xs : list string) :
  (∀ x st st', x ∈ xs → I st → body x st = Some st' → I st') →
  ∀ st st', I st → for_each body xs st = Some st' → I st'.
Proof.
  induction xs as [|x xs IH]; intros Hbody st st' Hst; simpl.
  - by intros [= <-].
  - destruct (body x st) as [st1|] eqn:Hb; [|done].
    apply IH; [|by apply (Hbody x st st1); [left | |]].
    intros y st0 st0' Hy. apply Hbody. by right.
Qed.

(** Reasoning on a loop by the prefix already processed: [I pre st] holds
    before the element that follows [pre], [T st] when the loop stops. *)
Lemma for_some_prefix (body : string -> St -> option (bool * St))
      (I : list string -> St -> Prop) (T : St -> Prop) (xs : list string) :
  (∀ pre x post st b st',
      xs = pre ++ x :: post → I pre st → body x st = Some (b, st') →
      if b then T st' else I (pre ++ [x]) st') →
  ∀ st b st', I [] st → for_some body xs st = Some (b, st') →
              if b then T st' else I xs st'.
Proof.
  intros Hbody.
  assert (∀ post pre st b st',
             xs = pre ++ post → I pre st → for_some body post st = Some (b, st') →
             if b then T st' else I xs st') as Hgen.
  { induction post as [|x post IH]; intros pre st b st' Hxs Hpre Hrun; simpl in Hrun.
    - injection Hrun as <- <-. rewrite Hxs, app_nil_r. done.
    - destruct (body x st) as [[[] st1]|] eqn:Hb; [| |done].
      + injection Hrun as <- <-. apply (Hbody pre x post st true st1 Hxs Hpre Hb).
      + apply (IH (pre ++ [x]) st1 b st'); [|  | done].
        * rewrite Hxs, <- app_assoc. done.
        * apply (Hbody pre x post st false st1 Hxs Hpre Hb). }
  intros st b st' H0 Hrun. by apply (Hgen xs [] st b st').
Qed.

End Traversals.

Section Graphs.
Import Js Validation Spec.

Variable ns : list (string * Node).

Lemma map_get_elem {V : Type} (m : list (string * V)) (k : string) (v : V) :
  map_get m k = Some v → (k, v) ∈ m.
Proof.
  induction m as [|[k' v'] m IH]; simpl; [done|].
  destruct (decide (k' = k)) as [->|Hne].
  - intros [= ->]. left.
  - intros H. right. by apply IH.
Qed.

Lemma map_get_key {V : Type} (m : list (string * V)) (k : string) (v : V) :
  (k, v) ∈ m → is_Some (map_get m k).
Proof.
  induction m as [|[k' v'] m IH]; simpl.
  - by intros ?%elem_of_nil.
  - intros [[= <- <-]|Hin]%elem_of_cons.
    + rewrite decide_True by done. eauto.
    + destruct (decide (k' = k)); eauto.
Qed.

Lemma key_in_ids (k : string) (n : Node) : (k, n) ∈ ns → k ∈ ids ns.
Proof.
  intros Hin. unfold ids. apply elem_of_union_l, elem_of_list_to_set.
  apply list_elem_of_In, in_map_iff. exists (k, n). split; [done|].
  by apply list_elem_of_In.
Qed.

Lemma edge_in_ids (u v : string) : edge ns u v → v ∈ ids ns.
Proof.
  unfold edge, node_outgoing. destruct (map_get ns u) as [node|] eqn:Hget.
  - intros Hv. apply map_get_elem in Hget.
    unfold ids. apply elem_of_union_r, elem_of_list_to_set.
    apply list_elem_of_In, in_flat_map. exists (u, node).
    split; by apply list_elem_of_In.
  - by intros ?%elem_of_nil.
Qed.

Lemma edge_source_key (u v : string) : edge ns u v → ∃ node, (u, node) ∈ ns.
Proof.
  unfold edge, node_outgoing. destruct (map_get ns u) as [node|] eqn:Hget.
  - intros _. exists node. by apply map_get_elem.
  - by intros ?%elem_of_nil.
Qed.

(** Marking one more identifier of [ids] shrinks what is left to visit. *)
Lemma unvisited_shrinks (V : gset string) (n : string) :
  n ∈ ids ns → n ∉ V →
  (size (ids ns ∖ ({[n]} ∪ V)) < size (ids ns ∖ V))%nat.
Proof.
  intros Hn HV. apply subset_size. apply strict_spec_alt. split.
  - set_solver.
  - intros Heq. assert (n ∈ ids ns ∖ V) as Hin by set_solver.
    rewrite <- Heq in Hin. set_solver.
Qed.

Lemma unvisited_mono (V V' : gset string) :
  V ⊆ V' → (size (ids ns ∖ V') ≤ size (ids ns ∖ V))%nat.
Proof. intros HV. apply subseteq_size. set_solver. Qed.

(** *** The reachability search *)

Lemma dfs_mono (fuel : nat) :
  ∀ n V V', dfs fuel ns n V = Some V' → V ⊆ V'.
Proof.
  induction fuel as [|fuel IH]; intros n V V'; simpl; [done|].
  destruct (decide (n ∈ V)); [by intros [= <-]|].
  intros Hrun.
  apply (for_each_invariant (dfs fuel ns) (fun W => {[n]} ∪ V ⊆ W)) in Hrun.
  - etransitivity; [|exact Hrun]. apply union_subseteq_r.
  - intros x W W' _ HW Hb. apply IH in Hb. by etransitivity.
  - done.
Qed.

Lemma dfs_total (fuel : nat) :
  ∀ n V, n ∈ ids ns → (size (ids ns ∖ V) < fuel)%nat →
         ∃ V', dfs fuel ns n V = Some V'.
Proof.
  induction fuel as [|fuel IH]; intros n V Hn Hsize; [lia|]. simpl.
  destruct (decide (n ∈ V)); [eauto|].
  destruct (for_each_total (dfs fuel ns) (fun W => {[n]} ∪ V ⊆ W)
                           (node_outgoing ns n)) with (st := {[n]} ∪ V)
    as (V' & Hrun & _); [|done|eauto].
  intros x W Hx HW.
  destruct (IH x W) as (W' & Hb).
  - by apply (edge_in_ids n).
  - pose proof (unvisited_shrinks V n Hn ltac:(done)).
    pose proof (unvisited_mono _ _ HW). lia.
  - exists W'. split; [done|]. etransitivity; [done|]. by eapply dfs_mono.
Qed.

(** *** The cycle search *)

Lemma finished_ok_ext (st st' : CycleState) :
  (∀ x, x ∈ black st ↔ x ∈ black st') → finished_ok ns st → finished_ok ns st'.
Proof.
  intros Heq [Hc Ha]. split.
  - intros u v Hu Huv. apply Heq. apply (Hc u v); [by apply Heq | done].
  - intros u Hu. apply Ha. by apply Heq.
Qed.

(** A closed set contains everything reachable from its members. *)
Lemma closed_tc (B : gset string) (u v : string) :
  closed ns B → tc (edge ns) u v → u ∈ B → v ∈ B.
Proof.
  intros Hc Huv. induction Huv as [u v Huv|u w v Huw _ IH]; intros Hu.
  - by apply (Hc u v).
  - apply IH. by apply (Hc u w).
Qed.

(** When a node leaves the stack with all its successors finished, the
    finished nodes stay closed and free of cycles. *)
Lemma finish_node (n : string) (st : CycleState) :
  n ∈ recursionStack st →
  (∀ c, c ∈ node_outgoing ns n → c ∈ black st) →
  finished_ok ns st →
  finished_ok ns {| visited := visited st; recursionStack := recursionStack st ∖ {[n]} |}.
Proof.
  intros Hn Hchildren [Hc Ha]. unfold finished_ok, black in *. simpl. split.
  - intros u v Hu Huv. destruct (decide (u = n)) as [->|Hne].
    + specialize (Hchildren v Huv). set_solver.
    + assert (u ∈ visited st ∖ recursionStack st) as Hu' by set_solver.
      specialize (Hc u v Hu' Huv). set_solver.
  - intros u Hu Hcycle. destruct (decide (u = n)) as [->|Hne].
    + assert (n ∈ visited st ∖ recursionStack st) as Hblack; [|set_solver].
      inversion Hcycle as [? ? Hnn|? c ? Hnc Hcn]; subst.
      * apply (Hchildren n Hnn).
      * apply (closed_tc _ c n Hc Hcn). by apply Hchildren.
    + apply (Ha u); [set_solver | done].
Qed.

Lemma black_push (n : string) (st : CycleState) :
  n ∉ visited st →
  ∀ x, x ∈ black st ↔
       x ∈ black {| visited := {[n]} ∪ visited st;
                    recursionStack := {[n]} ∪ recursionStack st |}.
Proof. intros Hn x. unfold black. simpl. set_solver. Qed.

Lemma stack_pop (n : string) (S : gset string) : n ∉ S → ({[n]} ∪ S) ∖ {[n]} = S.
Proof. intros Hn. set_solver. Qed.

Lemma black_pop (n : string) (V S0 V2 S2 : gset string) :
  {[n]} ∪ V ⊆ V2 → S2 = {[n]} ∪ S0 →
  ({[n]} ∪ V) ∖ ({[n]} ∪ S0) ⊆ V2 ∖ S2 →
  n ∈ V2 ∖ (S2 ∖ {[n]}) ∧ (V ∖ S0 ⊆ V2 ∖ (S2 ∖ {[n]})) ∧ n ∈ S2.
Proof. intros HV -> Hb. set_solver. Qed.

Lemma hasCycle_spec (fuel : nat) :
  ∀ n st b st',
    hasCycle fuel ns n st = Some (b, st') →
    visited st ⊆ visited st' ∧
    if b then (∀ s, s ∈ recursionStack st → tc (edge ns) s n) → has_cycle ns
    else recursionStack st' = recursionStack st ∧ n ∈ black st' ∧
         black st ⊆ black st' ∧ (finished_ok ns st → finished_ok ns st').
Proof.
  induction fuel as [|fuel IH]; intros n st b st'; simpl; [done|].
  destruct (decide (n ∈ recursionStack st)) as [Hstack|Hstack].
  { intros [= <- <-]. split; [done|]. intros Hpath. exists n. by apply Hpath. }
  destruct (decide (n ∈ visited st)) as [Hvis|Hvis].
  { intros [= <- <-]. unfold black.
    split; [done|]. split; [done|]. split; [|by split].
    by apply elem_of_difference. }
  set (st1 := {| visited := {[n]} ∪ visited st;
                 recursionStack := {[n]} ∪ recursionStack st |}).
  destruct (for_some (hasCycle fuel ns) (node_outgoing ns n) st1)
    as [[b2 st2]|] eqn:Hrun; [|done].
  eapply (for_some_prefix (hasCycle fuel ns)
    (fun pre stm =>
       visited st1 ⊆ visited stm ∧ recursionStack stm = recursionStack st1 ∧
       black st1 ⊆ black stm ∧ (finished_ok ns st → finished_ok ns stm) ∧
       ∀ c, c ∈ pre → c ∈ black stm)
    (fun stm =>
       visited st1 ⊆ visited stm ∧
       ((∀ s, s ∈ recursionStack st → tc (edge ns) s n) → has_cycle ns)))
    in Hrun.
  - destruct b2.
    + intros [= <- <-]. destruct Hrun as [Hv Hc]. split; [|done].
      etransitivity; [|exact Hv]. apply union_subseteq_r.
    + intros [= <- <-]. destruct Hrun as (Hv & Hs & Hb & Hok & Hch). simpl.
      destruct (black_pop n (visited st) (recursionStack st) (visited st2)
                          (recursionStack st2) Hv Hs Hb) as (Hn2 & Hb2 & Hin2).
      split; [etransitivity; [|exact Hv]; apply union_subseteq_r|].
      split; [rewrite Hs; by apply stack_pop|].
      split; [done|]. split; [done|].
      intros Hst. apply finish_node; [done | | by apply Hok].
      intros c Hc. by apply Hch.
  - intros pre x post stm b0 stm' Hxs (Hv & Hs & Hb & Hok & Hpre) Hcall.
    apply IH in Hcall as [Hv' Hres]. destruct b0.
    + split; [by etransitivity|]. intros Hpath. apply Hres.
      assert (edge ns n x) as Hnx.
      { unfold edge. rewrite Hxs. apply elem_of_app. right. left. }
      intros s. rewrite Hs. simpl. intros [->%elem_of_singleton|Hin]%elem_of_union.
      * by apply tc_once.
      * eapply tc_r; [by apply Hpath | done].
    + destruct Hres as (Hs' & Hx & Hb' & Hok').
      split; [by etransitivity|]. split; [by rewrite Hs'|].
      split; [by etransitivity|]. split; [by intros ?; apply Hok', Hok|].
      intros c [Hc| ->%list_elem_of_singleton]%elem_of_app; [|done].
      apply Hb'. by apply Hpre.
  - split; [done|]. split; [done|]. split; [done|].
    split; [by apply finished_ok_ext, black_push|]. by intros c ?%elem_of_nil.
Qed.

Lemma hasCycle_total (fuel : nat) :
  ∀ n st, n ∈ ids ns → (size (ids ns ∖ visited st) < fuel)%nat →
          is_Some (hasCycle fuel ns n st).
Proof.
  induction fuel as [|fuel IH]; intros n st Hn Hsize; [lia|]. simpl.
  destruct (decide (n ∈ recursionStack st)); [eauto|].
  destruct (decide (n ∈ visited st)) as [|Hvis]; [eauto|].
  destruct (for_some_total (hasCycle fuel ns)
              (fun stm => {[n]} ∪ visited st ⊆ visited stm) (node_outgoing ns n))
    with (st := {| visited := {[n]} ∪ visited st;
                   recursionStack := {[n]} ∪ recursionStack st |})
    as (b & st' & -> & _); [|done|destruct b; eauto].
  intros x stm Hx Hstm.
  destruct (IH x stm) as [[b st'] Hb].
  - by apply (edge_in_ids n).
  - pose proof (unvisited_shrinks (visited st) n Hn Hvis).
    pose proof (unvisited_mono _ _ Hstm). lia.
  - exists b, st'. split; [done|]. etransitivity; [done|].
    by apply (hasCycle_spec fuel x stm b st').
Qed.

Lemma budget_enough (V : gset string) : (size (ids ns ∖ V) < budget ns)%nat.
Proof.
  unfold budget. assert (size (ids ns ∖ V) ≤ size (ids ns))%nat; [|lia].
  apply subseteq_size. set_solver.
Qed.

Lemma circular_loop_total (fuel : nat) (entries : list (string * Node)) :
  (∀ V, (size (ids ns ∖ V) < fuel)%nat) →
  (∀ e, e ∈ entries → e ∈ ns) →
  ∀ st, is_Some (circular_loop fuel ns entries st).
Proof.
  intros Hfuel.
  induction entries as [|[k node] rest IH]; intros Hsub st; simpl; [eauto|].
  assert (∀ e, e ∈ rest → e ∈ ns) as Hrest by (intros e He; apply Hsub; by right).
  assert ((k, node) ∈ ns) as Hk by (apply Hsub; left).
  destruct (decide (k ∈ visited st)); [by apply IH|].
  destruct (hasCycle_total fuel k st) as [[b st'] ->].
  - by apply (key_in_ids k node).
  - apply Hfuel.
  - destruct b; [|by apply IH].
    destruct (map_get_key ns k node Hk) as [node' ->].
    destruct (IH Hrest st') as [errs ->]. eauto.
Qed.

Lemma circular_loop_spec (fuel : nat) (entries : list (string * Node)) :
  ∀ st errs,
    circular_loop fuel ns entries st = Some errs →
    recursionStack st = ∅ → finished_ok ns st →
    (errs ≠ [] → has_cycle ns) ∧
    (errs = [] →
     ∃ st', finished_ok ns st' ∧ recursionStack st' = ∅ ∧
            visited st ⊆ visited st' ∧ ∀ e, e ∈ entries → e.1 ∈ visited st').
Proof.
  induction entries as [|[k node] rest IH]; intros st errs; simpl.
  - intros [= <-] Hs Hok. split; [done|]. intros _. exists st.
    split; [done|]. split; [done|]. split; [done|]. by intros e ?%elem_of_nil.
  - destruct (decide (k ∈ visited st)) as [Hk|Hk].
    { intros Hrun Hs Hok. destruct (IH st errs Hrun Hs Hok) as [Hyes Hno].
      split; [done|]. intros Hnil. destruct (Hno Hnil) as (st' & ? & ? & Hv & Hall).
      exists st'. split; [done|]. split; [done|]. split; [done|].
      intros e [->|He]%elem_of_cons; [by apply Hv | by apply Hall]. }
    destruct (hasCycle fuel ns k st) as [[b st1]|] eqn:Hcall; [|done].
    apply hasCycle_spec in Hcall as [Hv Hres]. destruct b.
    + destruct (map_get ns k) as [node'|]; [|done].
      destruct (circular_loop fuel ns rest st1) as [errs'|]; [|done].
      intros [= <-] Hs Hok. split; [|done]. intros _. apply Hres.
      intros s. rewrite Hs. by intros ?%not_elem_of_empty.
    + destruct Hres as (Hs1 & Hblack & _ & Hok1).
      intros Hrun Hs Hok.
      destruct (IH st1 errs Hrun) as [Hyes Hno]; [by rewrite Hs1 | by apply Hok1 |].
      split; [done|]. intros Hnil. destruct (Hno Hnil) as (st' & ? & ? & Hv' & Hall).
      exists st'. split; [done|]. split; [done|]. split; [by etransitivity|].
      intros e [->|He]%elem_of_cons; [|by apply Hall].
      apply Hv'. unfold black in Hblack. set_solver.
Qed.

Lemma circular_loop_types (fuel : nat) (entries : list (string * Node)) :
  ∀ st errs,
    circular_loop fuel ns entries st = Some errs →
    typed circular_dependency error errs.
Proof.
  induction entries as [|[k node] rest IH]; intros st errs; simpl.
  - intros [= <-]. constructor.
  - destruct (decide (k ∈ visited st)); [by apply IH|].
    destruct (hasCycle fuel ns k st) as [[[] st1]|]; [| by apply IH | done].
    destruct (map_get ns k) as [node'|]; [|done].
    destruct (circular_loop fuel ns rest st1) as [errs'|] eqn:Hrest; [|done].
    intros [= <-]. constructor; [by repeat split; auto|]. by apply (IH st1).
Qed.

End Graphs.

Section CycleDetection.
Import Js Validation Spec.

(** The cycle search answers, and finds something exactly on the graphs
    that have a cycle. *)
Lemma detectCircularDependencies_correct (g : Graph) :
  ∃ errs, detectCircularDependencies g = Some errs ∧
          typed circular_dependency error errs ∧
          (errs ≠ [] ↔ has_cycle (nodes g)).
Proof.
  unfold detectCircularDependencies.
  destruct (circular_loop_total (nodes g) (budget (nodes g)) (nodes g)
              (budget_enough (nodes g)) ltac:(done)
              {| visited := ∅; recursionStack := ∅ |}) as [errs Hrun].
  exists errs. split; [done|]. split; [by eapply circular_loop_types|].
  destruct (circular_loop_spec (nodes g) _ _ _ _ Hrun) as [Hyes Hno]; [done| |].
  { split; [intros u v Hu|intros u Hu]; unfold black in Hu; simpl in Hu; set_solver. }
  split; [done|]. intros [x Hx] ->.
  destruct Hno as (st' & [_ Hacyc] & Hs & _ & Hall); [done|].
  apply (Hacyc x); [|done]. unfold black. rewrite Hs.
  assert (∃ y, edge (nodes g) x y) as [y Hxy].
  { inversion Hx; subst; eauto. }
  destruct (edge_source_key _ _ _ Hxy) as [node Hnode].
  specialize (Hall _ Hnode). set_solver.
Qed.

Lemma detectUnreachableNodes_total (g : Graph) :
  ∃ errs, detectUnreachableNodes g = Some errs ∧ typed unreachable error errs.
Proof.
  unfold detectUnreachableNodes.
  set (starts := filter _ _).
  destruct (for_each_total (dfs (budget (nodes g)) (nodes g)) (fun _ => True)
                           (map node_id starts)) with (st := (∅ : gset string))
    as (V & -> & _); [|done|].
  - intros x V Hx _. destruct (decide (x ∈ ids (nodes g))) as [Hin|Hout].
    + destruct (dfs_total (nodes g) (budget (nodes g)) x V Hin (budget_enough _ _))
        as (V' & ->). eauto.
    + unfold budget. simpl. destruct (decide (x ∈ V)); [eauto|].
      assert (node_outgoing (nodes g) x = []) as ->; [|simpl; eauto].
      unfold node_outgoing. destruct (map_get (nodes g) x) as [node|] eqn:Hget; [|done].
      exfalso. apply Hout. by apply (key_in_ids _ x node), map_get_elem.
  - eexists. split; [done|]. apply Forall_flat_map, Forall_forall.
    intros [k node] _. destruct (decide (k ∈ V)); typed_tac.
Qed.

End CycleDetection.

Section Reports.
Import Js Validation Spec.

Lemma typed_app (t : ErrorType) (s : Severity) (l1 l2 : list ValidationError) :
  typed t s l1 → typed t s l2 → typed t s (l1 ++ l2).
Proof. apply Forall_app_2. Qed.

Lemma typed_flat_map {A : Type} (t : ErrorType) (s : Severity)
      (f : A -> list ValidationError) (l : list A) :
  (∀ x, typed t s (f x)) → typed t s (flat_map f l).
Proof. intros Hf. apply Forall_flat_map, Forall_forall. intros x _. apply Hf. Qed.

Lemma typed_concat_imap {A : Type} (t : ErrorType) (s : Severity)
      (f : nat -> A -> list ValidationError) (l : list A) :
  (∀ i x, typed t s (f i x)) → typed t s (concat (imap f l)).
Proof.
  revert f. induction l as [|x l IH]; intros f Hf; simpl; [constructor|].
  apply typed_app; [apply Hf|]. apply IH. intros i y. apply Hf.
Qed.

Lemma typed_filter_same (t : ErrorType) (s : Severity) (l : list ValidationError) :
  typed t s l → filter (has_severity s) l = l.
Proof.
  induction 1 as [|e l (_ & He & _) _ IH]; [done|].
  rewrite filter_cons_True by done. by rewrite IH.
Qed.

Lemma typed_filter_other (t : ErrorType) (s s' : Severity) (l : list ValidationError) :
  typed t s l → s ≠ s' → filter (has_severity s') l = [].
Proof.
  intros Hl Hne. induction Hl as [|e l (_ & He & _) _ IH]; [done|].
  rewrite filter_cons_False; [done|]. unfold has_severity. congruence.
Qed.

Lemma typed_count_other (t t' : ErrorType) (s : Severity) (l : list ValidationError) :
  typed t s l → t ≠ t' → count_type t' l = 0%nat.
Proof.
  intros Hl Hne. unfold count_type. induction Hl as [|e l (He & _) _ IH]; [done|].
  rewrite filter_cons_False; [done|]. unfold has_type. congruence.
Qed.

Lemma typed_count_same (t : ErrorType) (s : Severity) (l : list ValidationError) :
  typed t s l → count_type t l = length l.
Proof.
  unfold count_type. induction 1 as [|e l (He & _) _ IH]; [done|].
  rewrite filter_cons_True by done. simpl. by rewrite IH.
Qed.

Lemma count_type_app (t : ErrorType) (l1 l2 : list ValidationError) :
  count_type t (l1 ++ l2) = (count_type t l1 + count_type t l2)%nat.
Proof. unfold count_type. by rewrite list.filter_app, length_app. Qed.

Lemma detectOrphanNodes_typed (g : Graph) : typed orphan warning (detectOrphanNodes g).
Proof.
  apply typed_flat_map. intros [k node].
  destruct (_ && _); typed_tac.
Qed.

Lemma detectBrokenChains_typed (g : Graph) : typed broken_chain error (detectBrokenChains g).
Proof.
  apply typed_flat_map. intros [k node].
  destruct (_ && _); [|typed_tac].
  destruct (data_prerequisites _) as [ps|]; [|typed_tac].
  destruct (_ <? _)%nat; typed_tac.
Qed.

Lemma validatePrerequisites_typed (g : Graph) :
  typed missing_prerequisites error (validatePrerequisites g).
Proof.
  apply typed_flat_map. intros [k node].
  destruct (bool_decide _); [|typed_tac].
  apply typed_flat_map. intros p. destruct (map_has _ _); typed_tac.
Qed.

Lemma condition_errors_typed (k : string) (m : Message) (cs : option (list Condition)) :
  match m with MsgProbabilitySum _ => False | _ => True end →
  typed invalid_condition error (condition_errors k m cs).
Proof.
  intros Hm. apply typed_flat_map. intros c. destruct (isValidCondition c); [typed_tac|].
  constructor; [|constructor]. split; [done|]. split; [done|].
  unfold is_probability_finding. simpl. destruct m; tauto.
Qed.

Lemma validateConditions_typed (g : Graph) :
  typed invalid_condition error (validateConditions g).
Proof.
  apply typed_flat_map. intros [k node].
  destruct (bool_decide _); [|typed_tac].
  apply typed_app; apply typed_flat_map; intros x; by apply condition_errors_typed.
Qed.

(** Whole-graph validation always answers, with a report of this shape. *)
Lemma validateGraph_shape (g : Graph) :
  ∃ unreachableErrors circularErrors,
    typed unreachable error unreachableErrors ∧
    typed circular_dependency error circularErrors ∧
    (circularErrors ≠ [] ↔ has_cycle (nodes g)) ∧
    validateGraph g = Some (graph_report g unreachableErrors circularErrors).
Proof.
  destruct (detectUnreachableNodes_total g) as (un & Hun & Hunt).
  destruct (detectCircularDependencies_correct g) as (ci & Hci & Hcit & Hcycle).
  exists un, ci. split; [done|]. split; [done|]. split; [done|].
  unfold validateGraph, graph_report. rewrite Hun, Hci.
  pose proof (detectOrphanNodes_typed g) as Ho.
  pose proof (detectBrokenChains_typed g) as Hb.
  pose proof (validatePrerequisites_typed g) as Hp.
  pose proof (validateConditions_typed g) as Hc.
  rewrite (typed_filter_other _ _ error _ Ho), (typed_filter_same _ _ _ Ho) by done.
  rewrite (typed_filter_other _ _ warning _ Hunt), (typed_filter_same _ _ _ Hunt) by done.
  rewrite (typed_filter_other _ _ warning _ Hb), (typed_filter_same _ _ _ Hb) by done.
  rewrite (typed_filter_other _ _ warning _ Hcit), (typed_filter_same _ _ _ Hcit) by done.
  rewrite (typed_filter_other _ _ warning _ Hp), (typed_filter_same _ _ _ Hp) by done.
  rewrite (typed_filter_other _ _ warning _ Hc), (typed_filter_same _ _ _ Hc) by done.
  simpl. by rewrite app_nil_r.
Qed.

End Reports.

Section ExportReady.
Import Js Validation Spec.

Lemma validateQuestStructure_warnings (q : Quest) :
  (length (filter (has_severity warning) (validateQuestStructure q)) ≤ 1)%nat.
Proof.
  unfold validateQuestStructure. rewrite !list.filter_app, !length_app.
  destruct (blank (quest_title q)), (blank (quest_description q));
    destruct (outcomes q) as [[|o os]|];
    try destruct (gt _ _);
    rewrite ?filter_cons, ?filter_nil; simpl; lia.
Qed.

Lemma validateQuestPrerequisites_typed (q : Quest) :
  typed missing_prerequisites error (validateQuestPrerequisites q).
Proof.
  apply typed_flat_map. intros p. destruct (truthy_str _); typed_tac.
Qed.

Lemma validateQuestOutcomes_typed (q : Quest) :
  typed broken_chain error (validateQuestOutcomes q).
Proof.
  unfold validateQuestOutcomes. apply typed_concat_imap. intros i o.
  apply typed_app.
  - destruct (blank _); typed_tac.
  - destruct (probability o) as [p|]; [|typed_tac].
    destruct (_ || _); typed_tac.
Qed.

(** Quest-local validation produces one warning at most. *)
Lemma validateQuest_warnings (q : Quest) (r : ValidationResult) :
  validateQuest (Some q) = Some r → (length (warnings r) ≤ 1)%nat.
Proof.
  intros [= <-]. simpl.
  rewrite (typed_filter_other _ _ warning _ (validateQuestPrerequisites_typed q)) by done.
  rewrite (typed_filter_other _ _ warning _ (validateQuestOutcomes_typed q)) by done.
  rewrite !app_nil_r. apply validateQuestStructure_warnings.
Qed.

(** C2: every report returned, by whole-graph validation and by quest-local
    validation alike, has [exportReady] true if and only if its list of
    errors is empty and its list of warnings has fewer than five entries.
    Quest-local validation tests the errors only, and never produces more
    than one warning. *)
Theorem exportReady_iff_no_errors_and_few_warnings :
  (∀ g : Graph, ∃ r,
      validateGraph g = Some r ∧
      (exportReady r = true ↔ errors r = [] ∧ (length (warnings r) < 5)%nat)) ∧
  (∀ storyArcs quests dialogues, ∃ r,
      validateStoryGraph storyArcs quests dialogues = Some r ∧
      (exportReady r = true ↔ errors r = [] ∧ (length (warnings r) < 5)%nat)) ∧
  (∀ q : Quest, ∃ r,
      validateQuest (Some q) = Some r ∧
      (exportReady r = true ↔ errors r = [] ∧ (length (warnings r) < 5)%nat)).
Proof.
  assert (∀ g : Graph, ∃ r,
             validateGraph g = Some r ∧
             (exportReady r = true ↔ errors r = [] ∧ (length (warnings r) < 5)%nat))
    as Hgraph.
  { intros g. destruct (validateGraph_shape g) as (un & ci & _ & _ & _ & Hr).
    eexists. split; [exact Hr|]. unfold graph_report. simpl.
    rewrite andb_true_iff, Nat.eqb_eq, Nat.ltb_lt, length_zero_iff_nil. done. }
  split; [done|]. split; [intros a q d; apply Hgraph|].
  intros q. destruct (validateQuest (Some q)) as [r|] eqn:Hr; [|done].
  exists r. split; [done|]. pose proof (validateQuest_warnings q r Hr) as Hw.
  injection Hr as <-. simpl in *.
  rewrite Nat.eqb_eq, length_zero_iff_nil. split; [|tauto].
  intros ->. split; [done|]. lia.
Qed.

End ExportReady.

Section Cycles.
Import Js Validation Spec.

Lemma typed_elem (t : ErrorType) (s : Severity) (l : list ValidationError)
      (e : ValidationError) :
  typed t s l → e ∈ l → err_type e = t ∧ severity e = s.
Proof.
  intros Hl He. unfold typed in Hl. rewrite list.Forall_forall in Hl.
  destruct (Hl e He) as (? & ? & _). by split.
Qed.

(** C3: for every graph, the report of whole-graph validation holds a
    [circular_dependency] error if and only if the directed adjacency (the
    [outgoing] arrays) has a cycle; on an acyclic graph it holds none. *)
Theorem circular_dependency_iff_cycle (g : Graph) :
  ∃ r, validateGraph g = Some r ∧
       ((∃ e, e ∈ errors r ∧ err_type e = circular_dependency) ↔ has_cycle (nodes g)) ∧
       (¬ has_cycle (nodes g) →
        count_type circular_dependency (errors r ++ warnings r) = 0%nat).
Proof.
  destruct (validateGraph_shape g) as (un & ci & Hun & Hci & Hcycle & Hr).
  eexists. split; [exact Hr|]. unfold graph_report. simpl.
  pose proof (detectOrphanNodes_typed g) as Ho.
  pose proof (detectBrokenChains_typed g) as Hb.
  pose proof (validatePrerequisites_typed g) as Hp.
  pose proof (validateConditions_typed g) as Hc.
  split; [split|].
  - intros (e & He & Hty). apply Hcycle. intros ->.
    rewrite !elem_of_app in He.
    destruct He as [He|[He|[He|[He|He]]]];
      [ apply (typed_elem _ _ _ _ Hun) in He
      | apply (typed_elem _ _ _ _ Hb) in He
      | by apply elem_of_nil in He
      | apply (typed_elem _ _ _ _ Hp) in He
      | apply (typed_elem _ _ _ _ Hc) in He ];
      destruct He; congruence.
  - intros Hcyc. apply Hcycle in Hcyc. destruct ci as [|e ci]; [done|].
    exists e. split.
    + rewrite !elem_of_app. right. right. left. left.
    + by apply (typed_elem _ _ _ e Hci); left.
  - intros Hno. assert (ci = []) as ->.
    { destruct ci; [done|]. exfalso. apply Hno, Hcycle. done. }
    rewrite !count_type_app.
    rewrite (typed_count_other _ circular_dependency _ _ Hun) by done.
    rewrite (typed_count_other _ circular_dependency _ _ Hb) by done.
    rewrite (typed_count_other _ circular_dependency _ _ Hp) by done.
    rewrite (typed_count_other _ circular_dependency _ _ Hc) by done.
    rewrite (typed_count_other _ circular_dependency _ _ Ho) by done.
    done.
Qed.

End Cycles.

Section BrokenChains.
Import Js Validation Spec Samples.

Lemma reports_app (t : ErrorType) (k : string) (l1 l2 : list ValidationError) :
  reports t k (l1 ++ l2) ↔ reports t k l1 ∨ reports t k l2.
Proof. apply Exists_app. Qed.

Lemma reports_typed (t t' : ErrorType) (s : Severity) (k : string)
      (l : list ValidationError) :
  typed t s l → t ≠ t' → ¬ reports t' k l.
Proof.
  intros Hl Hne (e & He & Hty & _)%list.Exists_exists.
  apply (typed_elem _ _ _ _ Hl) in He as [? _]. congruence.
Qed.





End BrokenChains.

Section BuiltGraphs.
Import Js Validation Spec Samples.

Lemma map_get_set {V : Type} (m : list (string * V)) (k k' : string) (v : V) :
  map_get (map_set m k v) k' = if decide (k = k') then Some v else map_get m k'.
Proof.
  induction m as [|[k0 v0] m IH]; simpl.
  - by destruct (decide (k = k')).
  - destruct (decide (k0 = k)) as [->|Hne]; simpl.
    + by destruct (decide (k = k')).
    + destruct (decide (k0 = k')) as [->|Hne']; [|done].
      by rewrite decide_False by done.
Qed.

Lemma map_get_update {V : Type} (m : list (string * V)) (k k' : string) (f : V -> V) :
  map_get (map_update m k f) k'
  = if decide (k = k') then f <$> map_get m k' else map_get m k'.
Proof.
  induction m as [|[k0 v0] m IH]; simpl.
  - by destruct (decide (k = k')).
  - destruct (decide (k0 = k)) as [->|Hne]; simpl.
    + by destruct (decide (k = k')).
    + destruct (decide (k0 = k')) as [->|Hne']; [|done].
      by rewrite decide_False by done.
Qed.

Lemma map_update_keys {V : Type} (m : list (string * V)) (k : string) (f : V -> V) :
  map fst (map_update m k f) = map fst m.
Proof.
  induction m as [|[k0 v0] m IH]; simpl; [done|].
  destruct (decide (k0 = k)); simpl; [done|]. by rewrite IH.
Qed.

Lemma map_set_keys {V : Type} (m : list (string * V)) (k : string) (v : V) :
  NoDup (map fst m) → NoDup (map fst (map_set m k v)) ∧
                      ∀ x, x ∈ map fst (map_set m k v) ↔ x = k ∨ x ∈ map fst m.
Proof.
  induction m as [|[k0 v0] m IH]; simpl; intros Hnd.
  - split; [apply list.NoDup_singleton|]. intros x. rewrite list_elem_of_singleton, elem_of_nil.
    tauto.
  - apply list.NoDup_cons in Hnd as [Hk0 Hnd]. destruct (IH Hnd) as [IHnd IHin].
    destruct (decide (k0 = k)) as [->|Hne]; simpl.
    + split; [by apply list.NoDup_cons|]. intros x. rewrite !elem_of_cons. tauto.
    + split.
      * apply list.NoDup_cons. split; [|done]. rewrite IHin. intros [?|?]; congruence.
      * intros x. rewrite !elem_of_cons, IHin. tauto.
Qed.

Lemma map_get_unique {V : Type} (m : list (string * V)) (k : string) (v : V) :
  NoDup (map fst m) → (k, v) ∈ m → map_get m k = Some v.
Proof.
  induction m as [|[k0 v0] m IH]; simpl; intros Hnd Hin.
  - by apply elem_of_nil in Hin.
  - apply list.NoDup_cons in Hnd as [Hk0 Hnd].
    apply elem_of_cons in Hin as [[= <- <-]|Hin]; [by rewrite decide_True|].
    destruct (decide (k0 = k)) as [->|Hne]; [|by apply IH].
    exfalso. apply Hk0. apply list_elem_of_In, in_map_iff. exists (k, v).
    split; [done|]. by apply list_elem_of_In.
Qed.

(** *** The first phase: the nodes *)

Lemma quests_from_set (qs : list Quest) (ns : list (string * Node)) (k : string)
      (node : Node) :
  quests_from qs ns →
  (∀ q, data node = QuestData q → q ∈ qs ∧ quest_id q = k) →
  quests_from qs (map_set ns k node).
Proof.
  intros [Hnd Hq] Hnode. split; [by apply map_set_keys|].
  intros k' node' q. rewrite map_get_set.
  destruct (decide (k = k')) as [<-|Hne]; [|by apply Hq].
  intros [= <-]. apply Hnode.
Qed.

Lemma quests_from_fold {A : Type} (qs : list Quest) (key : A -> string)
      (mk : A -> Node) (l : list A) (ns : list (string * Node)) :
  (∀ x q, x ∈ l → data (mk x) = QuestData q → q ∈ qs ∧ quest_id q = key x) →
  quests_from qs ns →
  quests_from qs (fold_left (fun ns x => map_set ns (key x) (mk x)) l ns).
Proof.
  revert ns. induction l as [|x l IH]; intros ns Hl Hns; simpl; [done|].
  apply IH.
  - intros y q Hy. apply Hl. by right.
  - apply quests_from_set; [done|]. intros q. apply Hl. left.
Qed.

(** *** The second phase: the edges *)

Lemma grows_refl (ns : list (string * Node)) : grows ns ns.
Proof. by split; [|split]. Qed.

Lemma grows_trans (ns1 ns2 ns3 : list (string * Node)) :
  grows ns1 ns2 → grows ns2 ns3 → grows ns1 ns3.
Proof.
  intros (Hk & Hd & Hi) (Hk' & Hd' & Hi'). split; [|split].
  - by rewrite Hk'.
  - intros k. by rewrite Hd'.
  - intros k. etransitivity; [apply Hi | apply Hi'].
Qed.

Lemma addEdgeToNodes_grows (ns : list (string * Node)) (s t : string) :
  grows ns (addEdgeToNodes ns s t).
Proof.
  unfold addEdgeToNodes. split; [|split].
  - by rewrite !map_update_keys.
  - intros k. rewrite !map_get_update.
    destruct (decide (t = k)), (decide (s = k)), (map_get ns k); done.
  - intros k. unfold node_incoming. rewrite !map_get_update.
    destruct (decide (t = k)), (decide (s = k)), (map_get ns k); simpl;
      rewrite ?length_app; simpl; lia.
Qed.

Lemma addEdgeToNodes_target (ns : list (string * Node)) (s t : string) :
  is_Some (map_get ns t) →
  (0 < length (node_incoming (addEdgeToNodes ns s t) t))%nat.
Proof.
  intros [node Hnode]. unfold addEdgeToNodes, node_incoming.
  rewrite !map_get_update, Hnode, decide_True by done.
  destruct (decide (s = t)); simpl; rewrite length_app; simpl; lia.
Qed.

Lemma grows_present (ns ns' : list (string * Node)) (k : string) :
  grows ns ns' → is_Some (map_get ns k) → is_Some (map_get ns' k).
Proof.
  intros (_ & Hd & _) [node Hnode]. specialize (Hd k). rewrite Hnode in Hd.
  destruct (map_get ns' k); [eauto | done].
Qed.

Lemma fold_grows {A : Type} (step : Graph -> A -> Graph) (l : list A) (g : Graph) :
  (∀ g x, grows (nodes g) (nodes (step g x))) →
  grows (nodes g) (nodes (fold_left step l g)).
Proof.
  intros Hstep. revert g. induction l as [|x l IH]; intros g; simpl.
  - apply grows_refl.
  - eapply grows_trans; [apply Hstep | apply IH].
Qed.

Lemma connect_grows (g : Graph) (e : Edge) (s t : string) :
  grows (nodes g) (nodes (connect g e s t)).
Proof. apply addEdgeToNodes_grows. Qed.

Lemma quest_edges_grows (g : Graph) (q : Quest) :
  grows (nodes g) (nodes (quest_edges g q)).
Proof.
  unfold quest_edges.
  eapply grows_trans; [|apply fold_grows].
  - eapply grows_trans; [|apply fold_grows].
    + destruct (storyArcId q) as [arc|]; [|apply grows_refl].
      destruct (truthy_str arc); [apply connect_grows | apply grows_refl].
    + intros g' p. apply connect_grows.
  - intros g' o. destruct (nextQuestId o) as [next|]; [|apply grows_refl].
    destruct (truthy_str next); [apply connect_grows | apply grows_refl].
Qed.

Lemma dialogue_edges_grows (g : Graph) (d : Dialogue) :
  grows (nodes g) (nodes (dialogue_edges g d)).
Proof.
  unfold dialogue_edges. destruct (questId d) as [qid|]; [|apply grows_refl].
  destruct (truthy_str qid); [apply connect_grows | apply grows_refl].
Qed.

(** Wiring the edges of a quest that declares a prerequisite puts an entry
    in the [incoming] array of its own node. *)
Lemma quest_edges_wires (g : Graph) (q : Quest) (p : Prerequisite)
      (ps : list Prerequisite) :
  prerequisites q = Some (p :: ps) →
  is_Some (map_get (nodes g) (quest_id q)) →
  (0 < length (node_incoming (nodes (quest_edges g q)) (quest_id q)))%nat.
Proof.
  intros Hps Hq. unfold quest_edges. rewrite Hps. simpl.
  set (g1 := match storyArcId q with Some _ => _ | None => _ end).
  assert (grows (nodes g) (nodes g1)) as Hg1.
  { unfold g1. destruct (storyArcId q) as [arc|]; [|apply grows_refl].
    destruct (truthy_str arc); [apply connect_grows | apply grows_refl]. }
  set (e := {| edge_id := _ |}).
  pose proof (addEdgeToNodes_target (nodes g1) (prereq_id p) (quest_id q)
                (grows_present _ _ _ Hg1 Hq)) as Hwired.
  change (addEdgeToNodes (nodes g1) (prereq_id p) (quest_id q))
    with (nodes (connect g1 e (prereq_id p) (quest_id q))) in Hwired.
  set (g2 := connect g1 e _ _) in *.
  match goal with
  | |- (_ < length (node_incoming (nodes (fold_left ?f2 _ (fold_left ?f1 ps g2))) _))%nat =>
      pose proof (fold_grows f1 ps g2 ltac:(intros; apply connect_grows)) as H1;
      pose proof (fold_grows f2 (opt_list (outcomes q)) (fold_left f1 ps g2)) as H2
  end.
  destruct H1 as (_ & _ & H1). destruct H2 as (_ & _ & H2).
  { intros g' o. destruct (nextQuestId o) as [next|]; [|apply grows_refl].
    destruct (truthy_str next); [apply connect_grows | apply grows_refl]. }
  specialize (H1 (quest_id q)). specialize (H2 (quest_id q)). lia.
Qed.

Lemma fold_quest_edges_wires (qs : list Quest) (g : Graph) (q : Quest) (p : Prerequisite)
      (ps : list Prerequisite) :
  q ∈ qs → prerequisites q = Some (p :: ps) →
  is_Some (map_get (nodes g) (quest_id q)) →
  (0 < length (node_incoming (nodes (fold_left quest_edges qs g)) (quest_id q)))%nat.
Proof.
  revert g. induction qs as [|q0 qs IH]; intros g Hin Hps Hq; simpl.
  - by apply elem_of_nil in Hin.
  - apply elem_of_cons in Hin as [<-|Hin].
    + pose proof (quest_edges_wires g q p ps Hps Hq) as Hw.
      destruct (fold_grows quest_edges qs (quest_edges g q) quest_edges_grows)
        as (_ & _ & Hi).
      specialize (Hi (quest_id q)). lia.
    + apply IH; [done | done |].
      by apply (grows_present (nodes g)); [apply quest_edges_grows|].
Qed.

(** In a graph made by [buildGraph], a quest node that declares a
    prerequisite has a non-empty [incoming] array: the search for broken
    chains finds nothing there. *)
Lemma buildGraph_wires_prerequisites (storyArcs : list StoryArc) (quests : list Quest)
      (dialogues : list Dialogue) (k : string) (node : Node) :
  (k, node) ∈ nodes (buildGraph storyArcs quests dialogues) →
  (0 < length (declared node))%nat →
  incoming node ≠ [].
Proof.
  unfold buildGraph.
  set (n1 := fold_left _ storyArcs []).
  set (n2 := fold_left _ quests n1).
  set (n3 := fold_left _ dialogues n2).
  set (g0 := {| nodes := n3; edges := [] |}).
  set (g1 := fold_left quest_edges quests g0).
  set (g := fold_left dialogue_edges dialogues g1).
  assert (quests_from quests n3) as [Hnd Hfrom].
  { apply (quests_from_fold quests dialogue_id dialogue_node); [done|].
    apply (quests_from_fold quests quest_id quest_node).
    { intros q q' Hq [= <-]. done. }
    apply (quests_from_fold quests arc_id arc_node); [done|].
    split; [apply base.NoDup_nil_2 | done]. }
  assert (grows n3 (nodes g1)) as Hg1
    by apply (fold_grows quest_edges quests g0 quest_edges_grows).
  assert (grows (nodes g1) (nodes g)) as Hg
    by apply (fold_grows dialogue_edges dialogues g1 dialogue_edges_grows).
  pose proof (grows_trans _ _ _ Hg1 Hg) as (Hkeys & Hdata & _).
  intros Hin Hdecl.
  assert (map_get (nodes g) k = Some node) as Hget.
  { apply map_get_unique; [|done]. by rewrite Hkeys. }
  unfold declared in Hdecl.
  destruct (data node) as [a|q|d] eqn:Hd; try (simpl in Hdecl; lia).
  simpl in Hdecl. destruct (prerequisites q) as [[|p ps]|] eqn:Hps;
    try (simpl in Hdecl; lia).
  pose proof (Hdata k) as Hdk. rewrite Hget in Hdk. simpl in Hdk.
  destruct (map_get n3 k) as [node0|] eqn:Hget0; [|done].
  injection Hdk as Hdk. rewrite Hd in Hdk.
  destruct (Hfrom k node0 q Hget0 (eq_sym Hdk)) as [Hq <-].
  pose proof (fold_quest_edges_wires quests g0 q p ps Hq Hps
                ltac:(simpl; rewrite Hget0; eauto)) as Hw.
  fold g1 in Hw. destruct Hg as (_ & _ & Hi). specialize (Hi (quest_id q)).
  unfold node_incoming in Hi at 2. rewrite Hget in Hi.
  intros Hnil. rewrite Hnil in Hi. simpl in Hi. lia.
Qed.

End BuiltGraphs.

Section SummaryCounts.
Import Js Validation Spec Samples.

(** The summary counts the [errors] list only: the three categories that
    are errors are counted in full, and the orphans, which are warnings,
    never are. *)
Lemma summary_counts (g : Graph) :
  ∃ r, validateGraph g = Some r ∧
       orphanNodes (summary r) = 0%nat ∧
       unreachableNodes (summary r) = count_type unreachable (errors r ++ warnings r) ∧
       brokenChains (summary r) = count_type broken_chain (errors r ++ warnings r) ∧
       circularDependencies (summary r)
       = count_type circular_dependency (errors r ++ warnings r).
Proof.
  destruct (validateGraph_shape g) as (un & ci & Hun & Hci & _ & Hr).
  eexists. split; [exact Hr|]. unfold graph_report. simpl.
  pose proof (detectOrphanNodes_typed g) as Ho.
  pose proof (detectBrokenChains_typed g) as Hb.
  pose proof (validatePrerequisites_typed g) as Hp.
  pose proof (validateConditions_typed g) as Hc.
  repeat match goal with
         | |- context [length (filter (has_type ?t) ?l)] =>
             change (length (filter (has_type t) l)) with (count_type t l)
         end.
  rewrite !count_type_app.
  rewrite !(typed_count_other _ orphan _ _ Hun), !(typed_count_other _ orphan _ _ Hb),
          !(typed_count_other _ orphan _ _ Hci), !(typed_count_other _ orphan _ _ Hp),
          !(typed_count_other _ orphan _ _ Hc) by done.
  rewrite !(typed_count_other _ unreachable _ _ Hb),
          !(typed_count_other _ unreachable _ _ Hci),
          !(typed_count_other _ unreachable _ _ Hp),
          !(typed_count_other _ unreachable _ _ Hc),
          !(typed_count_other _ unreachable _ _ Ho) by done.
  rewrite !(typed_count_other _ broken_chain _ _ Hun),
          !(typed_count_other _ broken_chain _ _ Hci),
          !(typed_count_other _ broken_chain _ _ Hp),
          !(typed_count_other _ broken_chain _ _ Hc),
          !(typed_count_other _ broken_chain _ _ Ho) by done.
  rewrite !(typed_count_other _ circular_dependency _ _ Hun),
          !(typed_count_other _ circular_dependency _ _ Hb),
          !(typed_count_other _ circular_dependency _ _ Hp),
          !(typed_count_other _ circular_dependency _ _ Hc),
          !(typed_count_other _ circular_dependency _ _ Ho) by done.
  repeat split; lia.
Qed.

(** C9 on a project made of one story arc and nothing else: the run
    produces one [orphan] finding and the summary counts none. *)
Theorem summary_misses_orphan_warnings :
  ∃ r, validateStoryGraph [lone_arc] [] [] = Some r ∧
       count_type orphan (errors r ++ warnings r) = 1%nat ∧
       orphanNodes (summary r) = 0%nat.
Proof.
  destruct (validateStoryGraph [lone_arc] [] []) as [r|] eqn:Hr; [|by vm_compute in Hr].
  exists r. split; [done|]. vm_compute in Hr. injection Hr as <-.
  split; reflexivity.
Qed.

End SummaryCounts.

Section Conditions.
Import Js Validation Spec Samples.





Lemma condition_errors_reports (k k' : string) (m : Message) (cs : option (list Condition)) :
  reports invalid_condition k (condition_errors k' m cs) ↔
  k = k' ∧ ∃ c, c ∈ opt_list cs ∧ isValidCondition c = false.
Proof.
  unfold reports, condition_errors. rewrite list.Exists_exists. split.
  - intros (e & He & _ & Hid).
    apply list_elem_of_In, in_flat_map in He as (c & Hc & He).
    apply list_elem_of_In in Hc.
    destruct (isValidCondition c) eqn:Hv; [done|].
    destruct He as [<-|[]]. simpl in Hid. injection Hid as ->. eauto.
  - intros (-> & c & Hc & Hv). eexists. split.
    + apply list_elem_of_In, in_flat_map. exists c.
      split; [by apply list_elem_of_In|]. rewrite Hv. left. reflexivity.
    + done.
Qed.

Lemma reports_flat_map {A : Type} (t : ErrorType) (k : string)
      (f : A -> list ValidationError) (l : list A) :
  reports t k (flat_map f l) ↔ ∃ x, x ∈ l ∧ reports t k (f x).
Proof.
  unfold reports. rewrite list.Exists_exists. split.
  - intros (e & He & Hp).
    apply list_elem_of_In, in_flat_map in He as (x & Hx & He).
    exists x. split; [by apply list_elem_of_In|].
    apply list.Exists_exists. exists e. split; [by apply list_elem_of_In | done].
  - intros (x & Hx & (e & He & Hp)%list.Exists_exists).
    exists e. split; [|done]. apply list_elem_of_In, in_flat_map.
    exists x. split; by apply list_elem_of_In.
Qed.

Lemma validateConditions_reports (g : Graph) (k : string) :
  reports invalid_condition k (validateConditions g) ↔
  ∃ node c, (k, node) ∈ nodes g ∧ node_type node = quest ∧
            c ∈ conditions_of node ∧ isValidCondition c = false.
Proof.
  unfold validateConditions. rewrite reports_flat_map. split.
  - intros ([k' node] & Hin & Hrep).
    destruct (bool_decide (node_type node = quest)) eqn:Hq;
      [|by apply Exists_nil in Hrep].
    apply bool_decide_eq_true in Hq.
    apply reports_app in Hrep as [Hrep|Hrep];
      apply reports_flat_map in Hrep as (x & Hx & Hrep);
      apply condition_errors_reports in Hrep as (-> & c & Hc & Hv);
      exists node, c; (split; [done|]); (split; [done|]); (split; [|done]);
      unfold conditions_of; apply elem_of_app; [left|right];
      apply list_elem_of_In, in_flat_map; exists x; split; by apply list_elem_of_In.
  - intros (node & c & Hin & Hq & Hc & Hv). exists (k, node). split; [done|].
    rewrite bool_decide_eq_true_2 by done. apply reports_app.
    unfold conditions_of in Hc. apply elem_of_app in Hc as [Hc|Hc];
      apply list_elem_of_In, in_flat_map in Hc as (x & Hx & Hc);
      [left|right]; apply reports_flat_map; exists x;
      (split; [by apply list_elem_of_In|]);
      apply condition_errors_reports; (split; [done|]); exists c;
      (split; [by apply list_elem_of_In | done]).
Qed.



End Conditions.

Section Probabilities.
Import Js Validation Spec Samples.










End Probabilities.

Section WitnessesOfValidation.
Import Js Validation Spec Samples.



End WitnessesOfValidation.

(** * Properties of the simulation service *)

Section InitialState.
Import Js Simulation SimulationSpec SimulationSamples.

(** C10: the overrides are merged at the top level only.  A nested object
    that the caller supplies ([stats], [reputation], [alignment], [flags])
    replaces the default object as a whole, so a field it omits is absent
    from the resulting state even where the defaults have it; a top-level
    field the caller does not supply keeps its default. *)
Theorem initializePlayerState_merges_top_level_only (p : PartialPlayerState) :
  let s := initializePlayerState (Some p) in
  (∀ o, partial_stats p = Some o →
        stats s = o ∧ ∀ k, o !! k = None → stats s !! k = None) ∧
  (∀ o, partial_reputation p = Some o →
        reputation s = o ∧ ∀ k, o !! k = None → reputation s !! k = None) ∧
  (∀ o, partial_alignment p = Some o →
        alignment s = o ∧ ∀ k, o !! k = None → alignment s !! k = None) ∧
  (∀ o, partial_flags p = Some o →
        flags s = o ∧ ∀ k, o !! k = None → flags s !! k = None) ∧
  (partial_stats p = None → stats s = stats defaultState) ∧
  (partial_reputation p = None → reputation s = reputation defaultState) ∧
  (partial_alignment p = None → alignment s = alignment defaultState) ∧
  (partial_flags p = None → flags s = flags defaultState) ∧
  (partial_inventory p = None → inventory s = inventory defaultState) ∧
  (partial_quest_progress p = None → quest_progress s = quest_progress defaultState) ∧
  (partial_current_location p = None →
   current_location s = current_location defaultState) ∧
  (partial_current_quest p = None → current_quest s = current_quest defaultState) ∧
  (partial_current_dialogue p = None →
   current_dialogue s = current_dialogue defaultState).
Proof.
  simpl. repeat match goal with |- _ ∧ _ => split end;
    try (by intros ->); intros o ->; by split.
Qed.

Lemma initializePlayerState_merges_top_level_only_witness :
  partial_stats wounded = Some {[ "health" := of_Z 80 ]} ∧
  stats defaultState !! "mana" = Some (of_Z 100) ∧
  stats (initializePlayerState (Some wounded)) !! "mana" = None ∧
  reputation (initializePlayerState (Some wounded)) = reputation defaultState.
Proof.
  pose proof (initializePlayerState_merges_top_level_only wounded)
    as (Hstats & _ & _ & _ & _ & Hrep & _).
  split; [reflexivity|]. split; [reflexivity|]. split.
  - apply (Hstats {[ "health" := of_Z 80 ]}); reflexivity.
  - apply Hrep. reflexivity.
Defined.

End InitialState.

Section Passes.
Import Js Simulation SimulationSpec SimulationSamples.

Lemma addEvent_length (w : World) (evs : list SimulationEvent) (b : EventBody) :
  length (addEvent w evs b).1 = S (length evs).
Proof.
  unfold addEvent. destruct (Date_now w) as [now w1].
  destruct (Math_random w1) as [r w2]. simpl. rewrite length_app. simpl. lia.
Qed.

(** What a pass that reaches its end has done: it has selected an
    available quest [q], resolved it as [res] and taken the state through
    the four updates, and it has recorded two events at least. *)
Lemma loop_body_next (quests : list Quest) (characters : list Character)
      (request : SimulationRequest) (ls ls' : LoopState) (w w' : World) :
  loop_body quests characters request ls w = Some (Next ls' w') →
  ∃ available q w1 res,
    findAvailableQuests w quests (currentState ls) = Some available ∧
    selectNextQuest w available (currentState ls) (play_style request) = (Some q, w1) ∧
    currentState ls'
    = applyAlignmentChanges
        (applyReputationChanges
           (updateStateFromQuest
              (with_current_quest
                 (with_quest_progress
                    (currentState ls)
                    (set_in_progress (quest_progress (currentState ls)) (quest_id q)))
                 (Some (quest_id q)))
              q res)
           (calculateReputationChanges q res characters))
        (calculateAlignmentChanges q res) ∧
    (length (loop_events ls) + 2 ≤ length (loop_events ls'))%nat.
Proof.
  unfold loop_body.
  destruct (findAvailableQuests w quests (currentState ls)) as [available|]; [|done].
  destruct (_ =? _)%nat; [done|].
  destruct (selectNextQuest _ _ _ _) as [[q|] w1] eqn:Hsel; [|done].
  destruct (addEvent w1 _ _) as [events1 w2] eqn:He1.
  destruct (simulateQuest w2 q _) as [res w3].
  destruct (if result_completed res then _ else _) as [events2 w4] eqn:He2.
  destruct (if (0 <? _)%nat then _ else _) as [events3 w5] eqn:He3.
  destruct (if _ || _ then _ else _) as [events4 w6] eqn:He4.
  intros [= <- _]. exists available, q, w1, res.
  split; [done|]. split; [done|]. split; [done|]. simpl.
  assert (length events1 = S (length (loop_events ls))) as Hl1.
  { apply (f_equal (fun p => length p.1)) in He1.
    by rewrite addEvent_length in He1. }
  assert (length events2 = S (length events1)) as Hl2.
  { apply (f_equal (fun p => length p.1)) in He2.
    by destruct (result_completed res); rewrite addEvent_length in He2. }
  assert (length events2 ≤ length events3)%nat as Hl3.
  { apply (f_equal (fun p => length p.1)) in He3.
    destruct (0 <? _)%nat; [rewrite addEvent_length in He3|]; simpl in He3; lia. }
  assert (length events3 ≤ length events4)%nat as Hl4.
  { apply (f_equal (fun p => length p.1)) in He4.
    destruct (_ || _); [rewrite addEvent_length in He4|]; simpl in He4; lia. }
  lia.
Qed.

End Passes.

Section Alignment.
Import Js Simulation SimulationSpec SimulationSamples.

Lemma get_num_insert (m : gmap string num) (k : string) (v : num) :
  get_num (<[k := v]> m) k = v.
Proof. unfold get_num. by rewrite lookup_insert_eq. Qed.

Lemma get_num_insert_ne (m : gmap string num) (k k' : string) (v : num) :
  k ≠ k' → get_num (<[k := v]> m) k' = get_num m k'.
Proof. intros Hne. unfold get_num. by rewrite lookup_insert_ne. Qed.

Lemma alignment_total_changed (a : gmap string num) (changes : AlignmentChanges) :
  alignment_total
    (add_to (add_to (add_to a "good" (good changes)) "neutral" (neutral changes))
            "evil" (evil changes))
  = changed_total a changes.
Proof.
  unfold alignment_total, changed_total, add_to.
  repeat (rewrite ?get_num_insert; rewrite ?get_num_insert_ne by done). done.
Qed.

Lemma gt_zero (t : Qc) : gt (Num t) (of_Z 0) = true ↔ (0 < t)%Qc.
Proof. unfold gt, lt, of_Z. by rewrite bool_decide_eq_true. Qed.


(** Under its guard, [applyAlignmentChanges] overwrites the three
    components in turn. *)
Lemma applyAlignmentChanges_positive (state : PlayerState) (changes : AlignmentChanges)
      (t : Qc) :
  changed_total (alignment state) changes = Num t → (0 < t)%Qc →
  ∃ a3 G N,
    get_num a3 "good" = add (get_num (alignment state) "good") (good changes) ∧
    get_num a3 "neutral" = add (get_num (alignment state) "neutral") (neutral changes) ∧
    G = round (mul (div (get_num a3 "good") (Num t)) (of_Z 100)) ∧
    N = round (mul (div (get_num a3 "neutral") (Num t)) (of_Z 100)) ∧
    alignment (applyAlignmentChanges state changes)
    = <["evil" := sub (sub (of_Z 100) G) N]> (<["neutral" := N]> (<["good" := G]> a3)).
Proof.
  intros Htotal Hpos. unfold applyAlignmentChanges.
  rewrite alignment_total_changed, Htotal, (proj2 (gt_zero t) Hpos). simpl.
  exists (add_to (add_to (add_to (alignment state) "good" (good changes))
                         "neutral" (neutral changes))
                 "evil" (evil changes)).
  eexists _, _. split; [|split; [|split; [reflexivity|split; [reflexivity|]]]].
  - unfold add_to.
    repeat (rewrite ?get_num_insert; rewrite ?get_num_insert_ne by done). done.
  - unfold add_to.
    repeat (rewrite ?get_num_insert; rewrite ?get_num_insert_ne by done). done.
  - repeat (rewrite ?get_num_insert; rewrite ?get_num_insert_ne by done). done.
Qed.

(** Two rounded shares and the remainder sum to 100. *)
Lemma renormalized_total (a : gmap string num) (x y t : Qc) :
  (0 < t)%Qc →
  let G := round (mul (div (Num x) (Num t)) (of_Z 100)) in
  let N := round (mul (div (Num y) (Num t)) (of_Z 100)) in
  alignment_total
    (<["evil" := sub (sub (of_Z 100) G) N]> (<["neutral" := N]> (<["good" := G]> a)))
  = of_Z 100.
Proof.
  intros Hpos. simpl. unfold alignment_total.
  repeat (rewrite ?get_num_insert; rewrite ?get_num_insert_ne by done).
  unfold div. destruct (decide (t = 0%Qc)) as [->|_].
  { exfalso. clear -Hpos. qc_lra. }
  simpl. unfold of_Z. f_equal. ring.
Qed.



(** The changes that a quest brings are numbers that are not negative. *)
Lemma calculateAlignmentChanges_nonneg (quest : Quest) (result : QuestResult) :
  ∃ dg dn de,
    calculateAlignmentChanges quest result
    = {| good := Num dg; neutral := Num dn; evil := Num de |} ∧
    (0 <= dg)%Qc ∧ (0 <= dn)%Qc ∧ (0 <= de)%Qc.
Proof.
  unfold calculateAlignmentChanges, of_Z.
  destruct (negb _); [|repeat destruct (decide _); repeat destruct (_ || _)];
    (eexists _, _, _; split; [reflexivity|]; by repeat split).
Qed.

Lemma updateStateFromQuest_alignment (state : PlayerState) (quest : Quest)
      (result : QuestResult) :
  alignment (updateStateFromQuest state quest result) = alignment state.
Proof.
  unfold updateStateFromQuest.
  destruct (result_completed result); simpl.
  - destruct (reward_experience _) as [x|]; [destruct (truthy_num x)|];
      (destruct (reward_gold _) as [y|]; [destruct (truthy_num y)|]);
      destruct (reward_items _), (reward_flags _); simpl;
      destruct (gt _ _); reflexivity.
  - destruct (gt _ _); reflexivity.
Qed.

(** From a positive total, a pass of the loop leaves a triple that sums to
    100: the default alignment, whose total is 50, and every alignment that
    a previous pass has normalized are in that case. *)
Lemma loop_body_alignment (quests : list Quest) (characters : list Character)
      (request : SimulationRequest) (ls ls' : LoopState) (w w' : World) (t : Qc) :
  loop_body quests characters request ls w = Some (Next ls' w') →
  alignment_total (alignment (currentState ls)) = Num t → (0 < t)%Qc →
  alignment_total (alignment (currentState ls')) = of_Z 100.
Proof.
  intros (available & q & w1 & res & _ & _ & -> & _)%loop_body_next Htotal Hpos.
  destruct (calculateAlignmentChanges_nonneg q res) as (dg & dn & de & -> & Hg & Hn & He).
  match goal with
  | |- alignment_total (alignment (applyAlignmentChanges ?s ?c)) = _ =>
      assert (alignment s = alignment (currentState ls)) as Hsame
        by (unfold applyReputationChanges; simpl;
            by rewrite updateStateFromQuest_alignment);
      assert (∃ t', changed_total (alignment s) c = Num t' ∧ (0 < t')%Qc)
        as (t' & Ht' & Hpos')
  end.
  { rewrite Hsame. unfold changed_total, alignment_total in *. simpl.
    destruct (get_num (alignment (currentState ls)) "good") as [|g]; [done|].
    destruct (get_num (alignment (currentState ls)) "neutral") as [|n]; [done|].
    destruct (get_num (alignment (currentState ls)) "evil") as [|e]; [done|].
    simpl in *. injection Htotal as <-. eexists. split; [reflexivity|]. qc_lra. }
  destruct (applyAlignmentChanges_positive _ _ t' Ht' Hpos')
    as (a3 & G & N & Hg3 & Hn3 & -> & -> & ->).
  unfold changed_total in Ht'. rewrite <- Hg3, <- Hn3 in Ht'.
  destruct (get_num a3 "good") as [|g]; [done|].
  destruct (get_num a3 "neutral") as [|n]; [done|].
  by apply renormalized_total.
Qed.

End Alignment.

Section Reputation.
Import Js Simulation SimulationSpec SimulationSamples.












End Reputation.

Section Termination.
Import Js Simulation SimulationSpec SimulationSamples.

Lemma updateStateFromQuest_quest_progress (state : PlayerState) (quest : Quest)
      (result : QuestResult) :
  ∃ p, status p ≠ not_started ∧
       quest_progress (updateStateFromQuest state quest result)
       = <[quest_id quest := p]> (quest_progress state).
Proof.
  unfold updateStateFromQuest.
  destruct (result_completed result); simpl.
  - eexists {| status := completed |}. split; [done|].
    destruct (reward_experience _) as [x|]; [destruct (truthy_num x)|];
      (destruct (reward_gold _) as [y|]; [destruct (truthy_num y)|]);
      destruct (reward_items _), (reward_flags _); simpl;
      destruct (gt _ _); reflexivity.
  - eexists {| status := failed |}. split; [done|].
    destruct (gt _ _); reflexivity.
Qed.

Lemma applyAlignmentChanges_quest_progress (state : PlayerState)
      (changes : AlignmentChanges) :
  quest_progress (applyAlignmentChanges state changes) = quest_progress state.
Proof. unfold applyAlignmentChanges. by destruct (gt _ _). Qed.

Lemma selectNextQuest_available (w w' : World) (availableQuests : list Quest)
      (state : PlayerState) (playStyle : option string) (q : Quest) :
  selectNextQuest w availableQuests state playStyle = (Some q, w') →
  In q availableQuests.
Proof.
  unfold selectNextQuest. destruct availableQuests as [|first rest]; [done|].
  assert (∀ ty, In (prefer ty (first :: rest) first) (first :: rest)) as Hprefer.
  { intros ty. unfold prefer.
    destruct (find _ _) as [x|] eqn:Hfind; [|by left].
    by apply find_some in Hfind as [? _]. }
  repeat (destruct (decide _); [intros [= <- _]; apply Hprefer|]).
  destruct (Math_random w) as [r w1]. intros [= Hnth _].
  by apply nth_error_In in Hnth.
Qed.

Lemma filter_throwing_In {A : Type} (f : A -> option bool) (l r : list A) (x : A) :
  filter_throwing f l = Some r → In x r → In x l ∧ f x = Some true.
Proof.
  revert r. induction l as [|y l IH]; intros r; simpl.
  - by intros [= <-].
  - destruct (f y) as [b|] eqn:Hy; [|done].
    destruct (filter_throwing f l) as [r'|]; [|done].
    intros [= <-] Hx. destruct b.
    + destruct Hx as [<-|Hx]; [by split; [left|]|].
      destruct (IH r' eq_refl Hx). split; [by right | done].
    + destruct (IH r' eq_refl Hx). split; [by right | done].
Qed.

Lemma filter_throwing_total {A : Type} (f : A -> option bool) (l : list A) :
  (∀ x, In x l → is_Some (f x)) → is_Some (filter_throwing f l).
Proof.
  induction l as [|y l IH]; intros Hf; simpl; [eauto|].
  destruct (Hf y) as [b ->]; [by left|].
  destruct IH as [r ->]; [intros x Hx; apply Hf; by right | eauto].
Qed.

Lemma findAvailableQuests_pending (w : World) (quests available : list Quest)
      (state : PlayerState) (q : Quest) :
  findAvailableQuests w quests state = Some available →
  In q available →
  quest_id q ∈ pending quests (quest_progress state).
Proof.
  unfold findAvailableQuests. intros Hav Hq.
  destruct (filter_throwing_In _ _ _ _ Hav Hq) as [Hin Hf].
  unfold pending. apply elem_of_filter. split.
  - unfold is_pending. destruct (quest_progress state !! quest_id q) as [p|]; [|done].
    destruct (bool_decide (status p = not_started)) eqn:Hs; [|done].
    by apply bool_decide_eq_true in Hs.
  - apply elem_of_list_to_set, list_elem_of_In, in_map. done.
Qed.

Lemma findAvailableQuests_total (w : World) (quests : list Quest) (state : PlayerState) :
  all_tracked quests (quest_progress state) →
  is_Some (findAvailableQuests w quests state).
Proof.
  intros Hall. apply filter_throwing_total. intros q Hq.
  destruct (Hall q Hq) as [p ->]. destruct (bool_decide _); [|eauto].
  destruct (prerequisites q) as [[|? ?]|]; eauto.
Qed.

(** A pass of the loop takes the selected quest out of the pending ones,
    brings none in, and keeps every progress entry. *)
Lemma loop_body_pending (quests : list Quest) (characters : list Character)
      (request : SimulationRequest) (ls ls' : LoopState) (w w' : World) :
  loop_body quests characters request ls w = Some (Next ls' w') →
  (size (pending quests (quest_progress (currentState ls')))
   < size (pending quests (quest_progress (currentState ls))))%nat ∧
  (all_tracked quests (quest_progress (currentState ls)) →
   all_tracked quests (quest_progress (currentState ls'))).
Proof.
  intros (available & q & w1 & res & Hav & Hsel & -> & _)%loop_body_next.
  apply selectNextQuest_available in Hsel.
  apply (findAvailableQuests_pending _ _ _ _ _ Hav) in Hsel.
  rewrite applyAlignmentChanges_quest_progress. unfold applyReputationChanges. simpl.
  match goal with
  | |- context [updateStateFromQuest ?s q res] =>
      destruct (updateStateFromQuest_quest_progress s q res) as (p & Hp & ->)
  end.
  simpl. split.
  - apply subset_size. apply strict_spec_alt. split.
    + intros k [Hk Hin]%elem_of_filter. apply elem_of_filter. split; [|done].
      unfold is_pending, set_in_progress in *.
      destruct (decide (k = quest_id q)) as [->|Hne].
      * rewrite lookup_insert_eq in Hk. done.
      * rewrite lookup_insert_ne, lookup_alter_ne in Hk by done. done.
    + intros Heq. assert (quest_id q ∈ pending quests
                            (<[quest_id q := p]>
                               (set_in_progress (quest_progress (currentState ls))
                                                (quest_id q)))) as Hin.
      { unfold pending in *. rewrite Heq. exact Hsel. }
      apply elem_of_filter in Hin as [Hin _]. unfold is_pending in Hin.
      rewrite lookup_insert_eq in Hin. done.
  - intros Hall q' Hq'. destruct (decide (quest_id q' = quest_id q)) as [->|Hne].
    + rewrite lookup_insert_eq. eauto.
    + rewrite lookup_insert_ne by done. unfold set_in_progress.
      rewrite lookup_alter_ne by done. by apply Hall.
Qed.

Lemma simulation_loop_total (quests : list Quest) (characters : list Character)
      (request : SimulationRequest) (fuel : nat) :
  ∀ ls w, (size (pending quests (quest_progress (currentState ls))) < fuel)%nat →
          all_tracked quests (quest_progress (currentState ls)) →
          is_Some (simulation_loop fuel quests characters request ls w).
Proof.
  induction fuel as [|fuel IH]; intros ls w Hfuel Hall; [lia|]. simpl.
  destruct (lt _ _); [|eauto].
  destruct (loop_body quests characters request ls w) as [[|ls' w']|] eqn:Hbody.
  - eauto.
  - apply loop_body_pending in Hbody as [Hsize Hall']. apply IH; [lia | by apply Hall'].
  - exfalso. unfold loop_body in Hbody.
    destruct (findAvailableQuests_total w quests (currentState ls) Hall) as [av Hav].
    rewrite Hav in Hbody. destruct (_ =? _)%nat; [done|].
    destruct (selectNextQuest _ _ _ _) as [[q|] w1]; [|done].
    destruct (addEvent w1 _ _) as [events1 w2].
    destruct (simulateQuest w2 q _) as [res w3].
    destruct (if result_completed res then _ else _) as [events2 w4].
    destruct (if (0 <? _)%nat then _ else _) as [events3 w5].
    destruct (if _ || _ then _ else _) as [events4 w6]. done.
Qed.

Lemma init_quest_progress_tracked (quests : list Quest) (qp : gmap string QuestProgress) :
  all_tracked quests (init_quest_progress quests qp).
Proof.
  unfold all_tracked, init_quest_progress.
  assert (∀ (l : list Quest) (qp0 : gmap string QuestProgress) (k : string),
            is_Some (qp0 !! k) →
            is_Some (fold_left
                       (fun (qp1 : gmap string QuestProgress) (quest : Quest) =>
                          <[quest_id quest := {| status := not_started; progress := of_Z 0;
                                                 objectives := ∅ |}]> qp1) l qp0 !! k))
    as Hkeep.
  { induction l as [|x l IH]; intros qp0 k Hk; simpl; [done|].
    apply IH. destruct (decide (quest_id x = k)) as [->|Hne].
    - rewrite lookup_insert_eq. eauto.
    - by rewrite lookup_insert_ne. }
  revert qp. induction quests as [|x l IH]; intros qp q Hq; simpl; [done|].
  destruct Hq as [<-|Hq]; [|by apply IH].
  apply Hkeep. rewrite lookup_insert_eq. eauto.
Qed.

Lemma size_list_to_set_le (l : list string) :
  (size (list_to_set l : gset string) ≤ length l)%nat.
Proof.
  induction l as [|k ks IH].
  - change (list_to_set [] : gset string) with (∅ : gset string).
    by rewrite size_empty.
  - change (list_to_set (k :: ks) : gset string)
      with ({[k]} ∪ list_to_set ks : gset string).
    rewrite size_union_alt, size_singleton.
    assert (size (list_to_set ks ∖ {[k]} : gset string)
            ≤ size (list_to_set ks : gset string))%nat
      by (apply subseteq_size; set_solver).
    simpl. lia.
Qed.

Lemma pending_bound (quests : list Quest) (qp : gmap string QuestProgress) :
  (size (pending quests qp) ≤ length quests)%nat.
Proof.
  unfold pending.
  etransitivity; [apply subseteq_size; intros k [_ Hk]%elem_of_filter; exact Hk|].
  rewrite <- (length_map quest_id quests). apply size_list_to_set_le.
Qed.

(** The budget of [length quests + 1] passes is never exhausted: a run
    always returns its result. *)
Lemma runSimulation_total (w : World) (initialState : PlayerState) (quests : list Quest)
      (dialogues : list Dialogue) (characters : list Character)
      (request : SimulationRequest) :
  is_Some (runSimulation w initialState quests dialogues characters request).
Proof.
  unfold runSimulation. destruct (Date_now w) as [startTime w0].
  match goal with
  | |- context [simulation_loop ?f quests characters request ?ls w0] =>
      destruct (simulation_loop_total quests characters request f ls w0)
        as [[ls' w1] ->]
  end.
  - simpl. pose proof (pending_bound quests
                         (init_quest_progress quests (quest_progress initialState))). lia.
  - apply init_quest_progress_tracked.
  - destruct (Date_now w1) as [endTime w2]. destruct (Date_now w2) as [createdAt w3].
    eauto.
Qed.

Lemma createSimulation_total (w : World) (request : SimulationRequest)
      (quests : list Quest) (dialogues : list Dialogue) (characters : list Character)
      (saved_id : string) :
  is_Some (createSimulation w request quests dialogues characters saved_id).
Proof.
  unfold createSimulation. destruct (Date_now w) as [t w0].
  destruct (runSimulation_total w0 (initializePlayerState (initial_state request))
                                quests dialogues characters request) as [[r w1] ->].
  eauto.
Qed.

End Termination.

Section WitnessesOfSimulation.
Import Js Simulation SimulationSpec SimulationSamples.


End WitnessesOfSimulation.

Section ZeroDuration.
Import Js Simulation SimulationSpec SimulationSamples.

Lemma updateStateFromQuest_current_quest (state : PlayerState) (quest : Quest)
      (result : QuestResult) :
  current_quest (updateStateFromQuest state quest result) = current_quest state.
Proof.
  unfold updateStateFromQuest.
  destruct (result_completed result); simpl.
  - destruct (reward_experience _) as [x|]; [destruct (truthy_num x)|];
      (destruct (reward_gold _) as [y|]; [destruct (truthy_num y)|]);
      destruct (reward_items _), (reward_flags _); simpl;
      destruct (gt _ _); reflexivity.
  - destruct (gt _ _); reflexivity.
Qed.

Lemma applyAlignmentChanges_current_quest (state : PlayerState)
      (changes : AlignmentChanges) :
  current_quest (applyAlignmentChanges state changes) = current_quest state.
Proof. unfold applyAlignmentChanges. by destruct (gt _ _). Qed.

(** A pass of the loop records two events at least and leaves a current
    quest. *)
Lemma loop_body_progress (quests : list Quest) (characters : list Character)
      (request : SimulationRequest) (ls ls' : LoopState) (w w' : World) :
  loop_body quests characters request ls w = Some (Next ls' w') →
  (length (loop_events ls) + 2 ≤ length (loop_events ls'))%nat ∧
  is_Some (current_quest (currentState ls')).
Proof.
  intros (available & q & w1 & res & _ & _ & -> & Hev)%loop_body_next.
  split; [done|].
  rewrite applyAlignmentChanges_current_quest. unfold applyReputationChanges. simpl.
  rewrite updateStateFromQuest_current_quest. simpl. eauto.
Qed.

(** Once a quest is selected, the pass runs to its end. *)
Lemma loop_body_runs (quests : list Quest) (characters : list Character)
      (request : SimulationRequest) (ls : LoopState) (w : World)
      (available : list Quest) (q : Quest) (w1 : World) :
  findAvailableQuests w quests (currentState ls) = Some available →
  selectNextQuest w available (currentState ls) (play_style request) = (Some q, w1) →
  ∃ ls' w', loop_body quests characters request ls w = Some (Next ls' w').
Proof.
  intros Hav Hsel. unfold loop_body. rewrite Hav.
  destruct available as [|q0 qs]; [done|].
  rewrite Hsel. cbn [length Nat.eqb].
  destruct (addEvent w1 _ _) as [events1 w2].
  destruct (simulateQuest w2 q _) as [res w3].
  destruct (if result_completed res then _ else _) as [events2 w4].
  destruct (if (0 <? _)%nat then _ else _) as [events3 w5].
  destruct (if _ || _ then _ else _) as [events4 w6]. eauto.
Qed.

Lemma simulation_loop_step (quests : list Quest) (characters : list Character)
      (request : SimulationRequest) (fuel : nat) (ls : LoopState) (w : World) :
  simulation_loop (S fuel) quests characters request ls w
  = if lt (currentTime ls) (time_budget request) then
      match loop_body quests characters request ls w with
      | Some (Next ls' w') => simulation_loop fuel quests characters request ls' w'
      | Some Break => Some (ls, w)
      | None => None
      end
    else Some (ls, w).
Proof. reflexivity. Qed.

Lemma simulation_loop_progress (quests : list Quest) (characters : list Character)
      (request : SimulationRequest) (fuel : nat) :
  ∀ ls w ls' w',
    simulation_loop fuel quests characters request ls w = Some (ls', w') →
    (length (loop_events ls) ≤ length (loop_events ls'))%nat ∧
    (is_Some (current_quest (currentState ls)) →
     is_Some (current_quest (currentState ls'))).
Proof.
  induction fuel as [|fuel IH]; intros ls w ls' w'; simpl; [done|].
  destruct (lt _ _); [|by intros [= <- <-]].
  destruct (loop_body quests characters request ls w) as [[|ls1 w1]|] eqn:Hbody;
    [by intros [= <- <-] | | done].
  intros Hrest. apply IH in Hrest as [Hev Hcq].
  apply loop_body_progress in Hbody as [Hev1 Hcq1]. split; [lia|]. intros _. by apply Hcq.
Qed.

(** A run whose time budget is positive and whose first pass does not
    break has events, and its final state has a current quest, which its
    initial state, if it had none, still lacks. *)
Lemma runSimulation_first_pass (w : World) (initialState : PlayerState)
      (quests : list Quest) (dialogues : list Dialogue) (characters : list Character)
      (request : SimulationRequest) :
  lt (of_Z 0) (time_budget request) = true →
  (∀ w0, ∃ ls' w', loop_body quests characters request
                             (loop_entry initialState quests) w0
                   = Some (Next ls' w')) →
  ∃ r w', runSimulation w initialState quests dialogues characters request
          = Some (r, w') ∧
          (2 ≤ length (events r))%nat ∧
          is_Some (current_quest (final_state r)) ∧
          current_quest (result_initial_state r) = current_quest initialState.
Proof.
  intros Hbudget Hfirst.
  destruct (runSimulation_total w initialState quests dialogues characters request)
    as [[r w'] Hrun].
  exists r, w'. split; [done|]. revert Hrun. unfold runSimulation.
  destruct (Date_now w) as [startTime w0].
  destruct (simulation_loop _ _ _ _ _ _) as [[ls w1]|] eqn:Hloop; [|done].
  destruct (Date_now w1) as [endTime w2]. destruct (Date_now w2) as [createdAt w3].
  intros [= <- _]. simpl.
  rewrite simulation_loop_step in Hloop.
  change (currentTime (loop_entry initialState quests)) with (of_Z 0) in Hloop.
  rewrite Hbudget in Hloop.
  destruct (Hfirst w0) as (ls1 & w1' & Hbody). rewrite Hbody in Hloop.
  apply loop_body_progress in Hbody as [Hev1 Hcq1].
  apply simulation_loop_progress in Hloop as [Hev Hcq].
  split; [simpl in Hev1; lia|]. split; [by apply Hcq | done].
Qed.

(** C1 on a request whose [max_duration] is 0 and a story arc with one
    quest: the budget [(max_duration || 60) * 60] is 3600 seconds, so,
    whatever the random draws and the clock are, the loop runs, the result
    has events and its final state differs from its initial state. *)
Theorem zero_max_duration_runs_the_loop (w : World) :
  max_duration zero_duration_request = Some (of_Z 0) ∧
  time_budget zero_duration_request = of_Z 3600 ∧
  ∃ r w', createSimulation w zero_duration_request [patrol] [] [] "id" = Some (r, w') ∧
          (2 ≤ length (events r))%nat ∧
          final_state r ≠ result_initial_state r.
Proof.
  split; [reflexivity|]. split; [vm_compute; f_equal; by apply Qc_is_canon|].
  unfold createSimulation. destruct (Date_now w) as [t w0].
  destruct (runSimulation_first_pass
              w0 (initializePlayerState (initial_state zero_duration_request))
              [patrol] [] [] zero_duration_request) as (r & w' & -> & Hev & Hcq & Hinit).
  - by vm_compute.
  - intros w1. apply (loop_body_runs _ _ _ _ w1 [patrol] patrol w1).
    + vm_compute. reflexivity.
    + reflexivity.
  - eexists _, w'. split; [reflexivity|]. simpl. split; [done|].
    intros Heq. apply (f_equal current_quest) in Heq. simpl in Heq.
    rewrite Hinit in Heq. destruct Hcq as [q Hq]. rewrite Hq in Heq. discriminate Heq.
Qed.

End ZeroDuration.

(** * Further properties of the validation service *)

Section Reachability.
Import Js Validation Spec GraphSpec.

Variable ns : list (string * Node).

(** The search over a list of nodes, given what one search does. *)
Lemma for_each_dfs (fuel : nat) :
  (∀ n V V', dfs fuel ns n V = Some V' →
             V ⊆ V' ∧ n ∈ V' ∧
             (∀ x, x ∈ V' → x ∉ V → rtc (edge ns) n x) ∧
             (∀ x y, x ∈ V' → x ∉ V → edge ns x y → y ∈ V')) →
  ∀ cs W W', for_each (dfs fuel ns) cs W = Some W' →
             W ⊆ W' ∧ (∀ c, c ∈ cs → c ∈ W') ∧
             (∀ x, x ∈ W' → x ∉ W → ∃ c, c ∈ cs ∧ rtc (edge ns) c x) ∧
             (∀ x y, x ∈ W' → x ∉ W → edge ns x y → y ∈ W').
Proof.
  intros Hdfs. induction cs as [|c cs IH]; intros W W'; simpl.
  - intros [= <-]. split; [done|]. split; [by intros c ?%elem_of_nil|].
    split; intros; done.
  - destruct (dfs fuel ns c W) as [W1|] eqn:Hc; [|done]. intros Hrest.
    destruct (Hdfs c W W1 Hc) as (Hsub1 & Hc1 & Hreach1 & Hclosed1).
    destruct (IH W1 W' Hrest) as (Hsub & Hall & Hreach & Hclosed).
    split; [by etransitivity|]. split.
    { intros x [->|Hx]%elem_of_cons; [by apply Hsub | by apply Hall]. }
    split.
    + intros x Hx HxW. destruct (decide (x ∈ W1)) as [Hin|Hout].
      * exists c. split; [left | by apply Hreach1].
      * destruct (Hreach x Hx Hout) as (c' & Hc' & Hpath).
        exists c'. split; [by right | done].
    + intros x y Hx HxW Hxy. destruct (decide (x ∈ W1)) as [Hin|Hout].
      * apply Hsub. by apply (Hclosed1 x y).
      * by apply (Hclosed x y).
Qed.

(** One search marks the node it starts from, marks only nodes that can
    be reached from it, and leaves every newly marked node with all its
    successors marked. *)
Lemma dfs_spec (fuel : nat) :
  ∀ n V V', dfs fuel ns n V = Some V' →
            V ⊆ V' ∧ n ∈ V' ∧
            (∀ x, x ∈ V' → x ∉ V → rtc (edge ns) n x) ∧
            (∀ x y, x ∈ V' → x ∉ V → edge ns x y → y ∈ V').
Proof.
  induction fuel as [|fuel IH]; intros n V V'; simpl; [done|].
  destruct (decide (n ∈ V)) as [Hin|Hout].
  - intros [= <-]. split; [done|]. split; [done|]. split; intros; done.
  - intros Hrun.
    destruct (for_each_dfs fuel IH _ _ _ Hrun) as (Hsub & Hall & Hreach & Hclosed).
    split; [set_solver|]. split; [set_solver|]. split.
    + intros x Hx HxV. destruct (decide (x = n)) as [->|Hne]; [done|].
      destruct (Hreach x Hx) as (c & Hc & Hpath); [set_solver|].
      by apply (rtc_l _ n c).
    + intros x y Hx HxV Hxy. destruct (decide (x = n)) as [->|Hne].
      * by apply Hall.
      * apply (Hclosed x y); [done | set_solver | done].
Qed.

(** The start points are the identifiers the search is launched from. *)
Lemma start_ids (s : string) :
  s ∈ map node_id
        (filter (fun node => node_type node = story_arc ∧ length (incoming node) = 0%nat)
                (map snd ns))
  ↔ start ns s.
Proof.
  unfold start. split.
  - intros (node & -> & Hnode)%list_elem_of_fmap.
    apply list_elem_of_filter in Hnode as [[Hty Hlen] Hin].
    apply list_elem_of_fmap in Hin as ([k node'] & -> & Hin).
    exists k, node'. split; [done|]. split; [done|]. split; [|done].
    by apply nil_length_inv.
  - intros (k & node & Hin & Hty & Hinc & <-).
    apply list_elem_of_fmap. exists node. split; [done|].
    apply list_elem_of_filter. split; [by rewrite Hinc|].
    apply list_elem_of_fmap. by exists (k, node).
Qed.

End Reachability.

Section Unreachable.
Import Js Validation Spec GraphSpec.

(** The reachability pass answers, and reports the nodes that no path
    from a start point leads to. *)
Lemma detectUnreachableNodes_reports (g : Graph) :
  ∃ errs, detectUnreachableNodes g = Some errs ∧
          ∀ k, reports unreachable k errs ↔
               (∃ node, (k, node) ∈ nodes g) ∧ ¬ reachable (nodes g) k.
Proof.
  destruct (detectUnreachableNodes_total g) as (errs & Herrs & _).
  exists errs. split; [done|].
  unfold detectUnreachableNodes in Herrs.
  destruct (for_each _ _ _) as [V|] eqn:Hrun; [|done].
  injection Herrs as <-.
  destruct (for_each_dfs (nodes g) _ (dfs_spec (nodes g) _) _ _ _ Hrun)
    as (_ & Hall & Hreach & Hclosed).
  assert (∀ x, x ∈ V ↔ reachable (nodes g) x) as HV.
  { intros x. split.
    - intros Hx. destruct (Hreach x Hx) as (s & Hs & Hpath); [set_solver|].
      exists s. split; [by apply start_ids | done].
    - intros (s & Hs & Hpath). apply start_ids, Hall in Hs.
      induction Hpath as [|a b c Hab _ IH]; [done|].
      apply IH. apply (Hclosed a b); [done | set_solver | done]. }
  intros k. unfold reports. rewrite list.Exists_exists. split.
  - intros (e & He & Hty & Hk).
    apply list_elem_of_In, in_flat_map in He as ([k' node] & Hin & He).
    destruct (decide (k' ∈ V)) as [|Hout]; [done|].
    destruct He as [<-|[]]. simpl in Hk. injection Hk as ->.
    split; [exists node; by apply list_elem_of_In|]. by rewrite <- HV.
  - intros [[node Hnode] Hout]. rewrite <- HV in Hout.
    eexists. split.
    + apply list_elem_of_In, in_flat_map. exists (k, node).
      split; [by apply list_elem_of_In|]. rewrite decide_False by done. by left.
    + done.
Qed.

(** Whole-graph validation answers with the findings of its two
    traversals and those of its four scans. *)
Lemma validateGraph_passes (g : Graph) :
  ∃ unreachableErrors circularErrors,
    detectUnreachableNodes g = Some unreachableErrors ∧
    detectCircularDependencies g = Some circularErrors ∧
    typed unreachable error unreachableErrors ∧
    typed circular_dependency error circularErrors ∧
    validateGraph g = Some (graph_report g unreachableErrors circularErrors).
Proof.
  destruct (detectUnreachableNodes_total g) as (un & Hun & Hunt).
  destruct (detectCircularDependencies_correct g) as (ci & Hci & Hcit & _).
  exists un, ci. split; [done|]. split; [done|]. split; [done|]. split; [done|].
  unfold validateGraph, graph_report. rewrite Hun, Hci.
  pose proof (detectOrphanNodes_typed g) as Ho.
  pose proof (detectBrokenChains_typed g) as Hb.
  pose proof (validatePrerequisites_typed g) as Hp.
  pose proof (validateConditions_typed g) as Hc.
  rewrite (typed_filter_other _ _ error _ Ho), (typed_filter_same _ _ _ Ho) by done.
  rewrite (typed_filter_other _ _ warning _ Hunt), (typed_filter_same _ _ _ Hunt) by done.
  rewrite (typed_filter_other _ _ warning _ Hb), (typed_filter_same _ _ _ Hb) by done.
  rewrite (typed_filter_other _ _ warning _ Hcit), (typed_filter_same _ _ _ Hcit) by done.
  rewrite (typed_filter_other _ _ warning _ Hp), (typed_filter_same _ _ _ Hp) by done.
  rewrite (typed_filter_other _ _ warning _ Hc), (typed_filter_same _ _ _ Hc) by done.
  simpl. by rewrite app_nil_r.
Qed.

(** The findings of a category in the errors of a report are those of the
    pass that emits the category. *)
Lemma graph_report_reports (g : Graph) (un ci : list ValidationError) (k : string) :
  typed unreachable error un → typed circular_dependency error ci →
  (reports unreachable k (errors (graph_report g un ci)) ↔ reports unreachable k un) ∧
  (reports broken_chain k (errors (graph_report g un ci))
   ↔ reports broken_chain k (detectBrokenChains g)) ∧
  (reports missing_prerequisites k (errors (graph_report g un ci))
   ↔ reports missing_prerequisites k (validatePrerequisites g)).
Proof.
  intros Hun Hci. simpl. rewrite !reports_app.
  pose proof (detectBrokenChains_typed g) as Hb.
  pose proof (validatePrerequisites_typed g) as Hp.
  pose proof (validateConditions_typed g) as Hc.
  split; [|split].
  - pose proof (reports_typed _ unreachable _ k _ Hb ltac:(done)).
    pose proof (reports_typed _ unreachable _ k _ Hci ltac:(done)).
    pose proof (reports_typed _ unreachable _ k _ Hp ltac:(done)).
    pose proof (reports_typed _ unreachable _ k _ Hc ltac:(done)). tauto.
  - pose proof (reports_typed _ broken_chain _ k _ Hun ltac:(done)).
    pose proof (reports_typed _ broken_chain _ k _ Hci ltac:(done)).
    pose proof (reports_typed _ broken_chain _ k _ Hp ltac:(done)).
    pose proof (reports_typed _ broken_chain _ k _ Hc ltac:(done)). tauto.
  - pose proof (reports_typed _ missing_prerequisites _ k _ Hun ltac:(done)).
    pose proof (reports_typed _ missing_prerequisites _ k _ Hci ltac:(done)).
    pose proof (reports_typed _ missing_prerequisites _ k _ Hb ltac:(done)).
    pose proof (reports_typed _ missing_prerequisites _ k _ Hc ltac:(done)). tauto.
Qed.

(** X1: Whole-graph validation reports a node as unreachable exactly when no
    path along the [outgoing] arrays leads to it from a story arc that has
    no incoming connection. *)
Theorem unreachable_iff_no_path_from_start (g : Graph) :
  ∃ r, validateGraph g = Some r ∧
       ∀ k, reports unreachable k (errors r) ↔
            (∃ node, (k, node) ∈ nodes g) ∧ ¬ reachable (nodes g) k.
Proof.
  destruct (validateGraph_passes g) as (un & ci & Hun & _ & Hunt & Hcit & ->).
  destruct (detectUnreachableNodes_reports g) as (un' & Hun' & Hrep).
  rewrite Hun in Hun'. injection Hun' as <-.
  eexists. split; [done|]. intros k.
  rewrite (proj1 (graph_report_reports g un ci k Hunt Hcit)). apply Hrep.
Qed.

End Unreachable.

Section BuiltNodes.
Import Js Validation Spec GraphSpec.

(** A sequence of [Map.set]: a key that is set holds the node of one of
    the records that set it, any other key holds what it held. *)
Lemma fold_set_get {A : Type} (key : A -> string) (mk : A -> Node) (l : list A) :
  ∀ (ns : list (string * Node)) (k : string),
    (k ∉ map key l →
     map_get (fold_left (fun ns x => map_set ns (key x) (mk x)) l ns) k = map_get ns k) ∧
    (k ∈ map key l →
     ∃ x, x ∈ l ∧ key x = k ∧
          map_get (fold_left (fun ns x => map_set ns (key x) (mk x)) l ns) k
          = Some (mk x)).
Proof.
  induction l as [|x l IH]; intros ns k; simpl.
  - split; [done | by intros ?%elem_of_nil].
  - destruct (IH (map_set ns (key x) (mk x)) k) as [IHout IHin].
    destruct (decide (k ∈ map key l)) as [Hin|Hout].
    + split; [intros Hk; exfalso; apply Hk; by right|]. intros _.
      destruct (IHin Hin) as (y & Hy & Hkey & Hget). exists y. split; [by right | done].
    + rewrite (IHout Hout), map_get_set. split.
      * intros Hk. rewrite decide_False; [done|]. intros <-. apply Hk. left.
      * intros [->|Hk]%elem_of_cons; [|done].
        exists x. split; [left|]. split; [done|]. by rewrite decide_True.
Qed.

Lemma fold_set_keys {A : Type} (key : A -> string) (mk : A -> Node) (l : list A) :
  ∀ ns : list (string * Node),
    NoDup (map fst ns) →
    NoDup (map fst (fold_left (fun ns x => map_set ns (key x) (mk x)) l ns)) ∧
    ∀ k, k ∈ map fst (fold_left (fun ns x => map_set ns (key x) (mk x)) l ns)
         ↔ k ∈ map key l ∨ k ∈ map fst ns.
Proof.
  induction l as [|x l IH]; intros ns Hns; simpl.
  - split; [done|]. intros k. split; [by right|]. by intros [?%elem_of_nil|].
  - destruct (map_set_keys ns (key x) (mk x) Hns) as [Hnd Hkeys].
    destruct (IH _ Hnd) as [Hnd' Hkeys']. split; [done|].
    intros k. rewrite Hkeys', Hkeys, elem_of_cons. tauto.
Qed.

(** The nodes before the wiring: the keys are the identifiers of the
    records, without repetition; under an identifier that several kinds of
    records share, a dialogue has replaced a quest, and a quest a story
    arc. *)
Lemma initial_nodes_spec (storyArcs : list StoryArc) (quests : list Quest)
      (dialogues : list Dialogue) :
  let ns := initial_nodes storyArcs quests dialogues in
  NoDup (map fst ns) ∧
  (∀ k, k ∈ map fst ns ↔ k ∈ identifiers storyArcs quests dialogues) ∧
  ∀ k node, map_get ns k = Some node →
            (∃ d, d ∈ dialogues ∧ dialogue_id d = k ∧ node = dialogue_node d) ∨
            ((k ∉ map dialogue_id dialogues) ∧
             ∃ q, q ∈ quests ∧ quest_id q = k ∧ node = quest_node q) ∨
            ((k ∉ map dialogue_id dialogues) ∧ (k ∉ map quest_id quests) ∧
             ∃ a, a ∈ storyArcs ∧ arc_id a = k ∧ node = arc_node a).
Proof.
  intros ns. subst ns. unfold initial_nodes.
  set (n1 := fold_left (fun ns a => map_set ns (arc_id a) (arc_node a)) storyArcs []).
  set (n2 := fold_left (fun ns q => map_set ns (quest_id q) (quest_node q)) quests n1).
  destruct (fold_set_keys arc_id arc_node storyArcs [] ltac:(constructor)) as [Hnd1 Hk1].
  destruct (fold_set_keys quest_id quest_node quests n1 Hnd1) as [Hnd2 Hk2].
  destruct (fold_set_keys dialogue_id dialogue_node dialogues n2 Hnd2) as [Hnd3 Hk3].
  split; [done|]. split.
  - intros k. rewrite Hk3. unfold n2. rewrite Hk2. unfold n1. rewrite Hk1.
    unfold identifiers. rewrite !elem_of_app. simpl. rewrite elem_of_nil. tauto.
  - intros k node Hnode.
    destruct (fold_set_get dialogue_id dialogue_node dialogues n2 k) as [Hout3 Hin3].
    destruct (decide (k ∈ map dialogue_id dialogues)) as [Hd|Hd].
    { destruct (Hin3 Hd) as (d & Hdin & Hkey & Hget). rewrite Hget in Hnode.
      injection Hnode as <-. left. eauto. }
    rewrite (Hout3 Hd) in Hnode. right.
    destruct (fold_set_get quest_id quest_node quests n1 k) as [Hout2 Hin2].
    fold n2 in Hout2, Hin2.
    destruct (decide (k ∈ map quest_id quests)) as [Hq|Hq].
    { destruct (Hin2 Hq) as (q & Hqin & Hkey & Hget). rewrite Hget in Hnode.
      injection Hnode as <-. left. eauto. }
    rewrite (Hout2 Hq) in Hnode. right.
    destruct (fold_set_get arc_id arc_node storyArcs [] k) as [Hout1 Hin1].
    fold n1 in Hout1, Hin1.
    destruct (decide (k ∈ map arc_id storyArcs)) as [Ha|Ha].
    { destruct (Hin1 Ha) as (a & Hain & Hkey & Hget). rewrite Hget in Hnode.
      injection Hnode as <-. eauto 10. }
    by rewrite (Hout1 Ha) in Hnode.
Qed.

Lemma same_kinds_refl (ns : list (string * Node)) : same_kinds ns ns.
Proof. by split. Qed.

Lemma same_kinds_trans (ns1 ns2 ns3 : list (string * Node)) :
  same_kinds ns1 ns2 → same_kinds ns2 ns3 → same_kinds ns1 ns3.
Proof.
  intros [Hk1 Hd1] [Hk2 Hd2]. split; [congruence|]. intros k. by rewrite Hd2, Hd1.
Qed.

Lemma addEdgeToNodes_same_kinds (ns : list (string * Node)) (s t : string) :
  same_kinds ns (addEdgeToNodes ns s t).
Proof.
  unfold addEdgeToNodes. split.
  - by rewrite !map_update_keys.
  - intros k. rewrite !map_get_update.
    destruct (decide (t = k)), (decide (s = k)); by destruct (map_get ns k).
Qed.

(** A loop over records that keeps a property of the graph at each step
    keeps it. *)
Lemma fold_left_keeps {A : Type} (I : Graph -> Prop) (step : Graph -> A -> Graph)
      (l : list A) :
  (∀ g x, x ∈ l → I g → I (step g x)) → ∀ g, I g → I (fold_left step l g).
Proof.
  induction l as [|x l IH]; intros Hstep g Hg; simpl; [done|].
  apply IH.
  - intros g' y Hy. apply Hstep. by right.
  - apply Hstep; [left | done].
Qed.

Lemma quest_edges_keeps (I : Graph -> Prop) (q : Quest) :
  (∀ g e t, I g → I (connect g e (quest_id q) t)) →
  (∀ g e p, p ∈ opt_list (prerequisites q) → I g →
            I (connect g e (prereq_id p) (quest_id q))) →
  ∀ g, I g → I (quest_edges g q).
Proof.
  intros Hown Hpre g Hg. unfold quest_edges.
  apply fold_left_keeps.
  { intros g' o _ Hg'. destruct (nextQuestId o) as [next|]; [|done].
    destruct (truthy_str next); [by apply Hown | done]. }
  apply fold_left_keeps.
  { intros g' p Hp Hg'. by apply Hpre. }
  destruct (storyArcId q) as [arc|]; [|done].
  destruct (truthy_str arc); [by apply Hown | done].
Qed.

Lemma dialogue_edges_keeps (I : Graph -> Prop) (d : Dialogue) :
  (∀ g e t, I g → I (connect g e (dialogue_id d) t)) →
  ∀ g, I g → I (dialogue_edges g d).
Proof.
  intros Hown g Hg. unfold dialogue_edges.
  destruct (questId d) as [qid|]; [|done].
  destruct (truthy_str qid); [by apply Hown | done].
Qed.

(** A property of the nodes that every wiring keeps holds of the built
    graph as soon as it holds before the wiring. *)
Lemma buildGraph_keeps (I : Graph -> Prop) (storyArcs : list StoryArc)
      (quests : list Quest) (dialogues : list Dialogue) :
  (∀ g e s t,
      (s ∈ map quest_id quests ∨ s ∈ map dialogue_id dialogues ∨
       ∃ q p, q ∈ quests ∧ p ∈ opt_list (prerequisites q) ∧ s = prereq_id p) →
      I g → I (connect g e s t)) →
  I {| nodes := initial_nodes storyArcs quests dialogues; edges := [] |} →
  I (buildGraph storyArcs quests dialogues).
Proof.
  intros Hstep H0. unfold buildGraph.
  apply fold_left_keeps.
  { intros g d Hd Hg. apply dialogue_edges_keeps; [|done].
    intros g' e t. apply Hstep. right. left.
    apply list_elem_of_fmap. by exists d. }
  apply fold_left_keeps; [|exact H0].
  intros g q Hq Hg. apply quest_edges_keeps; [| |done].
  - intros g' e t. apply Hstep. left. apply list_elem_of_fmap. by exists q.
  - intros g' e p Hp. apply Hstep. right. right. by exists q, p.
Qed.

Lemma buildGraph_same_kinds (storyArcs : list StoryArc) (quests : list Quest)
      (dialogues : list Dialogue) :
  same_kinds (initial_nodes storyArcs quests dialogues)
             (nodes (buildGraph storyArcs quests dialogues)).
Proof.
  apply (buildGraph_keeps
           (fun g => same_kinds (initial_nodes storyArcs quests dialogues) (nodes g))).
  - intros g e s t _ Hg. eapply same_kinds_trans; [exact Hg|].
    apply addEdgeToNodes_same_kinds.
  - apply same_kinds_refl.
Qed.

(** The nodes of a built graph: one per identifier, stored under it and
    carrying it, of the kind of the last record that set it. *)
Lemma buildGraph_nodes (storyArcs : list StoryArc) (quests : list Quest)
      (dialogues : list Dialogue) :
  let ns := nodes (buildGraph storyArcs quests dialogues) in
  NoDup (map fst ns) ∧
  (∀ k, k ∈ map fst ns ↔ k ∈ identifiers storyArcs quests dialogues) ∧
  ∀ k node, (k, node) ∈ ns →
            map_get ns k = Some node ∧ node_id node = k ∧
            ((node_type node = dialogue ∧ k ∈ map dialogue_id dialogues) ∨
             (node_type node = quest ∧ (k ∉ map dialogue_id dialogues) ∧
              ∃ q, q ∈ quests ∧ quest_id q = k ∧ data node = QuestData q) ∨
             (node_type node = story_arc ∧ (k ∉ map dialogue_id dialogues) ∧
              (k ∉ map quest_id quests) ∧ k ∈ map arc_id storyArcs)).
Proof.
  simpl. destruct (buildGraph_same_kinds storyArcs quests dialogues) as [Hkeys Hkind].
  destruct (initial_nodes_spec storyArcs quests dialogues) as (Hnd & Hids & Hinit).
  rewrite Hkeys. split; [done|]. split; [done|].
  intros k node Hin.
  assert (map_get (nodes (buildGraph storyArcs quests dialogues)) k = Some node) as Hget.
  { apply map_get_unique; [by rewrite Hkeys | done]. }
  split; [done|]. specialize (Hkind k). rewrite Hget in Hkind.
  destruct (map_get (initial_nodes storyArcs quests dialogues) k) as [node0|] eqn:Hget0;
    [|done].
  injection Hkind as Hid Hty Hdata.
  destruct (Hinit k node0 Hget0)
    as [(d & Hd & Hkey & ->)|[(Hnd' & q & Hq & Hkey & ->)|(Hnd' & Hnq & a & Ha & Hkey & ->)]];
    simpl in *.
  - split; [congruence|]. left. split; [done|]. apply list_elem_of_fmap. by exists d.
  - split; [congruence|]. right. left. split; [done|]. split; [done|]. by exists q.
  - split; [congruence|]. right. right. split; [done|]. split; [done|]. split; [done|].
    apply list_elem_of_fmap. by exists a.
Qed.

End BuiltNodes.

Section Orphans.
Import Js Validation Spec GraphSpec.

Lemma detectOrphanNodes_reports (g : Graph) (k : string) :
  reports orphan k (detectOrphanNodes g) ↔ ∃ node, (k, node) ∈ nodes g ∧ isolated node.
Proof.
  unfold reports, detectOrphanNodes, isolated. rewrite list.Exists_exists. split.
  - intros (e & He & _ & Hk).
    apply list_elem_of_In, in_flat_map in He as ([k' node] & Hin & He).
    destruct (incoming node) eqn:Hi, (outgoing node) eqn:Ho; simpl in He; try done.
    destruct He as [<-|[]]. simpl in Hk. injection Hk as ->.
    exists node. split; [by apply list_elem_of_In|]. done.
  - intros (node & Hin & Hi & Ho). eexists. split.
    + apply list_elem_of_In, in_flat_map. exists (k, node).
      split; [by apply list_elem_of_In|]. rewrite Hi, Ho. by left.
    + done.
Qed.

Lemma detectOrphanNodes_length (g : Graph) :
  length (detectOrphanNodes g) = length (filter (fun e => isolated e.2) (nodes g)).
Proof.
  unfold detectOrphanNodes. induction (nodes g) as [|[k node] l IH]; [done|].
  cbn [flat_map]. rewrite length_app, IH, filter_cons. cbn [snd].
  destruct (decide (isolated node)) as [[Hi Ho]|Hno].
  - by rewrite Hi, Ho.
  - destruct (incoming node) eqn:Hi, (outgoing node) eqn:Ho; simpl; try done.
    exfalso. by apply Hno.
Qed.

(** X3: The warnings of whole-graph validation are its orphan findings, one
    for each node whose two adjacency arrays are empty, and no orphan
    finding is an error. *)
Theorem warnings_are_the_isolated_nodes (g : Graph) :
  ∃ r, validateGraph g = Some r ∧
       (∀ e, e ∈ warnings r → err_type e = orphan) ∧
       (∀ k, reports orphan k (warnings r) ↔ ∃ node, (k, node) ∈ nodes g ∧ isolated node) ∧
       length (warnings r) = length (filter (fun e => isolated e.2) (nodes g)) ∧
       count_type orphan (errors r) = 0%nat.
Proof.
  destruct (validateGraph_passes g) as (un & ci & _ & _ & Hunt & Hcit & ->).
  eexists. split; [done|]. simpl. split; [|split; [|split]].
  - intros e He. by destruct (typed_elem _ _ _ _ (detectOrphanNodes_typed g) He).
  - apply detectOrphanNodes_reports.
  - apply detectOrphanNodes_length.
  - rewrite !count_type_app.
    rewrite (typed_count_other _ orphan _ _ Hunt) by done.
    rewrite (typed_count_other _ orphan _ _ (detectBrokenChains_typed g)) by done.
    rewrite (typed_count_other _ orphan _ _ Hcit) by done.
    rewrite (typed_count_other _ orphan _ _ (validatePrerequisites_typed g)) by done.
    by rewrite (typed_count_other _ orphan _ _ (validateConditions_typed g)) by done.
Qed.

End Orphans.

Section BuiltGraphReports.
Import Js Validation Spec GraphSpec.

Variables (storyArcs : list StoryArc) (quests : list Quest) (dialogues : list Dialogue).

Lemma detectBrokenChains_built :
  detectBrokenChains (buildGraph storyArcs quests dialogues) = [].
Proof.
  unfold detectBrokenChains.
  assert (∀ l, (∀ e, e ∈ l → e ∈ nodes (buildGraph storyArcs quests dialogues)) →
               flat_map
                 (fun '(nodeId, node) =>
                    if bool_decide (node_type node = quest)
                       && (length (incoming node) =? 0)%nat
                    then
                      match data_prerequisites (data node) with
                      | Some ps =>
                          if (0 <? length ps)%nat
                          then [ {| err_type := broken_chain; nodeId := Some nodeId;
                                    message := MsgBrokenChain (label node);
                                    severity := error;
                                    suggestions :=
                                      Some [ "Connect prerequisite quests to this quest";
                                             "Remove prerequisites if not needed";
                                             "Create the missing prerequisite quests" ] |} ]
                          else []
                      | None => []
                      end
                    else []) l = []) as Hall.
  { induction l as [|[k node] l IH]; intros Hl; [done|]. cbn [flat_map].
    rewrite IH by (intros e He; apply Hl; by right). rewrite app_nil_r.
    destruct (bool_decide _); [|done]. simpl.
    destruct (incoming node) eqn:Hi; [|done]. simpl.
    destruct (data_prerequisites (data node)) as [ps|] eqn:Hps; [|done].
    destruct ps as [|p ps]; [done|]. exfalso.
    apply (buildGraph_wires_prerequisites storyArcs quests dialogues k node); [|  |done].
    - apply Hl. left.
    - unfold declared. rewrite Hps. simpl. lia. }
  by apply Hall.
Qed.

(** X4: Whole-graph validation of a project never finds a broken chain:
    [buildGraph] records every declared prerequisite as an incoming
    connection of the quest that declares it. *)
Theorem built_graph_has_no_broken_chain :
  ∃ r, validateStoryGraph storyArcs quests dialogues = Some r ∧
       count_type broken_chain (errors r ++ warnings r) = 0%nat ∧
       brokenChains (summary r) = 0%nat.
Proof.
  unfold validateStoryGraph.
  destruct (validateGraph_passes (buildGraph storyArcs quests dialogues))
    as (un & ci & _ & _ & Hunt & Hcit & Hr).
  destruct (summary_counts (buildGraph storyArcs quests dialogues))
    as (r & Hr' & _ & _ & Hb & _).
  exists r. split; [done|].
  assert (count_type broken_chain (errors r ++ warnings r) = 0%nat) as Hzero.
  { rewrite Hr in Hr'. injection Hr' as <-. simpl.
    rewrite detectBrokenChains_built. rewrite !count_type_app. simpl.
    rewrite (typed_count_other _ broken_chain _ _ Hunt) by done.
    rewrite (typed_count_other _ broken_chain _ _ Hcit) by done.
    rewrite (typed_count_other _ broken_chain _ _ (validatePrerequisites_typed _)) by done.
    rewrite (typed_count_other _ broken_chain _ _ (validateConditions_typed _)) by done.
    by rewrite (typed_count_other _ broken_chain _ _ (detectOrphanNodes_typed _)) by done. }
  split; [done|]. by rewrite Hb.
Qed.

(** X6: The node count of the summary is the number of distinct identifiers
    among the story arcs, quests and dialogues of the project: records
    that share an identifier share a node. *)
Theorem totalNodes_counts_distinct_identifiers :
  ∃ r, validateStoryGraph storyArcs quests dialogues = Some r ∧
       totalNodes (summary r)
       = size (list_to_set (identifiers storyArcs quests dialogues) : gset string) ∧
       (totalNodes (summary r)
        ≤ length storyArcs + length quests + length dialogues)%nat.
Proof.
  unfold validateStoryGraph.
  destruct (validateGraph_passes (buildGraph storyArcs quests dialogues))
    as (un & ci & _ & _ & _ & _ & ->).
  eexists. split; [done|]. simpl.
  destruct (buildGraph_nodes storyArcs quests dialogues) as (Hnd & Hkeys & _).
  assert (length (nodes (buildGraph storyArcs quests dialogues))
          = size (list_to_set (identifiers storyArcs quests dialogues) : gset string))
    as Hsize.
  { rewrite <- (length_map fst).
    rewrite <- (size_list_to_set (C := gset string)) by done.
    f_equal. apply set_eq. intros k. rewrite !elem_of_list_to_set. apply Hkeys. }
  split; [done|]. rewrite Hsize.
  etransitivity; [apply size_list_to_set_le|].
  unfold identifiers. rewrite !length_app, !length_map. lia.
Qed.

Lemma map_has_keys (ns : list (string * Node)) (k : string) :
  map_has ns k = true ↔ k ∈ map fst ns.
Proof.
  unfold map_has. split.
  - destruct (map_get ns k) as [node|] eqn:Hget; [|done]. intros _.
    apply map_get_elem in Hget. apply list_elem_of_fmap. by exists (k, node).
  - intros ([k' node] & -> & Hin)%list_elem_of_fmap. simpl.
    by destruct (map_get_key _ _ _ Hin) as [? ->].
Qed.

Lemma validatePrerequisites_reports (g : Graph) (k : string) :
  reports missing_prerequisites k (validatePrerequisites g) ↔
  ∃ node p, (k, node) ∈ nodes g ∧ node_type node = quest ∧ p ∈ declared node ∧
            map_has (nodes g) (prereq_id p) = false.
Proof.
  unfold validatePrerequisites. rewrite reports_flat_map. split.
  - intros ([k' node] & Hin & Hrep).
    destruct (bool_decide (node_type node = quest)) eqn:Hty;
      [|by apply Exists_nil in Hrep].
    apply bool_decide_eq_true in Hty.
    apply reports_flat_map in Hrep as (p & Hp & Hrep).
    destruct (map_has (nodes g) (prereq_id p)) eqn:Hhas; [by apply Exists_nil in Hrep|].
    apply Exists_cons in Hrep as [[_ Hk]|Hrep]; [|by apply Exists_nil in Hrep].
    simpl in Hk. injection Hk as ->. by exists node, p.
  - intros (node & p & Hin & Hty & Hp & Hhas). exists (k, node). split; [done|].
    rewrite bool_decide_eq_true_2 by done. apply reports_flat_map.
    exists p. split; [done|]. rewrite Hhas. by left.
Qed.

(** X5: Whole-graph validation of a project reports a missing prerequisite on
    a quest exactly when the quest declares a prerequisite whose [id] is
    the identifier of no story arc, quest or dialogue of the project. *)
Theorem missing_prerequisites_iff_unknown_identifier :
  ∃ r, validateStoryGraph storyArcs quests dialogues = Some r ∧
       ∀ k, reports missing_prerequisites k (errors r) ↔
            ∃ node p, (k, node) ∈ nodes (buildGraph storyArcs quests dialogues) ∧
                      node_type node = quest ∧ p ∈ declared node ∧
                      prereq_id p ∉ identifiers storyArcs quests dialogues.
Proof.
  unfold validateStoryGraph.
  destruct (validateGraph_passes (buildGraph storyArcs quests dialogues))
    as (un & ci & _ & _ & Hunt & Hcit & ->).
  eexists. split; [done|]. intros k.
  rewrite (proj2 (proj2 (graph_report_reports _ un ci k Hunt Hcit))).
  rewrite validatePrerequisites_reports.
  destruct (buildGraph_nodes storyArcs quests dialogues) as (_ & Hkeys & _).
  split; intros (node & p & Hin & Hty & Hp & Hhas); exists node, p;
    (split; [done|]); (split; [done|]); (split; [done|]).
  - rewrite <- Hkeys, <- map_has_keys. by rewrite Hhas.
  - rewrite <- Hkeys, <- map_has_keys in Hhas. by destruct (map_has _ _).
Qed.

Lemma addEdgeToNodes_adjacency (ns : list (string * Node)) (s t : string) :
  adjacency_agrees ns → adjacency_agrees (addEdgeToNodes ns s t).
Proof.
  intros Hagree a b na nb. unfold addEdgeToNodes. rewrite !map_get_update.
  destruct (map_get ns a) as [na0|] eqn:Ha;
    [|by destruct (decide (t = a)), (decide (s = a))].
  destruct (map_get ns b) as [nb0|] eqn:Hb;
    [|by destruct (decide (t = b)), (decide (s = b))].
  specialize (Hagree a b na0 nb0 Ha Hb).
  intros Hna Hnb.
  assert (outgoing na = outgoing na0 ++ (if decide (s = a) then [t] else [])) as ->.
  { destruct (decide (t = a)), (decide (s = a)); simpl in Hna; injection Hna as <-;
      simpl; by rewrite ?app_nil_r. }
  assert (incoming nb = incoming nb0 ++ (if decide (t = b) then [s] else [])) as ->.
  { destruct (decide (t = b)), (decide (s = b)); simpl in Hnb; injection Hnb as <-;
      simpl; by rewrite ?app_nil_r. }
  rewrite !count_occ_app, Hagree.
  destruct (decide (s = a)) as [->|Hsa], (decide (t = b)) as [->|Htb]; simpl;
    repeat destruct (string_dec _ _); try done; lia.
Qed.

(** X7: In the graph built from a project the two adjacency arrays agree:
    between any two nodes, the [outgoing] array of the first lists the
    second as many times as the [incoming] array of the second lists the
    first. *)
Theorem built_graph_adjacency_agrees :
  adjacency_agrees (nodes (buildGraph storyArcs quests dialogues)).
Proof.
  apply (buildGraph_keeps (fun g => adjacency_agrees (nodes g))).
  - intros g e s t _ Hg. by apply addEdgeToNodes_adjacency.
  - intros a b na nb Ha Hb. simpl in Ha, Hb.
    destruct (initial_nodes_spec storyArcs quests dialogues) as (_ & _ & Hinit).
    destruct (Hinit a na Ha) as [(? & _ & _ & ->)|[(_ & ? & _ & _ & ->)|(_ & _ & ? & _ & _ & ->)]];
    destruct (Hinit b nb Hb) as [(? & _ & _ & ->)|[(_ & ? & _ & _ & ->)|(_ & _ & ? & _ & _ & ->)]];
    done.
Qed.

Lemma connect_keeps_sinks (ns0 : list (string * Node)) (g : Graph) (e : Edge)
      (s t : string) :
  (∀ node, map_get ns0 s = Some node → node_type node ≠ story_arc) →
  same_kinds ns0 (nodes g) ∧ arcs_are_sinks (nodes g) →
  same_kinds ns0 (nodes (connect g e s t)) ∧ arcs_are_sinks (nodes (connect g e s t)).
Proof.
  intros Hs [Hkinds Hsinks]. split.
  { eapply same_kinds_trans; [exact Hkinds|]. apply addEdgeToNodes_same_kinds. }
  intros k node. simpl. unfold addEdgeToNodes. rewrite !map_get_update.
  destruct (map_get (nodes g) k) as [n0|] eqn:Hget;
    [|by destruct (decide (t = k)), (decide (s = k))].
  intros Hnode Hty.
  assert (node_type node = node_type n0 ∧
          outgoing node = outgoing n0 ++ (if decide (s = k) then [t] else [])) as [Hty0 ->].
  { destruct (decide (t = k)), (decide (s = k)); simpl in Hnode; injection Hnode as <-;
      simpl; by rewrite ?app_nil_r. }
  rewrite Hty0 in Hty. rewrite (Hsinks k n0 Hget Hty).
  destruct (decide (s = k)) as [->|]; [|done]. exfalso.
  destruct Hkinds as [_ Hkind]. specialize (Hkind k). rewrite Hget in Hkind.
  destruct (map_get ns0 k) as [n00|] eqn:Hget0; [|done].
  injection Hkind as _ Hty' _. apply (Hs n00 eq_refl). congruence.
Qed.

Lemma buildGraph_arcs_are_sinks :
  (∀ q p, q ∈ quests → p ∈ opt_list (prerequisites q) →
          prereq_id p ∉ map arc_id storyArcs) →
  arcs_are_sinks (nodes (buildGraph storyArcs quests dialogues)).
Proof.
  intros Hpre.
  destruct (initial_nodes_spec storyArcs quests dialogues) as (_ & _ & Hinit).
  apply (buildGraph_keeps
           (fun g => same_kinds (initial_nodes storyArcs quests dialogues) (nodes g) ∧
                     arcs_are_sinks (nodes g))).
  - intros g e s t Hs. apply connect_keeps_sinks. intros node Hnode.
    destruct (Hinit s node Hnode)
      as [(? & _ & _ & ->)|[(_ & ? & _ & _ & ->)|(Hd & Hq & a & Ha & Hkey & ->)]];
      [done | done |].
    exfalso. destruct Hs as [Hs|[Hs|(q & p & Hqin & Hp & ->)]]; [done | done |].
    apply (Hpre q p Hqin Hp). apply list_elem_of_fmap. by exists a.
  - split; [apply same_kinds_refl|]. intros k node Hnode _. simpl in Hnode.
    by destruct (Hinit k node Hnode)
      as [(? & _ & _ & ->)|[(_ & ? & _ & _ & ->)|(_ & _ & ? & _ & _ & ->)]].
Qed.

(** X2: When no prerequisite of the project names a story arc, the story arcs
    have no outgoing connection and the search reaches nothing beyond its
    start points: whole-graph validation reports every node as unreachable
    but the story arcs that have no incoming connection, and a project
    that has a quest is never valid. *)
Theorem only_unconnected_story_arcs_are_reachable :
  (∀ q p, q ∈ quests → p ∈ opt_list (prerequisites q) →
          prereq_id p ∉ map arc_id storyArcs) →
  ∃ r, validateStoryGraph storyArcs quests dialogues = Some r ∧
       (∀ k, reports unreachable k (errors r) ↔
             ∃ node, (k, node) ∈ nodes (buildGraph storyArcs quests dialogues) ∧
                     ¬ (node_type node = story_arc ∧ incoming node = [])) ∧
       (quests ≠ [] → isValid r = false).
Proof.
  intros Hpre. unfold validateStoryGraph.
  set (g := buildGraph storyArcs quests dialogues).
  destruct (validateGraph_passes g) as (un & ci & Hun & _ & Hunt & Hcit & ->).
  destruct (detectUnreachableNodes_reports g) as (un' & Hun' & Hrep).
  rewrite Hun in Hun'. injection Hun' as <-.
  destruct (buildGraph_nodes storyArcs quests dialogues) as (Hnd & Hkeys & Hnodes).
  fold g in Hnd, Hkeys, Hnodes.
  pose proof (buildGraph_arcs_are_sinks Hpre) as Hsinks. fold g in Hsinks.
  assert (∀ k node, (k, node) ∈ nodes g →
                    reachable (nodes g) k ↔ node_type node = story_arc ∧ incoming node = [])
    as Hreach.
  { intros k node Hin. destruct (Hnodes k node Hin) as (Hget & _ & _). split.
    - intros (s & (k' & node' & Hin' & Hty & Hinc & <-) & Hpath).
      destruct (Hnodes k' node' Hin') as (Hget' & Hid & _). rewrite Hid in Hpath.
      destruct Hpath as [|a b c Hab _].
      + rewrite Hget in Hget'. by injection Hget' as <-.
      + unfold edge, node_outgoing in Hab. rewrite Hget' in Hab.
        rewrite (Hsinks _ _ Hget' Hty) in Hab. by apply elem_of_nil in Hab.
    - intros [Hty Hinc]. exists k. split; [|done].
      exists k, node. destruct (Hnodes k node Hin) as (_ & Hid & _). done. }
  assert (∀ k, reports unreachable k (errors (graph_report g un ci)) ↔
               ∃ node, (k, node) ∈ nodes g ∧
                       ¬ (node_type node = story_arc ∧ incoming node = [])) as Hall.
  { intros k. rewrite (proj1 (graph_report_reports g un ci k Hunt Hcit)), Hrep. split.
    - intros [[node Hin] Hno]. exists node. split; [done|]. by rewrite <- (Hreach k node Hin).
    - intros (node & Hin & Hno). split; [by exists node|]. by rewrite (Hreach k node Hin). }
  eexists. split; [done|]. split; [exact Hall|].
  intros Hq. destruct quests as [|q qs] eqn:Hqs; [done|].
  assert (quest_id q ∈ map fst (nodes g)) as Hkey.
  { apply Hkeys. unfold identifiers. rewrite !elem_of_app. right. left. left. }
  apply list_elem_of_fmap in Hkey as ([k node] & Hk & Hin). simpl in Hk. subst k.
  assert (reports unreachable (quest_id q) (errors (graph_report g un ci))) as Hbad.
  { apply Hall. exists node. split; [done|]. intros [Hty _].
    destruct (Hnodes _ _ Hin) as (_ & _ & [[Hty' _]|[[Hty' _]|(_ & _ & Hnq & _)]]);
      [congruence | congruence |].
    apply Hnq. left. }
  unfold reports in Hbad. apply list.Exists_exists in Hbad as (e & He & _).
  change (isValid (graph_report g un ci))
    with (length (errors (graph_report g un ci)) =? 0)%nat.
  destruct (errors (graph_report g un ci)); [by apply elem_of_nil in He | done].
Qed.

End BuiltGraphReports.

Section QuestValidity.
Import Js Validation Spec GraphSpec.








End QuestValidity.

Section FalsyValues.
Import Js Validation Spec GraphSpec.

Lemma isValidCondition_falsy_value (c : Condition) :
  truthy_opt (cond_value c) = false → isValidCondition c = false.
Proof.
  intros Hv. unfold isValidCondition. rewrite Hv.
  destruct (cond_type c), (cond_operator c); try done.
  by rewrite !orb_true_r.
Qed.

(** X9: A condition whose value is absent or falsy (the number 0, [false],
    the empty string, [null]) is reported as invalid on its quest,
    whatever its type and operator are. *)
Theorem falsy_condition_value_is_invalid (g : Graph) (k : string) (node : Node)
        (c : Condition) :
  (k, node) ∈ nodes g → node_type node = quest → c ∈ conditions_of node →
  truthy_opt (cond_value c) = false →
  ∃ r, validateGraph g = Some r ∧ reports invalid_condition k (errors r).
Proof.
  intros Hin Hty Hc Hv.
  destruct (validateGraph_passes g) as (un & ci & _ & _ & _ & _ & ->).
  eexists. split; [done|]. simpl. rewrite !reports_app.
  right. right. right. right. apply validateConditions_reports.
  exists node, c. split; [done|]. split; [done|]. split; [done|].
  by apply isValidCondition_falsy_value.
Qed.

Lemma falsy_condition_value_is_invalid_witness :
  ∃ r, validateGraph
         (Samples.guarded_graph
            {| cond_type := Some "stat"; cond_operator := Some "eq";
               cond_value := Some (VNum (of_Z 0)) |}) = Some r ∧
       reports invalid_condition "Q1" (errors r).
Proof.
  eapply (falsy_condition_value_is_invalid _ "Q1");
    [left | done | cbv; left | by_computation].
Defined.

End FalsyValues.

(** * Further properties of the simulation service *)

Section Runs.
Import Js Simulation SimulationSpec RunSpec.






End Runs.

Section RunInvariants.
Import Js Simulation SimulationSpec RunSpec.

Variables (quests : list Quest) (characters : list Character)
          (request : SimulationRequest).







End RunInvariants.

Section ResolvedQuests.
Import Js Simulation SimulationSpec RunSpec.



End ResolvedQuests.

Section RunEvents.
Import Js Simulation SimulationSpec RunSpec.

Variables (quests : list Quest) (characters : list Character)
          (request : SimulationRequest).









End RunEvents.

Section EventLog.
Import Js Simulation SimulationSpec RunSpec.



End EventLog.

Section Aliasing.
Import Js Simulation SimulationSpec RunSpec.



End Aliasing.

Section Prerequisites.
Import Js Simulation SimulationSpec RunSpec.





End Prerequisites.

Section WitnessesOfRuns.
Import Js Simulation SimulationSpec SimulationSamples RunSpec RunSamples.


End WitnessesOfRuns.

Section QuestResolution.
Import Js Simulation SimulationSpec RunSpec.

(** X19: The choices that a simulated quest is given never include [protect],
    [attack], [kill] or [help], so the alignment change of a simulated
    quest has no evil part: a failed quest changes nothing, a completed
    combat quest gives 5 to good when the level exceeds 2 and nothing
    otherwise, a completed dialogue quest gives 3 to good and 2 to
    neutral, and any other completed quest gives 1 to neutral. *)
Theorem simulated_quest_alignment (w : World) (q : Quest) (state : PlayerState) :
  let res := (simulateQuest w q state).1 in
  let changes := calculateAlignmentChanges q res in
  let zero := of_Z 0 in
  evil changes = zero ∧
  (result_completed res = false →
   changes = {| good := zero; neutral := zero; evil := zero |}) ∧
  (result_completed res = true → quest_type q = "combat" →
   changes = {| good := if gt (get_num (stats state) "level") (of_Z 2)
                        then of_Z 5 else zero;
                neutral := zero; evil := zero |}) ∧
  (result_completed res = true → quest_type q = "dialogue" →
   changes = {| good := of_Z 3; neutral := of_Z 2; evil := zero |}) ∧
  (result_completed res = true → quest_type q ≠ "combat" → quest_type q ≠ "dialogue" →
   changes = {| good := zero; neutral := of_Z 1; evil := zero |}).
Proof.
  unfold simulateQuest. destruct (Math_random w) as [r w1]. cbn [fst].
  set (done := bool_decide _). cbv zeta.
  unfold calculateAlignmentChanges, has_choice, generatePlayerChoices.
  cbn [result_completed result_choices].
  destruct done; cbn [negb]; [|repeat split; intros; done].
  destruct (decide (quest_type q = "combat")) as [Hc|Hc].
  { destruct (gt (get_num (stats state) "health") (of_Z 50)),
      (gt (get_num (stats state) "level") (of_Z 2)); cbn;
      (split; [done|]); (split; [done|]); (split; [done|]);
      (split; [by rewrite Hc|]); intros; done. }
  destruct (decide (quest_type q = "dialogue")) as [Hd|Hd].
  { destruct (gt (get_num (stats state) "level") (of_Z 3)); cbn;
      (split; [done|]); (split; [done|]); (split; [done|]);
      (split; [done|]); intros; done. }
  destruct (decide (quest_type q = "exploration")); cbn; repeat split; intros; done.
Qed.





End QuestResolution.

Section Selection.
Import Js Simulation SimulationSpec RunSpec.




End Selection.

Section Availability.
Import Js Simulation SimulationSpec RunSpec.

Lemma filter_throwing_None {A : Type} (f : A -> option bool) (l : list A) :
  filter_throwing f l = None ↔ ∃ x, In x l ∧ f x = None.
Proof.
  induction l as [|y l IH]; simpl.
  - split; [done | by intros (x & [] & _)].
  - destruct (f y) as [b|] eqn:Hy.
    + destruct (filter_throwing f l) as [r|].
      * split; [done|]. intros (x & [<-|Hx] & Hfx); [congruence|].
        assert (Some r = None) as Habs by (apply IH; eauto). discriminate Habs.
      * split; [|done]. intros _. destruct (proj1 IH eq_refl) as (x & Hx & Hfx).
        exists x. split; [by right | done].
    + split; [|done]. intros _. exists y. split; [by left | done].
Qed.

(** X16: Looking for the available quests throws exactly when some quest has
    no progress entry in the state. *)
Theorem findAvailableQuests_throws_iff_untracked
        (w : World) (quests : list Quest) (state : PlayerState) :
  findAvailableQuests w quests state = None ↔
  ∃ q, q ∈ quests ∧ quest_progress state !! quest_id q = None.
Proof.
  unfold findAvailableQuests. rewrite filter_throwing_None. split.
  - intros (q & Hq & Hf). exists q. split; [by apply list_elem_of_In|].
    destruct (quest_progress state !! quest_id q) as [p|]; [|done].
    destruct (bool_decide _); [|done]. by destruct (prerequisites q) as [[|? ?]|].
  - intros (q & Hq & Hnone). exists q. split; [by apply list_elem_of_In|].
    by rewrite Hnone.
Qed.

End Availability.

Section TimeBudget.
Import Js Simulation SimulationSpec RunSpec.






End TimeBudget.

(** * Properties of the analysis helpers of the simulation controller *)

Section EventCounts.
Import Js SimulationController ControllerSpec.

Lemma kind_name_inj (k k' : EventKind) : kind_name k = kind_name k' → k = k'.
Proof. destruct k, k'; simpl; intros H; first [done | discriminate H]. Qed.

Lemma add_of_Z (a b : Z) : add (of_Z a) (of_Z b) = of_Z (a + b).
Proof.
  unfold add, lift2, of_Z. f_equal. apply Qc_is_canon. simpl.
  rewrite !Qred_correct. by rewrite inject_Z_plus.
Qed.

Lemma truthy_of_Z (a : Z) : a ≠ 0%Z → truthy_num (of_Z a) = true.
Proof.
  intros Ha. unfold truthy_num, of_Z. rewrite bool_decide_eq_false_2; [done|].
  intros Heq. apply (f_equal this) in Heq. simpl in Heq.
  apply Ha. assert (inject_Z a == 0)%Q as Hq.
  { rewrite <- (Qred_correct (inject_Z a)). by rewrite Heq. }
  unfold Qeq in Hq. simpl in Hq. lia.
Qed.

(** The count that [countEventTypes] stores for a kind of event. *)
Lemma count_entry (counts : gmap string num) (n : nat) (name : string) :
  counts !! name = (if (n =? 0)%nat then None else Some (of_Z (Z.of_nat n))) →
  add (or_zero (counts !! name)) (of_Z 1) = of_Z (Z.of_nat (S n)).
Proof.
  intros ->. destruct n as [|n]; cbn [Nat.eqb]; unfold or_zero.
  - by rewrite add_of_Z.
  - rewrite truthy_of_Z by lia. rewrite add_of_Z. f_equal. lia.
Qed.

(** X22: [countEventTypes] maps the name of each kind of event that occurs to
    the number of its occurrences, and has no entry for a kind that does
    not occur. *)
Theorem countEventTypes_counts_each_kind (events : list StoredEvent) (k : EventKind) :
  countEventTypes events !! kind_name k
  = if (occurrences k events =? 0)%nat then None
    else Some (of_Z (Z.of_nat (occurrences k events))).
Proof.
  unfold countEventTypes.
  assert (∀ (l : list StoredEvent) (counts : gmap string num) (n : EventKind → nat),
             (∀ k, counts !! kind_name k
                   = if (n k =? 0)%nat then None else Some (of_Z (Z.of_nat (n k)))) →
             ∀ k,
               fold_left
                 (fun counts event =>
                    <[kind_name (stored_type event)
                      := add (or_zero (counts !! kind_name (stored_type event)))
                             (of_Z 1)]> counts) l counts !! kind_name k
               = if (n k + occurrences k l =? 0)%nat then None
                 else Some (of_Z (Z.of_nat (n k + occurrences k l)))) as Hgen.
  { induction l as [|e l IH]; intros counts n Hn k0; simpl.
    - unfold occurrences. simpl. rewrite Nat.add_0_r. apply Hn.
    - rewrite (IH _ (fun k' => if decide (stored_type e = k') then S (n k') else n k')).
      + unfold occurrences. rewrite filter_cons.
        destruct (decide (stored_type e = k0)); simpl; [|done].
        by rewrite Nat.add_succ_r.
      + intros k'. destruct (decide (stored_type e = k')) as [<-|Hne].
        * rewrite lookup_insert_eq. simpl. f_equal. by apply count_entry.
        * rewrite lookup_insert_ne; [apply Hn|]. by intros ?%kind_name_inj. }
  apply (Hgen events ∅ (fun _ => 0%nat)). intros k'. by rewrite lookup_empty.
Qed.

End EventCounts.

Section TimeDistribution.
Import Js SimulationController ControllerSpec.

Lemma minutes_le (t : Qc) (m : Z) :
  le (div (Num t) (of_Z 60)) (of_Z m) = bool_decide (t <= Q2Qc (inject_Z (m * 60)))%Qc.
Proof.
  unfold div, of_Z. rewrite decide_False by (intros H; discriminate H). unfold le.
  apply bool_decide_ext.
  assert (Q2Qc (inject_Z (m * 60)) = Q2Qc (inject_Z m) * Q2Qc (inject_Z 60))%Qc as ->.
  { apply Qc_is_canon. simpl. rewrite !Qred_correct. by rewrite inject_Z_mult. }
  assert (0 < Q2Qc (inject_Z 60))%Qc as Hpos by done.
  assert (t = t / Q2Qc (inject_Z 60) * Q2Qc (inject_Z 60))%Qc as Ht.
  { field. intros H; discriminate H. }
  split.
  - intros Hle. rewrite Ht. apply Qcmult_le_compat_r; [done|]. by apply Qclt_le_weak.
  - intros Hle. rewrite Ht in Hle. by apply Qcmult_lt_0_le_reg_r in Hle.
Qed.

(** X23: [analyzeTimeDistribution] counts every event once: an event stamped
    with up to 300 seconds in the first range, with more and up to 900 in
    the second, with more and up to 1800 in the third, and any other
    event, an event whose time stamp is not a number included, in the
    last. *)
Theorem analyzeTimeDistribution_counts_every_event (events : list StoredEvent) :
  let r := analyzeTimeDistribution events in
  upto_5min r = stamped_within None (Some 300%Z) events ∧
  upto_15min r = stamped_within (Some 300%Z) (Some 900%Z) events ∧
  upto_30min r = stamped_within (Some 900%Z) (Some 1800%Z) events ∧
  over_30min r = stamped_within (Some 1800%Z) None events ∧
  (upto_5min r + upto_15min r + upto_30min r + over_30min r = length events)%nat.
Proof.
  unfold analyzeTimeDistribution.
  assert (∀ (l : list StoredEvent) (r0 : TimeRanges),
             let r :=
               fold_left
                 (fun timeRanges event =>
                    let minutes := div (stored_timestamp event) (of_Z 60) in
                    if le minutes (of_Z 5) then
                      {| upto_5min := S (upto_5min timeRanges);
                         upto_15min := upto_15min timeRanges;
                         upto_30min := upto_30min timeRanges;
                         over_30min := over_30min timeRanges |}
                    else if le minutes (of_Z 15) then
                      {| upto_5min := upto_5min timeRanges;
                         upto_15min := S (upto_15min timeRanges);
                         upto_30min := upto_30min timeRanges;
                         over_30min := over_30min timeRanges |}
                    else if le minutes (of_Z 30) then
                      {| upto_5min := upto_5min timeRanges;
                         upto_15min := upto_15min timeRanges;
                         upto_30min := S (upto_30min timeRanges);
                         over_30min := over_30min timeRanges |}
                    else
                      {| upto_5min := upto_5min timeRanges;
                         upto_15min := upto_15min timeRanges;
                         upto_30min := upto_30min timeRanges;
                         over_30min := S (over_30min timeRanges) |}) l r0 in
             upto_5min r = (upto_5min r0 + stamped_within None (Some 300%Z) l)%nat ∧
             upto_15min r
             = (upto_15min r0 + stamped_within (Some 300%Z) (Some 900%Z) l)%nat ∧
             upto_30min r
             = (upto_30min r0 + stamped_within (Some 900%Z) (Some 1800%Z) l)%nat ∧
             over_30min r = (over_30min r0 + stamped_within (Some 1800%Z) None l)%nat ∧
             (upto_5min r + upto_15min r + upto_30min r + over_30min r
              = upto_5min r0 + upto_15min r0 + upto_30min r0 + over_30min r0 + length l)%nat)
    as Hgen.
  { induction l as [|e l IH]; intros r0; cbv zeta.
    - unfold stamped_within. simpl. repeat split; lia.
    - cbn [fold_left]. cbv zeta.
      match goal with
      | |- context [fold_left _ l ?r1] =>
          specialize (IH r1); cbv zeta in IH; destruct IH as (H1 & H2 & H3 & H4 & H5)
      end.
      rewrite H1, H2, H3, H4 in H5. rewrite H1, H2, H3, H4. clear H1 H2 H3 H4.
      revert H5.
      unfold stamped_within. cbn [List.filter].
      destruct (stored_timestamp e) as [|t].
      + cbn. intros H5. repeat split; lia.
      + rewrite !minutes_le. change (5 * 60)%Z with 300%Z.
        change (15 * 60)%Z with 900%Z. change (30 * 60)%Z with 1800%Z.
        unfold within.
        destruct (bool_decide (t <= Q2Qc (inject_Z 300))%Qc) eqn:C1.
        { apply bool_decide_eq_true in C1.
          rewrite (bool_decide_eq_false_2 (Q2Qc (inject_Z 300) < t)%Qc)
            by (by apply Qcle_not_lt).
          assert (t <= Q2Qc (inject_Z 900))%Qc as C2
              by (eapply Qcle_trans; [exact C1 | done]).
          assert (t <= Q2Qc (inject_Z 1800))%Qc as C3
              by (eapply Qcle_trans; [exact C1 | done]).
          rewrite (bool_decide_eq_false_2 (Q2Qc (inject_Z 900) < t)%Qc)
            by (by apply Qcle_not_lt).
          rewrite (bool_decide_eq_false_2 (Q2Qc (inject_Z 1800) < t)%Qc)
            by (by apply Qcle_not_lt).
          cbn. intros H5. repeat split; lia. }
        apply bool_decide_eq_false, Qcnot_le_lt in C1.
        rewrite (bool_decide_eq_true_2 (Q2Qc (inject_Z 300) < t)%Qc) by done.
        destruct (bool_decide (t <= Q2Qc (inject_Z 900))%Qc) eqn:C2.
        { apply bool_decide_eq_true in C2.
          rewrite (bool_decide_eq_false_2 (Q2Qc (inject_Z 900) < t)%Qc)
            by (by apply Qcle_not_lt).
          assert (t <= Q2Qc (inject_Z 1800))%Qc as C3
              by (eapply Qcle_trans; [exact C2 | done]).
          rewrite (bool_decide_eq_false_2 (Q2Qc (inject_Z 1800) < t)%Qc)
            by (by apply Qcle_not_lt).
          cbn. intros H5. repeat split; lia. }
        apply bool_decide_eq_false, Qcnot_le_lt in C2.
        rewrite (bool_decide_eq_true_2 (Q2Qc (inject_Z 900) < t)%Qc) by done.
        destruct (bool_decide (t <= Q2Qc (inject_Z 1800))%Qc) eqn:C3.
        { apply bool_decide_eq_true in C3.
          rewrite (bool_decide_eq_false_2 (Q2Qc (inject_Z 1800) < t)%Qc)
            by (by apply Qcle_not_lt).
          cbn. intros H5. repeat split; lia. }
        apply bool_decide_eq_false, Qcnot_le_lt in C3.
        rewrite (bool_decide_eq_true_2 (Q2Qc (inject_Z 1800) < t)%Qc) by done.
        cbn. intros H5. repeat split; lia. }
  cbv zeta.
  pose proof (Hgen events {| upto_5min := 0; upto_15min := 0;
                             upto_30min := 0; over_30min := 0 |}) as H.
  cbv zeta in H. exact H.
Qed.

End TimeDistribution.

Section FurtherWitnesses.
Import Js Simulation SimulationSpec SimulationSamples RunSpec RunSamples.

Lemma only_unconnected_story_arcs_are_reachable_witness :
  ∃ r, Validation.validateStoryGraph [Samples.lone_arc] [GraphSamples.opening] []
       = Some r ∧
       Validation.isValid r = false.
Proof.
  destruct (only_unconnected_story_arcs_are_reachable
              [Samples.lone_arc] [GraphSamples.opening] [])
    as (r & Hr & _ & Hinvalid).
  - intros q p ->%list_elem_of_singleton Hp. simpl in Hp. by apply elem_of_nil in Hp.
  - exists r. split; [exact Hr|]. by apply Hinvalid.
Defined.




End FurtherWitnesses.
